(** * egad: a Git repository of Handlebars templates, rendered into a tree

    Shallow embedding of [index.js] ([download], [generate], [scaffold]) over
    an explicit model of the file system, and the properties of the
    specification proved about it.

    Modelling conventions.
    - A path is the list of the segments of a resolved, normalised absolute
      path ([path.join], [path.relative] and [path.dirname] act on segments).
    - The disk is a tree; a directory lists its entries in [readdir] order.
    - A file holds bytes; a JavaScript string is the list of its UTF-16 code
      units; reading with encoding ['utf8'] decodes, writing encodes.
    - A promise chain is a function from the disk to the disk it leaves and
      either a value or the error it rejects with.
    - The libraries the module requires ([lodash], [is-binary-path],
      [consolidate], [simple-git]) are variables of the section; the
      kebab case of lodash is also given as a definition, for texts within
      ASCII. *)

From Stdlib Require Import List String Ascii Bool Arith NArith ZArith Lia Zify.
From Stdlib Require Import Permutation.
Import ListNotations.
Set Warnings "-register-all".
Local Open Scope string_scope.
Local Open Scope list_scope.

(** ** Errors and results *)

(** [err.code] of a rejected [fs] call. *)
Inductive errno := ENOENT | EEXIST | ENOTDIR | EISDIR.

Definition path := list string.

(** The errors a promise of the module rejects with. *)
Inductive error :=
| FsError (code : errno) (p : path)
    (* rejected by [fs], [mkdirp] or [walker] *)
| FileExistsAt (dest : path)
    (* [new Error(`File exists at ${opts.dest}`)] *)
| NoCacheOf (url : string) (dest : path)
    (* [new Error(`No cache of ${url} exists in ${opts.dest}`)] *)
| GitError (msg : string)
    (* passed by [simple-git] to the callback of [pull] or [clone] *)
| RenderError (msg : string).
    (* rejected by [consolidate.handlebars.render] *)

Inductive result (A : Type) :=
| Ok (a : A)
| Err (e : error).
Arguments Ok {A} a.
Arguments Err {A} e.

Definition rbind {A B} (r : result A) (k : A -> result B) : result B :=
  match r with
  | Ok a => k a
  | Err e => Err e
  end.

(** ** Strings *)

(** [_.endsWith(target, string)] of lodash/fp: the last [target.length]
    characters of [string] are [target]. *)
Definition endsWith (target s : string) : bool :=
  let n := String.length s in
  let m := String.length target in
  if (m <=? n)%nat then String.eqb (substring (n - m) m s) target else false.

(** ** Text *)

(** A JavaScript string: its UTF-16 code units. *)
Definition jsstring := list N.

(** The JavaScript string of a literal of ASCII characters. *)
Fixpoint js (s : string) : jsstring :=
  match s with
  | EmptyString => []
  | String c s' => N_of_ascii c :: js s'
  end.

(** The byte is between [lo] and [hi]. *)
Definition between (lo hi : N) (c : ascii) : bool :=
  ((lo <=? N_of_ascii c) && (N_of_ascii c <=? hi))%N.

(** The six bits a continuation byte carries. *)
Definition low6 (c : ascii) : N := (N_of_ascii c - 128)%N.

(** The least second byte after the lead [b0] of three or four bytes. *)
Definition second_min (b0 : N) : N :=
  (if b0 =? 224 then 160 else if b0 =? 240 then 144 else 128)%N.

(** The greatest second byte after the lead [b0]. *)
Definition second_max (b0 : N) : N :=
  (if b0 =? 237 then 159 else if b0 =? 244 then 143 else 191)%N.

(** The code units of a code point. *)
Definition units (cp : N) : jsstring :=
  (if cp <? 65536 then [cp]
   else [55296 + (cp - 65536) / 1024; 56320 + (cp - 65536) mod 1024])%N.

(** U+FFFD, that stands for what is not UTF-8. *)
Definition replacement : N := 65533%N.

(** [buffer.toString('utf8')]: a sequence that is not well formed gives
    U+FFFD, and decoding goes on at the byte that broke it. *)
Fixpoint utf8_decode (s : string) : jsstring :=
  match s with
  | EmptyString => []
  | String c0 s0 =>
      let b0 := N_of_ascii c0 in
      if (b0 <? 128)%N then b0 :: utf8_decode s0
      else if between 194 223 c0 then
        match s0 with
        | String c1 s1 =>
            if between 128 191 c1
            then ((b0 - 192) * 64 + low6 c1)%N :: utf8_decode s1
            else replacement :: utf8_decode s0
        | EmptyString => [replacement]
        end
      else if between 224 239 c0 then
        match s0 with
        | String c1 s1 =>
            if between (second_min b0) (second_max b0) c1 then
              match s1 with
              | String c2 s2 =>
                  if between 128 191 c2
                  then ((b0 - 224) * 4096 + low6 c1 * 64 + low6 c2)%N
                       :: utf8_decode s2
                  else replacement :: utf8_decode s1
              | EmptyString => [replacement]
              end
            else replacement :: utf8_decode s0
        | EmptyString => [replacement]
        end
      else if between 240 244 c0 then
        match s0 with
        | String c1 s1 =>
            if between (second_min b0) (second_max b0) c1 then
              match s1 with
              | String c2 s2 =>
                  if between 128 191 c2 then
                    match s2 with
                    | String c3 s3 =>
                        if between 128 191 c3
                        then units ((b0 - 240) * 262144 + low6 c1 * 4096
                                    + low6 c2 * 64 + low6 c3)%N
                             ++ utf8_decode s3
                        else replacement :: utf8_decode s2
                    | EmptyString => [replacement]
                    end
                  else replacement :: utf8_decode s1
              | EmptyString => [replacement]
              end
            else replacement :: utf8_decode s0
        | EmptyString => [replacement]
        end
      else replacement :: utf8_decode s0
  end.

(** The bytes of a code point. *)
Definition utf8_bytes (cp : N) (rest : string) : string :=
  (if cp <? 128 then String (ascii_of_N cp) rest
   else if cp <? 2048 then
     String (ascii_of_N (192 + cp / 64))
       (String (ascii_of_N (128 + cp mod 64)) rest)
   else if cp <? 65536 then
     String (ascii_of_N (224 + cp / 4096))
       (String (ascii_of_N (128 + (cp / 64) mod 64))
          (String (ascii_of_N (128 + cp mod 64)) rest))
   else
     String (ascii_of_N (240 + cp / 262144))
       (String (ascii_of_N (128 + (cp / 4096) mod 64))
          (String (ascii_of_N (128 + (cp / 64) mod 64))
             (String (ascii_of_N (128 + cp mod 64)) rest))))%N.

Definition high_surrogate (u : N) : bool := ((55296 <=? u) && (u <=? 56319))%N.
Definition low_surrogate (u : N) : bool := ((56320 <=? u) && (u <=? 57343))%N.

(** [Buffer.from(str, 'utf8')], what [fs.writeFile] writes of a string:
    a pair of surrogates is one code point, a lone one is U+FFFD. *)
Fixpoint utf8_encode (str : jsstring) : string :=
  match str with
  | [] => EmptyString
  | u :: str' =>
      if high_surrogate u then
        match str' with
        | v :: str'' =>
            if low_surrogate v
            then utf8_bytes (65536 + (u - 55296) * 1024 + (v - 56320))%N
                            (utf8_encode str'')
            else utf8_bytes replacement (utf8_encode str')
        | [] => utf8_bytes replacement EmptyString
        end
      else if low_surrogate u then utf8_bytes replacement (utf8_encode str')
      else utf8_bytes u (utf8_encode str')
  end.

(** The bytes are well-formed UTF-8. *)
Fixpoint well_formed (s : string) : bool :=
  match s with
  | EmptyString => true
  | String c0 s0 =>
      let b0 := N_of_ascii c0 in
      if (b0 <? 128)%N then well_formed s0
      else if between 194 223 c0 then
        match s0 with
        | String c1 s1 => between 128 191 c1 && well_formed s1
        | EmptyString => false
        end
      else if between 224 239 c0 then
        match s0 with
        | String c1 (String c2 s2) =>
            between (second_min b0) (second_max b0) c1
            && between 128 191 c2 && well_formed s2
        | _ => false
        end
      else if between 240 244 c0 then
        match s0 with
        | String c1 (String c2 (String c3 s3)) =>
            between (second_min b0) (second_max b0) c1
            && between 128 191 c2 && between 128 191 c3 && well_formed s3
        | _ => false
        end
      else false
  end.

Definition is_brace (u : N) : bool := ((u =? 123) || (u =? 125))%N.

(** After an opening pair: [[^{}]+}}].  [seen] tells that the class has
    matched one character already. *)
Fixpoint marker_body (seen : bool) (s : jsstring) : bool :=
  match s with
  | [] => false
  | u :: s' =>
      if is_brace u then
        seen &&
        ((u =? 125)%N &&
         match s' with
         | v :: _ => (v =? 125)%N
         | [] => false
         end)
      else marker_body true s'
  end.

(** [/{{([^{}]+)}}/g.test(str)], on a regular expression that is new at each
    evaluation: a match is tried at each position from the first. *)
Fixpoint has_marker (s : jsstring) : bool :=
  match s with
  | [] => false
  | u :: s' =>
      match s' with
      | v :: s'' =>
          ((u =? 123)%N && (v =? 123)%N && marker_body false s'')
          || has_marker s'
      | [] => false
      end
  end.

(** ** Paths *)

(** The text of a path, as the functions of [path] build it on POSIX. *)
Fixpoint path_string (p : path) : string :=
  match p with
  | [] => EmptyString
  | s :: p' => ("/" ++ s ++ path_string p')%string
  end.

(** A segment of a relative path: a name or [..]. *)
Inductive seg := Up | Name (s : string).

(** [path.relative(from, to)]: drop the common prefix, climb out of what is
    left of [from], go down what is left of [to]. *)
Fixpoint relative (from to : path) : list seg :=
  match from, to with
  | f :: from', t :: to' =>
      if String.eqb f t then relative from' to'
      else map (fun _ => Up) from ++ map Name to
  | _, _ => map (fun _ => Up) from ++ map Name to
  end.

(** [path.join(base, rel)], normalised. *)
Definition join (base : path) (rel : list seg) : path :=
  fold_left (fun acc s =>
               match s with
               | Up => removelast acc
               | Name n => acc ++ [n]
               end) rel base.

(** [path.dirname]. *)
Definition dirname (p : path) : path := removelast p.

(** [p] is [q] or above it. *)
Fixpoint is_prefix (p q : path) : bool :=
  match p, q with
  | [], _ => true
  | s :: p', t :: q' => String.eqb s t && is_prefix p' q'
  | _ :: _, [] => false
  end.

(** Neither directory is the other or inside it. *)
Definition apart (p q : path) : bool :=
  negb (is_prefix p q) && negb (is_prefix q p).

(** ** The disk *)

Inductive node :=
| File (content : string)
| Dir (entries : list (string * node)).

Definition isDirectory (n : node) : bool :=
  match n with Dir _ => true | File _ => false end.

Fixpoint assoc (name : string) (es : list (string * node)) : option node :=
  match es with
  | [] => None
  | (k, v) :: es' => if String.eqb k name then Some v else assoc name es'
  end.

Fixpoint update (name : string) (v' : node) (es : list (string * node))
  : list (string * node) :=
  match es with
  | [] => []
  | (k, v) :: es' =>
      if String.eqb k name then (k, v') :: es'
      else (k, v) :: update name v' es'
  end.

Fixpoint remove_entry (name : string) (es : list (string * node))
  : list (string * node) :=
  match es with
  | [] => []
  | (k, v) :: es' =>
      if String.eqb k name then remove_entry name es'
      else (k, v) :: remove_entry name es'
  end.

(** The node a path leads to. *)
Fixpoint lookup (p : path) (n : node) : option node :=
  match p with
  | [] => Some n
  | s :: p' =>
      match n with
      | File _ => None
      | Dir es =>
          match assoc s es with
          | Some c => lookup p' c
          | None => None
          end
      end
  end.

(** A file is on the way of the path, above its end: the system calls
    answer [ENOTDIR] for such a path. *)
Fixpoint through_file (p : path) (n : node) : bool :=
  match p with
  | [] => false
  | s :: p' =>
      match n with
      | File _ => true
      | Dir es =>
          match assoc s es with
          | Some c => through_file p' c
          | None => false
          end
      end
  end.

(** The error of [lstat] for a path that leads nowhere. *)
Definition missing (p : path) (fs : node) : errno :=
  if through_file p fs then ENOTDIR else ENOENT.

(** [fs.stat]. *)
Definition stat (p : path) (fs : node) : result node :=
  match lookup p fs with
  | Some n => Ok n
  | None => Err (FsError (missing p fs) p)
  end.

(** [fs.readFile(p, 'utf8')]: the bytes of the file, decoded.  [generate]
    reads the files of its queue, which are there: the error of a path
    that leads nowhere is not told apart here. *)
Definition readFile (p : path) (fs : node) : result jsstring :=
  match lookup p fs with
  | Some (File c) => Ok (utf8_decode c)
  | Some (Dir _) => Err (FsError EISDIR p)
  | None => Err (FsError ENOENT p)
  end.

(** The chain of new directories [mkdirp] makes below the last one that
    exists. *)
Fixpoint mkchain (p : path) : node :=
  match p with
  | [] => Dir []
  | s :: p' => Dir [(s, mkchain p')]
  end.

(** [mkdirp] from node [n] down the segments [p]; [full] is the whole path,
    for the error. *)
Fixpoint mkdirp_at (full p : path) (n : node) : result node :=
  match n with
  | File _ =>
      Err (FsError (match p with [] => EEXIST | _ => ENOTDIR end) full)
  | Dir es =>
      match p with
      | [] => Ok n
      | s :: p' =>
          match assoc s es with
          | None => Ok (Dir (es ++ [(s, mkchain p')]))
          | Some c =>
              match mkdirp_at full p' c with
              | Ok c' => Ok (Dir (update s c' es))
              | Err e => Err e
              end
          end
      end
  end.

Definition mkdirp (p : path) (fs : node) : result node := mkdirp_at p p fs.

(** [fs.writeFile] of the bytes [str] from node [n] down the segments [p];
    [excl] is flag ['wx'] (fail when the path exists), else ['w']. *)
Fixpoint writeFile_at (full p : path) (str : string) (excl : bool) (n : node)
  : result node :=
  match p with
  | [] =>
      if excl then Err (FsError EEXIST full)
      else match n with
           | File _ => Ok (File str)
           | Dir _ => Err (FsError EISDIR full)
           end
  | s :: p' =>
      match n with
      | File _ => Err (FsError ENOTDIR full)
      | Dir es =>
          match assoc s es with
          | Some c =>
              match writeFile_at full p' str excl c with
              | Ok c' => Ok (Dir (update s c' es))
              | Err e => Err e
              end
          | None =>
              match p' with
              | [] => Ok (Dir (es ++ [(s, File str)]))
              | _ :: _ => Err (FsError ENOENT full)
              end
          end
      end
  end.

(** [fs.writeFile(p, str, {encoding: 'utf8', flag})]. *)
Definition writeFile (p : path) (str : jsstring) (excl : bool) (fs : node)
  : result node := writeFile_at p p (utf8_encode str) excl fs.

(** What [rimraf] leaves: what the path leads to is removed with all below
    it; a name that is missing is no error. *)
Fixpoint rimraf (p : path) (n : node) : node :=
  match p, n with
  | [], _ => n
  | _, File _ => n
  | [s], Dir es => Dir (remove_entry s es)
  | s :: p', Dir es =>
      match assoc s es with
      | Some c => Dir (update s (rimraf p' c) es)
      | None => n
      end
  end.

(** What a path leads to, without the entries of a directory: nothing, a
    directory ([Some None]) or a file and its content. *)
Definition kind (p : path) (n : node) : option (option string) :=
  match lookup p n with
  | None => None
  | Some (Dir _) => Some None
  | Some (File c) => Some (Some c)
  end.

(** ** Promise chains *)

(** A chain over a state [S]: the state it leaves, and the value it resolves
    to or the error it rejects with. *)
Definition M (S A : Type) : Type := S -> S * result A.

Definition ret {S A} (a : A) : M S A := fun s => (s, Ok a).

Definition throw {S A} (e : error) : M S A := fun s => (s, Err e).

(** [m.then(k)]. *)
Definition bind {S A B} (m : M S A) (k : A -> M S B) : M S B :=
  fun s =>
    match m s with
    | (s', Ok a) => k a s'
    | (s', Err e) => (s', Err e)
    end.

(** [m.catch(h)]. *)
Definition catch {S A} (m : M S A) (h : error -> M S A) : M S A :=
  fun s =>
    match m s with
    | (s', Ok a) => (s', Ok a)
    | (s', Err e) => h e s'
    end.

(** [Promise.all([m1, m2])]: both run, whatever the other does.  When
    both fail the error kept here is that of the first; the code keeps the
    one that comes first in time, and nothing below tells which. *)
Definition both {S A B} (m1 : M S A) (m2 : M S B) : M S (A * B) :=
  fun s =>
    let (s1, r1) := m1 s in
    let (s2, r2) := m2 s1 in
    (s2, match r1, r2 with
         | Ok a, Ok b => Ok (a, b)
         | Err e, _ => Err e
         | Ok _, Err e => Err e
         end).

(** [Promise.all(ms)]: every member runs, here one after the other in the
    order of the array; the whole rejects when a member does, here with
    the error of the first in the array that fails. *)
Fixpoint all {S A} (ms : list (M S A)) : M S (list A) :=
  fun s =>
    match ms with
    | [] => (s, Ok [])
    | m :: ms' =>
        let (s1, r) := m s in
        let (s2, rs) := all ms' s1 in
        (s2, match r, rs with
             | Ok a, Ok l => Ok (a :: l)
             | Err e, _ => Err e
             | Ok _, Err e => Err e
             end)
    end.

Definition mkdirpM (p : path) : M node unit :=
  fun fs => match mkdirp p fs with
            | Ok fs' => (fs', Ok tt)
            | Err e => (fs, Err e)
            end.

Definition writeFileM (p : path) (str : jsstring) (excl : bool)
  : M node unit :=
  fun fs => match writeFile p str excl fs with
            | Ok fs' => (fs', Ok tt)
            | Err e => (fs, Err e)
            end.

Definition readFileM (p : path) : M node jsstring :=
  fun fs => (fs, readFile p fs).

Definition statM (p : path) : M node node :=
  fun fs => (fs, stat p fs).

(** [_.compact]: the [undefined] of a skipped file is dropped. *)
Fixpoint compact {A} (l : list (option A)) : list A :=
  match l with
  | [] => []
  | Some a :: l' => a :: compact l'
  | None :: l' => compact l'
  end.

(** The options object, as the caller gives it: a key may be missing. *)
Record options := {
  o_dest : option path;
  o_offline : option bool;
  o_remote : option string;
  o_branch : option string;
  o_overwrite : option bool
}.

Definition no_options : options :=
  {| o_dest := None; o_offline := None; o_remote := None;
     o_branch := None; o_overwrite := None |}.

Definition default {A} (d : A) (o : option A) : A :=
  match o with Some a => a | None => d end.

(** The data of the templates: the keys of an object and their values. *)
Definition Data := list (jsstring * jsstring).

(** What [download] asks of [rimraf] and of git, in order. *)
Inductive call :=
| Rimraf (p : path)
| Pull (wc : path) (remote branch : string)
| Clone (url : string) (dest : path).

(** The state [download] runs on: the disk, and the calls made so far. *)
Record world := { disk : node; calls : list call }.

(** A chain on the disk, run on the disk of the world. *)
Definition on_disk {A} (m : M node A) : M world A :=
  fun w => let (fs, r) := m (disk w) in
           ({| disk := fs; calls := calls w |}, r).

(** [rimraf(p)], as [download] calls it: a path that leads through a
    file is an error, [ENOTDIR], of [unlink]; any other is removed, or was
    not there. *)
Definition rimrafM (p : path) : M world unit :=
  fun w =>
    if through_file p (disk w)
    then ({| disk := disk w; calls := calls w ++ [Rimraf p] |},
          Err (FsError ENOTDIR p))
    else ({| disk := rimraf p (disk w); calls := calls w ++ [Rimraf p] |},
          Ok tt).

Section Egad.

(** [xdgBasedir.cache || os.tmpdir()]. *)
Variable xdgCachedir : path.
(** [process.cwd()]. *)
Variable cwd : path.
(** [_.kebabCase] of lodash. *)
Variable kebabCase : string -> string.
(** [is-binary-path]. *)
Variable isBinaryPath : path -> bool.
(** [consolidate.handlebars.render]. *)
Variable render : jsstring -> Data -> result jsstring.
(** [git(wc).pull(remote, branch, {'--rebase': 'true'}, cb)]: the disk git
    leaves, and the [err] it gives to the callback. *)
Variable git_pull : path -> string -> string -> node -> node * option string.
(** [git().clone(url, dest, cb)]. *)
Variable git_clone : string -> path -> node -> node * option string.

(** [path.join] of the cache root and of names: an empty name adds
    nothing. *)
Definition join_names (base : path) (names : list string) : path :=
  base ++ filter (fun s => negb (String.eqb s EmptyString)) names.

(** [_.partial(path.join, [xdgCachedir, '.egad-templates'])]. *)
Definition cachedir (names : list string) : path :=
  join_names (join_names xdgCachedir [".egad-templates"]) names.

(** [_.pipe(_.kebabCase, cachedir)]. *)
Definition destPath (url : string) : path := cachedir [kebabCase url].

Definition pullM (wc : path) (remote branch : string) : M world unit :=
  fun w =>
    let (fs, err) := git_pull wc remote branch (disk w) in
    ({| disk := fs; calls := calls w ++ [Pull wc remote branch] |},
     match err with
     | Some msg => Err (GitError msg)
     | None => Ok tt
     end).

Definition cloneM (url : string) (dest : path) : M world unit :=
  fun w =>
    let (fs, err) := git_clone url dest (disk w) in
    ({| disk := fs; calls := calls w ++ [Clone url dest] |},
     match err with
     | Some msg => Err (GitError msg)
     | None => Ok tt
     end).

(** [download(url, opts)]. *)
Definition download (url : string) (opts : options) : M world path :=
  let dest := default (destPath url) (o_dest opts) in
  let offline := default false (o_offline opts) in
  let remote := default "origin" (o_remote opts) in
  let branch := default "master" (o_branch opts) in
  bind
    (catch
       (bind (on_disk (mkdirpM (cachedir []))) (fun _ =>
        bind (on_disk (statM dest)) (fun stats =>
        if negb (isDirectory stats) then throw (FileExistsAt dest)
        else pullM dest remote branch)))
       (fun err =>
          if offline then throw (NoCacheOf url dest)
          else bind (rimrafM dest) (fun _ => cloneM url dest)))
    (fun _ => ret dest).

(** [.filterDir(_.negate(_.endsWith('.git')))], on the text of the path of
    a directory.  For a directory below the root of the walk that text is
    made by [path.join] and ends with the name of the directory; for the
    root it is the text the caller gave, taken here in its normalised
    form. *)
Definition filterDir (entry : path) : bool :=
  negb (endsWith ".git" (path_string entry)).

(** [Walker(entry)], the paths of its ['file'] events: a directory the
    filter refuses is not read; the entries of the others are gone
    through in turn.  The walker gives its events as the answers of
    [lstat] come, in an order that is not fixed: the order of this list
    is one of those it can give. *)
Fixpoint walk (entry : path) (n : node) : list path :=
  match n with
  | File _ => [entry]
  | Dir es =>
      if filterDir entry then
        flat_map (fun e => walk (entry ++ [fst e]) (snd e)) es
      else []
  end.

(** The promise around the walker: the queue of the files that are not
    binary, or the ['error'] of a root that does not exist, which is that
    of [lstat]. *)
Definition Walker (source : path) : M node (list path) :=
  fun fs =>
    match lookup source fs with
    | Some n =>
        (fs, Ok (filter (fun sourceFilepath =>
                           negb (isBinaryPath sourceFilepath))
                        (walk source n)))
    | None => (fs, Err (FsError (missing source fs) source))
    end.

(** The text to write: rendered when it holds a template. *)
Definition render_or_copy (data : Data) (str : jsstring)
  : result jsstring :=
  if has_marker str then render str data else Ok str.

(** What [generate] does with one file of the queue. *)
Definition job (source dest : path) (data : Data) (overwrite : bool)
           (sourceFilepath : path) : M node (option path) :=
  let destFilepath := join dest (relative source sourceFilepath) in
  bind (both
          (bind (readFileM sourceFilepath) (fun str =>
           fun fs => (fs, render_or_copy data str)))
          (mkdirpM (dirname destFilepath)))
       (fun r =>
          catch
            (bind (writeFileM destFilepath (fst r) (negb overwrite))
                  (fun _ => ret (Some destFilepath)))
            (fun err =>
               match err with
               | FsError EEXIST _ => ret None
               | _ => throw err
               end)).

(** [generate(source, dest, data, opts)]. *)
Definition generate (source dest : path) (data : Data) (opts : options)
  : M node (list path) :=
  let overwrite := default true (o_overwrite opts) in
  bind (mkdirpM dest) (fun _ =>
  bind (Walker source) (fun queue =>
  bind (all (map (job source dest data overwrite) queue)) (fun written =>
  ret (compact written)))).

(** [scaffold(url, dest, data, opts)]. *)
Definition scaffold (url : string) (dest : option path) (data : Data)
           (opts : options) : M world (list path) :=
  bind (download url opts) (fun templateDir =>
  on_disk (generate templateDir (default cwd dest) data opts)).

End Egad.

(** ** [_.kebabCase] *)

(** [_.kebabCase] of lodash 4.17, for a text within ASCII: there [deburr]
    changes nothing.  The regular expressions are those of lodash, their
    character classes cut to ASCII; the one of emoji, which has no
    character there, is left out. *)

Definition in_range (lo hi : nat) (c : ascii) : bool :=
  ((lo <=? nat_of_ascii c)%nat && (nat_of_ascii c <=? hi)%nat)%bool.

Definition is_char (n : nat) (c : ascii) : bool := (nat_of_ascii c =? n)%nat.

(** [A-Z], [a-z] and [\d]. *)
Definition rsUpper : ascii -> bool := in_range 65 90.
Definition rsLower : ascii -> bool := in_range 97 122.
Definition rsDigit : ascii -> bool := in_range 48 57.

(** [\x00-\x2f\x3a-\x40\x5b-\x60\x7b-\x7f]: all of ASCII but the letters
    and the digits. *)
Definition rsBreak (c : ascii) : bool :=
  in_range 0 47 c || in_range 58 64 c || in_range 91 96 c
  || in_range 123 127 c.

(** The complement of the breaks, the digits and the letters. *)
Definition rsMisc (c : ascii) : bool :=
  negb (rsBreak c || rsDigit c || rsLower c || rsUpper c).

Definition rsMiscLower (c : ascii) : bool := rsLower c || rsMisc c.
Definition rsMiscUpper (c : ascii) : bool := rsUpper c || rsMisc c.

(** The apostrophe. *)
Definition rsApos : ascii -> bool := is_char 39.

(** [\w]. *)
Definition word_char (c : ascii) : bool :=
  rsUpper c || rsLower c || rsDigit c || is_char 95 c.

(** The regular expressions lodash uses: a class, a text, a sequence, a
    choice, [a?], [[f]+], [[f]*], [(?=a)], [(?!a)], [\b] and [$]. *)
Inductive regexp :=
| RClass (f : ascii -> bool)
| RText (t : string)
| RSeq (a b : regexp)
| RAlt (a b : regexp)
| ROpt (a : regexp)
| RPlus (f : ascii -> bool)
| RStar (f : ascii -> bool)
| RAhead (a : regexp)
| RNotAhead (a : regexp)
| RBoundary
| REnd.

(** A match by backtracking: [prev] is the character before the position,
    [s] the text from the position on, [k] what is left to match. *)
Fixpoint run_text {R} (t : string) (prev : option ascii) (s : string)
         (k : option ascii -> string -> option R) : option R :=
  match t with
  | EmptyString => k prev s
  | String a t' =>
      match s with
      | String c s' => if Ascii.eqb a c then run_text t' (Some c) s' k else None
      | EmptyString => None
      end
  end.

(** [[f]*], the longest run first. *)
Fixpoint run_star {R} (f : ascii -> bool) (prev : option ascii) (s : string)
         (k : option ascii -> string -> option R) : option R :=
  match s with
  | String c s' =>
      if f c then
        match run_star f (Some c) s' k with
        | Some x => Some x
        | None => k prev s
        end
      else k prev s
  | EmptyString => k prev s
  end.

Definition is_word (c : option ascii) : bool :=
  match c with Some c => word_char c | None => false end.

Definition first_char (s : string) : option ascii :=
  match s with String c _ => Some c | EmptyString => None end.

Fixpoint run {R} (r : regexp) (prev : option ascii) (s : string)
         (k : option ascii -> string -> option R) : option R :=
  match r with
  | RClass f =>
      match s with
      | String c s' => if f c then k (Some c) s' else None
      | EmptyString => None
      end
  | RText t => run_text t prev s k
  | RSeq a b => run a prev s (fun p s' => run b p s' k)
  | RAlt a b =>
      match run a prev s k with
      | Some x => Some x
      | None => run b prev s k
      end
  | ROpt a =>
      match run a prev s k with
      | Some x => Some x
      | None => k prev s
      end
  | RPlus f =>
      match s with
      | String c s' => if f c then run_star f (Some c) s' k else None
      | EmptyString => None
      end
  | RStar f => run_star f prev s k
  | RAhead a =>
      match run a prev s (fun _ _ => Some tt) with
      | Some _ => k prev s
      | None => None
      end
  | RNotAhead a =>
      match run a prev s (fun _ _ => Some tt) with
      | Some _ => None
      | None => k prev s
      end
  | RBoundary =>
      if xorb (is_word prev) (is_word (first_char s)) then k prev s else None
  | REnd =>
      match s with
      | EmptyString => k prev s
      | String _ _ => None
      end
  end.

(** [re.test(s)]: a match from some position. *)
Fixpoint regexp_test (r : regexp) (prev : option ascii) (s : string) : bool :=
  match run r prev s (fun _ _ => Some tt) with
  | Some _ => true
  | None =>
      match s with
      | String c s' => regexp_test r (Some c) s'
      | EmptyString => false
      end
  end.

(** [s.match(re)] with flag [g], for an expression that matches no empty
    text: the matches from left to right, each from the end of the one
    before.  [n] bounds the positions tried. *)
Fixpoint matches (n : nat) (r : regexp) (prev : option ascii) (s : string)
  : list string :=
  match n with
  | O => []
  | S n' =>
      match s with
      | EmptyString => []
      | String c s' =>
          match run r prev s (fun p rest => Some (p, rest)) with
          | Some (p, rest) =>
              match String.length s - String.length rest with
              | O => matches n' r (Some c) s'
              | S len => substring 0 (S len) s :: matches n' r p rest
              end
          | None => matches n' r (Some c) s'
          end
      end
  end.

Definition match_all (r : regexp) (s : string) : list string :=
  matches (String.length s) r None s.

(** [/[a-z][A-Z]|[A-Z]{2}[a-z]|[0-9][a-zA-Z]|[a-zA-Z][0-9]|[^a-zA-Z0-9 ]/]. *)
Definition reHasUnicodeWord : regexp :=
  RAlt (RSeq (RClass rsLower) (RClass rsUpper))
  (RAlt (RSeq (RClass rsUpper) (RSeq (RClass rsUpper) (RClass rsLower)))
  (RAlt (RSeq (RClass rsDigit) (RClass (fun c => rsLower c || rsUpper c)))
  (RAlt (RSeq (RClass (fun c => rsLower c || rsUpper c)) (RClass rsDigit))
        (RClass (fun c => negb (rsLower c || rsUpper c || rsDigit c
                                || is_char 32 c)))))).

(** [/[^\x00-\x2f\x3a-\x40\x5b-\x60\x7b-\x7f]+/g]. *)
Definition reAsciiWord : regexp := RPlus (fun c => negb (rsBreak c)).

(** [(?:['](?:d|ll|m|re|s|t|ve))?] and its upper-case form. *)
Definition rsOptContrLower : regexp :=
  ROpt (RSeq (RClass rsApos)
          (RAlt (RText "d") (RAlt (RText "ll") (RAlt (RText "m")
          (RAlt (RText "re") (RAlt (RText "s") (RAlt (RText "t")
                (RText "ve")))))))).

Definition rsOptContrUpper : regexp :=
  ROpt (RSeq (RClass rsApos)
          (RAlt (RText "D") (RAlt (RText "LL") (RAlt (RText "M")
          (RAlt (RText "RE") (RAlt (RText "S") (RAlt (RText "T")
                (RText "VE")))))))).

(** [\d*(?:1ST|2ND|3RD|(?![123])\dTH)(?=\b|[a-z_])] and its lower-case
    form. *)
Definition rsOrdUpper : regexp :=
  RSeq (RStar rsDigit)
  (RSeq (RAlt (RText "1ST") (RAlt (RText "2ND") (RAlt (RText "3RD")
           (RSeq (RNotAhead (RClass (in_range 49 51)))
                 (RSeq (RClass rsDigit) (RText "TH"))))))
        (RAhead (RAlt RBoundary
                      (RClass (fun c => rsLower c || is_char 95 c))))).

Definition rsOrdLower : regexp :=
  RSeq (RStar rsDigit)
  (RSeq (RAlt (RText "1st") (RAlt (RText "2nd") (RAlt (RText "3rd")
           (RSeq (RNotAhead (RClass (in_range 49 51)))
                 (RSeq (RClass rsDigit) (RText "th"))))))
        (RAhead (RAlt RBoundary
                      (RClass (fun c => rsUpper c || is_char 95 c))))).

(** [reUnicodeWord], its alternatives in the order of lodash. *)
Definition reUnicodeWord : regexp :=
  RAlt (RSeq (ROpt (RClass rsUpper))
          (RSeq (RPlus rsLower)
          (RSeq rsOptContrLower
                (RAhead (RAlt (RClass rsBreak) (RAlt (RClass rsUpper) REnd))))))
  (RAlt (RSeq (RPlus rsMiscUpper)
          (RSeq rsOptContrUpper
                (RAhead (RAlt (RClass rsBreak)
                        (RAlt (RSeq (RClass rsUpper) (RClass rsMiscLower))
                              REnd)))))
  (RAlt (RSeq (ROpt (RClass rsUpper)) (RSeq (RPlus rsMiscLower) rsOptContrLower))
  (RAlt (RSeq (RPlus rsUpper) rsOptContrUpper)
  (RAlt rsOrdUpper
  (RAlt rsOrdLower
        (RPlus rsDigit)))))).

(** [string.replace(reApos, '')]. *)
Fixpoint remove_apos (s : string) : string :=
  match s with
  | EmptyString => EmptyString
  | String c s' =>
      if rsApos c then remove_apos s' else String c (remove_apos s')
  end.

(** [words(string)]. *)
Definition words (s : string) : list string :=
  if regexp_test reHasUnicodeWord None s
  then match_all reUnicodeWord s
  else match_all reAsciiWord s.

Fixpoint toLowerCase (s : string) : string :=
  match s with
  | EmptyString => EmptyString
  | String c s' =>
      String (if rsUpper c then ascii_of_nat (nat_of_ascii c + 32) else c)
             (toLowerCase s')
  end.

(** [arrayReduce(words, (result, word, index) =>
    result + (index ? '-' : '') + word.toLowerCase(), '')]. *)
Fixpoint compound (index : nat) (result : string) (ws : list string)
  : string :=
  match ws with
  | [] => result
  | word :: ws' =>
      compound (S index)
               (result ++ (if (index =? 0)%nat then EmptyString else "-")
                       ++ toLowerCase word)%string
               ws'
  end.

Definition lodash_kebabCase (s : string) : string :=
  compound 0 EmptyString (words (remove_apos s)).

(** The text is within ASCII. *)
Fixpoint ascii_text (s : string) : bool :=
  match s with
  | EmptyString => true
  | String c s' => (nat_of_ascii c <? 128)%nat && ascii_text s'
  end.

(** What the proofs about the kebab case are stated with. *)
Fixpoint every (f : ascii -> bool) (s : string) : bool :=
  match s with
  | EmptyString => true
  | String c s' => f c && every f s'
  end.

(** A character of a text within ASCII from which the apostrophes are
    gone. *)
Definition plain (c : ascii) : bool :=
  (nat_of_ascii c <? 128)%nat && negb (rsApos c).

Definition alnum (c : ascii) : bool := rsUpper c || rsLower c || rsDigit c.

(** The classes and the texts of the expression, outside what it looks
    ahead at, take letters and digits only from a plain text. *)
Fixpoint takes_alnum (r : regexp) : Prop :=
  match r with
  | RClass f | RPlus f | RStar f =>
      forall c, plain c = true -> f c = true -> alnum c = true
  | RText t => every alnum t = true
  | RSeq a b | RAlt a b => takes_alnum a /\ takes_alnum b
  | ROpt a => takes_alnum a
  | RAhead _ | RNotAhead _ | RBoundary | REnd => True
  end.

(** ** Predicates of the claims *)

(** A lower-case letter, a digit or a hyphen. *)
Definition slug_char (c : ascii) : bool :=
  let n := nat_of_ascii c in
  ((97 <=? n)%nat && (n <=? 122)%nat)
  || ((48 <=? n)%nat && (n <=? 57)%nat)
  || (n =? 45)%nat.

(** The name is made of such characters only. *)
Fixpoint is_slug (s : string) : bool :=
  match s with
  | EmptyString => true
  | String c s' => slug_char c && is_slug s'
  end.

(** No code unit of the string is a brace. *)
Fixpoint no_brace (s : jsstring) : bool :=
  match s with
  | [] => true
  | u :: s' => negb (is_brace u) && no_brace s'
  end.

(** Every directory on the way from [entry] down [rel], [entry] included
    and the last name of [rel] excluded, passes the filter of the walk. *)
Fixpoint unpruned (entry rel : path) : bool :=
  match rel with
  | [] => true
  | s :: rel' =>
      filterDir entry && unpruned (entry ++ [s]) rel'
  end.

(** ** Instances of the libraries, for the examples *)

(** A classifier by extension, that knows [.png]. *)
Definition png_isBinaryPath (p : path) : bool :=
  endsWith ".png" (path_string p).

Fixpoint units_eqb (a b : jsstring) : bool :=
  match a, b with
  | [], [] => true
  | u :: a', v :: b' => (u =? v)%N && units_eqb a' b'
  | _, _ => false
  end.

Fixpoint data_get (key : jsstring) (data : Data) : jsstring :=
  match data with
  | [] => []
  | (k, v) :: data' => if units_eqb k key then v else data_get key data'
  end.

Inductive render_mode :=
| Text
| Open1
| Key (k : jsstring)
| Close1 (k : jsstring).

(** A renderer of [{{key}}] alone: the value of the key stands for it. *)
Fixpoint subst_keys (data : Data) (m : render_mode) (s : jsstring)
  : jsstring :=
  match s with
  | [] => match m with Open1 => [123%N] | _ => [] end
  | u :: s' =>
      match m with
      | Text =>
          if (u =? 123)%N then subst_keys data Open1 s'
          else u :: subst_keys data Text s'
      | Open1 =>
          if (u =? 123)%N then subst_keys data (Key []) s'
          else 123%N :: u :: subst_keys data Text s'
      | Key k =>
          if (u =? 125)%N then subst_keys data (Close1 k) s'
          else subst_keys data (Key (k ++ [u])) s'
      | Close1 k =>
          if (u =? 125)%N
          then data_get k data ++ subst_keys data Text s'
          else subst_keys data (Key (k ++ [125%N; u])) s'
      end
  end.

Definition keys_render (str : jsstring) (data : Data) : result jsstring :=
  Ok (subst_keys data Text str).

(** A renderer that fails on every template. *)
Definition no_render (str : jsstring) (data : Data) : result jsstring :=
  Err (RenderError "Parse error").

(** A git with no network: [pull] fails and leaves the disk. *)
Definition failing_pull (wc : path) (remote branch : string) (fs : node)
  : node * option string :=
  (fs, Some "Could not read from remote repository").

(** A git whose [clone] makes the directory of the working copy. *)
Definition mkdir_clone (url : string) (dest : path) (fs : node)
  : node * option string :=
  match mkdirp dest fs with
  | Ok fs' => (fs', None)
  | Err _ => (fs, Some "destination path already exists")
  end.

(** [{overwrite: b}]. *)
Definition overwrite_opts (b : bool) : options :=
  {| o_dest := None; o_offline := None; o_remote := None;
     o_branch := None; o_overwrite := Some b |}.

(** [{offline: b}]. *)
Definition offline_opts (b : bool) : options :=
  {| o_dest := None; o_offline := Some b; o_remote := None;
     o_branch := None; o_overwrite := None |}.

(** A disk with a tree of templates. *)
Definition templates_disk : node :=
  Dir [("tpl",
        Dir [("hello.txt", File "Hello {{name}}");
             ("plain.txt", File "no template here");
             ("empty.txt", File "an {{}} expression");
             ("logo.png", File "{{name}}");
             (".git", Dir [("config", File "[core]")]);
             ("lib", Dir [("LICENSE", File "Apache-2.0")])])].

(** [generate] of the tree of templates into [dest], with
    [overwrite: false]. *)
Definition generate_templates (dest : path) (fs : node)
  : node * result (list path) :=
  generate png_isBinaryPath keys_render ["tpl"] dest
           [(js "name", js "World")] (overwrite_opts false) fs.

(** The bytes of [caf\xE9], in ISO 8859-1: the last is no UTF-8. *)
Definition cafe_latin1 : string :=
  ("caf" ++ String (ascii_of_N 233) EmptyString)%string.

(** A disk whose source tree has one file, that is text but not UTF-8. *)
Definition latin1_disk : node :=
  Dir [("tpl", Dir [("menu.txt", File cafe_latin1)])].

(** A disk whose source tree has no file. *)
Definition empty_source_disk : node := Dir [("tpl", Dir [])].

(** A disk where a file is in the place of the working copy. *)
Definition conflict_disk : node :=
  Dir [("cache", Dir [(".egad-templates", Dir [("my-repo", File "not a repo")])])].

(** [download] of [My Repo!] under [/cache], with a git that has no
    network. *)
Definition download_my_repo (offline : bool) (fs : node)
  : world * result path :=
  download ["cache"] lodash_kebabCase failing_pull mkdir_clone "My Repo!"
           (offline_opts offline) {| disk := fs; calls := [] |}.

(** A git that is up to date: [pull] leaves the disk and reports no
    error. *)
Definition noop_pull (wc : path) (remote branch : string) (fs : node)
  : node * option string :=
  (fs, None).

(** A disk where a file of the destination is there already. *)
Definition started_disk : node :=
  Dir [("tpl",
        Dir [("hello.txt", File "Hello {{name}}");
             ("plain.txt", File "no template here")]);
       ("out", Dir [("hello.txt", File "mine")])].

(** A disk whose source tree holds a bare repository, [repo.git]. *)
Definition bare_disk : node :=
  Dir [("tpl",
        Dir [("repo.git", Dir [("HEAD", File "ref: refs/heads/master")]);
             ("README", File "read me")])].


(** A disk whose only file holds an empty expression. *)
Definition braces_disk : node :=
  Dir [("tpl", Dir [("empty.txt", File "an {{}} expression")])].

(** A disk where a file is in the place of the cache directory. *)
Definition blocked_disk : node := Dir [("cache", File "not a directory")].

(** A disk whose source is a file. *)
Definition notes_disk : node := Dir [("notes.txt", File "plain")].

(** A disk with the working copy of [My Repo!] in the cache, and a
    directory to work in. *)
Definition cached_disk : node :=
  Dir [("cache",
        Dir [(".egad-templates",
              Dir [("my-repo",
                    Dir [(".git", Dir [("HEAD", File "ref: refs/heads/master")]);
                         ("hello.txt", File "Hello {{name}}")])])]);
       ("work", Dir [])].

(** [scaffold] of [My Repo!] from [/work], under [/cache], with a git that
    is up to date. *)
Definition scaffold_my_repo (opts : options) (fs : node)
  : world * result (list path) :=
  scaffold ["cache"] ["work"] lodash_kebabCase png_isBinaryPath keys_render
           noop_pull mkdir_clone "My Repo!" None [(js "name", js "World")]
           opts {| disk := fs; calls := [] |}.

(** * Properties *)

(** ** Entries of a directory *)

Lemma assoc_update_same s v es :
  assoc s (update s v es) = match assoc s es with Some _ => Some v | None => None end.
Proof.
  induction es as [|[k w] es IH]; simpl; auto.
  destruct (String.eqb k s) eqn:E; simpl; rewrite E; auto.
Qed.

Lemma assoc_update_other s t v es :
  String.eqb s t = false -> assoc t (update s v es) = assoc t es.
Proof.
  intros Hst. induction es as [|[k w] es IH]; simpl; auto.
  destruct (String.eqb k s) eqn:E; simpl.
  - apply String.eqb_eq in E. subst k. rewrite Hst. reflexivity.
  - destruct (String.eqb k t); auto.
Qed.

Lemma assoc_app_new s t v es :
  assoc s es = None ->
  assoc t (es ++ [(s, v)]) =
  if String.eqb s t then Some v else assoc t es.
Proof.
  intros Hs. induction es as [|[k w] es IH]; simpl in *.
  - reflexivity.
  - destruct (String.eqb k s) eqn:E; [discriminate|].
    destruct (String.eqb k t) eqn:E'.
    + apply String.eqb_eq in E'. subst k. rewrite String.eqb_sym, E.
      reflexivity.
    + auto.
Qed.

Lemma update_same s v es : assoc s es = Some v -> update s v es = es.
Proof.
  induction es as [|[k w] es IH]; simpl; auto.
  destruct (String.eqb k s) eqn:E; intros H.
  - congruence.
  - f_equal. auto.
Qed.

Lemma assoc_In s v es : assoc s es = Some v -> In (s, v) es.
Proof.
  induction es as [|[k w] es IH]; simpl; [discriminate|].
  destruct (String.eqb k s) eqn:E; intros H.
  - apply String.eqb_eq in E. left. congruence.
  - right. auto.
Qed.

(** ** Paths *)

Lemma is_prefix_refl p : is_prefix p p = true.
Proof. induction p; simpl; auto. rewrite String.eqb_refl. auto. Qed.

Lemma is_prefix_app p r : is_prefix p (p ++ r) = true.
Proof. induction p; simpl; auto. rewrite String.eqb_refl. auto. Qed.

Lemma is_prefix_spec p q : is_prefix p q = true <-> exists r, q = p ++ r.
Proof.
  split.
  - revert q. induction p as [|s p IH]; intros q H; simpl in *.
    + exists q. reflexivity.
    + destruct q as [|t q]; [discriminate|].
      apply andb_prop in H. destruct H as [E H].
      apply String.eqb_eq in E. subst t.
      destruct (IH _ H) as [r ->]. exists r. reflexivity.
  - intros [r ->]. apply is_prefix_app.
Qed.

Lemma is_prefix_of_app p q r :
  is_prefix p (q ++ r) = true -> is_prefix p q = true \/ is_prefix q p = true.
Proof.
  revert q. induction p as [|s p IH]; intros q H; simpl in *; auto.
  destruct q as [|t q]; simpl in *; auto.
  apply andb_prop in H. destruct H as [E H]. rewrite E. simpl.
  rewrite String.eqb_sym in E. rewrite E. simpl. auto.
Qed.

Lemma is_prefix_removelast p q :
  is_prefix p (removelast q) = true -> is_prefix p q = true.
Proof.
  revert q. induction p as [|s p IH]; intros q H; simpl in *; auto.
  destruct q as [|t q]; simpl in *; [discriminate|].
  destruct q as [|u q]; [discriminate|].
  apply andb_prop in H. destruct H as [E H]. rewrite E. simpl.
  apply IH. exact H.
Qed.

Lemma is_prefix_length p : forall q,
  is_prefix p q = true -> List.length p <= List.length q.
Proof.
  induction p as [|s p IH]; intros q H; simpl; [lia|].
  destruct q as [|t q]; [discriminate|].
  simpl in H. apply andb_prop in H. destruct H as [_ H].
  apply IH in H. simpl. lia.
Qed.

Lemma is_prefix_dirname d : d <> [] -> is_prefix d (dirname d) = false.
Proof.
  intros Hd. destruct (is_prefix d (dirname d)) eqn:E; auto.
  apply is_prefix_length in E. unfold dirname in E.
  destruct (exists_last Hd) as [d' [x ->]].
  rewrite removelast_last, List.length_app in E. simpl in E. lia.
Qed.

Lemma is_prefix_app_self (p r : path) : is_prefix (p ++ r) p = true -> r = [].
Proof.
  intros H. apply is_prefix_length in H. rewrite List.length_app in H.
  destruct r; auto. simpl in H. lia.
Qed.

Lemma apart_under p q r : apart p q = true -> is_prefix p (q ++ r) = false.
Proof.
  unfold apart. intros H. apply andb_prop in H. destruct H as [H1 H2].
  apply negb_true_iff in H1, H2.
  destruct (is_prefix p (q ++ r)) eqn:E; auto.
  apply is_prefix_of_app in E. destruct E; congruence.
Qed.

Lemma relative_under source rel : relative source (source ++ rel) = map Name rel.
Proof.
  induction source as [|s source IH]; simpl.
  - destruct rel; reflexivity.
  - rewrite String.eqb_refl. exact IH.
Qed.

Lemma join_names_under dest rel : join dest (map Name rel) = dest ++ rel.
Proof.
  unfold join. revert dest. induction rel as [|s rel IH]; intros dest; simpl.
  - symmetry. apply app_nil_r.
  - rewrite IH, <- app_assoc. reflexivity.
Qed.

(** The destination of a file of the source tree: the same relative path
    under [dest]. *)
Lemma destFilepath_under source dest rel :
  join dest (relative source (source ++ rel)) = dest ++ rel.
Proof. rewrite relative_under. apply join_names_under. Qed.

(** ** The disk *)

Lemma lookup_app p q n :
  lookup (p ++ q) n =
  match lookup p n with Some m => lookup q m | None => None end.
Proof.
  revert n. induction p as [|s p IH]; intros n; simpl; auto.
  destruct n as [c|es]; auto.
  destruct (assoc s es); auto.
Qed.

Lemma lookup_mkchain p q m :
  lookup p (mkchain q) = Some m -> is_prefix p q = true /\ isDirectory m = true.
Proof.
  revert q. induction p as [|s p IH]; intros q H; simpl in *.
  - inversion H. subst m. destruct q; auto.
  - destruct q as [|t q]; simpl in *; [discriminate|].
    destruct (String.eqb t s) eqn:E; [|discriminate].
    rewrite String.eqb_sym, E. simpl. auto.
Qed.

Lemma lookup_mkchain_prefix p q :
  is_prefix p q = true -> exists es, lookup p (mkchain q) = Some (Dir es).
Proof.
  revert q. induction p as [|s p IH]; intros q H; simpl in *.
  - destruct q; simpl; eauto.
  - destruct q as [|t q]; [discriminate|].
    apply andb_prop in H. destruct H as [E H]. simpl.
    rewrite String.eqb_sym, E. auto.
Qed.

(** [mkdirp] changes nothing outside the path it makes. *)
Lemma mkdirp_at_frame full q : forall n n' p,
  mkdirp_at full q n = Ok n' ->
  is_prefix p q = false ->
  lookup p n' = lookup p n.
Proof.
  induction q as [|s q IH]; intros n n' p H Hp.
  - destruct n; simpl in H; inversion H; reflexivity.
  - destruct p as [|t p]; [discriminate|].
    destruct n as [c|es]; simpl in H; [discriminate|].
    simpl in Hp. simpl.
    destruct (assoc s es) as [ch|] eqn:Ea.
    + destruct (mkdirp_at full q ch) as [ch'|e] eqn:Em; inversion H; subst n'.
      destruct (String.eqb s t) eqn:E.
      * apply String.eqb_eq in E. subst t.
        rewrite assoc_update_same, Ea. rewrite String.eqb_refl in Hp.
        simpl in *. eauto.
      * rewrite assoc_update_other by exact E. reflexivity.
    + inversion H; subst n'. rewrite (assoc_app_new s t _ es Ea).
      destruct (String.eqb s t) eqn:E; [|reflexivity].
      apply String.eqb_eq in E. subst t. rewrite Ea.
      rewrite String.eqb_refl in Hp. simpl in Hp.
      destruct (lookup p (mkchain q)) eqn:El; auto.
      apply lookup_mkchain in El. destruct El. congruence.
Qed.

(** [writeFile] changes nothing outside the path it writes. *)
Lemma writeFile_at_frame full str excl q : forall n n' p,
  writeFile_at full q str excl n = Ok n' ->
  is_prefix p q = false ->
  lookup p n' = lookup p n.
Proof.
  induction q as [|s q IH]; intros n n' p H Hp.
  - destruct p as [|t p]; [discriminate|]. simpl in H.
    destruct excl; [discriminate|].
    destruct n; inversion H; reflexivity.
  - destruct p as [|t p]; [discriminate|].
    destruct n as [c|es]; simpl in H; [discriminate|].
    simpl in Hp. simpl.
    destruct (assoc s es) as [ch|] eqn:Ea.
    + destruct (writeFile_at full q str excl ch) as [ch'|e] eqn:Em;
        inversion H; subst n'.
      destruct (String.eqb s t) eqn:E.
      * apply String.eqb_eq in E. subst t.
        rewrite assoc_update_same, Ea. rewrite String.eqb_refl in Hp.
        simpl in *. eauto.
      * rewrite assoc_update_other by exact E. reflexivity.
    + destruct q; [|discriminate]. inversion H; subst n'.
      rewrite (assoc_app_new s t _ es Ea).
      destruct (String.eqb s t) eqn:E; [|reflexivity].
      apply String.eqb_eq in E. subst t. rewrite Ea.
      rewrite String.eqb_refl in Hp. simpl in Hp.
      destruct p; [discriminate|reflexivity].
Qed.

(** After [mkdirp], a path that led somewhere leads to the same kind of
    thing; a path that led nowhere leads to a new directory when it is on
    the way, and nowhere otherwise. *)
Lemma mkdirp_at_kind full q : forall n n' p,
  mkdirp_at full q n = Ok n' ->
  kind p n' =
  match kind p n with
  | Some k => Some k
  | None => if is_prefix p q then Some None else None
  end.
Proof.
  unfold kind.
  induction q as [|s q IH]; intros n n' p H.
  - destruct n; simpl in H; inversion H; subst.
    destruct (lookup p (Dir entries)) as [[|]|] eqn:E; auto.
    destruct p; simpl in *; [discriminate|reflexivity].
  - destruct n as [c|es]; simpl in H; [discriminate|].
    destruct p as [|t p].
    + simpl. destruct (assoc s es) as [ch|].
      * destruct (mkdirp_at full q ch); inversion H; reflexivity.
      * inversion H; reflexivity.
    + simpl. rewrite (String.eqb_sym t s).
      destruct (assoc s es) as [ch|] eqn:Ea.
      * destruct (mkdirp_at full q ch) as [ch'|e] eqn:Em; inversion H; subst n'.
        destruct (String.eqb s t) eqn:E; simpl.
        -- apply String.eqb_eq in E. subst t.
           rewrite assoc_update_same, Ea. apply IH. exact Em.
        -- rewrite assoc_update_other by exact E.
           destruct (assoc t es) as [x|]; auto.
           destruct (lookup p x) as [[|]|]; auto.
      * inversion H; subst n'. rewrite (assoc_app_new s t _ es Ea).
        destruct (String.eqb s t) eqn:E; simpl.
        -- apply String.eqb_eq in E. subst t. rewrite Ea.
           destruct (is_prefix p q) eqn:Ep.
           ++ destruct (lookup_mkchain_prefix _ _ Ep) as [es' ->]. reflexivity.
           ++ destruct (lookup p (mkchain q)) eqn:El; auto.
              apply lookup_mkchain in El. destruct El. congruence.
        -- destruct (assoc t es) as [x|]; auto.
           destruct (lookup p x) as [[|]|]; auto.
Qed.

(** After [writeFile], the path written leads to the file. *)
Lemma writeFile_at_written full str excl q : forall n n',
  writeFile_at full q str excl n = Ok n' ->
  lookup q n' = Some (File str).
Proof.
  induction q as [|s q IH]; intros n n' H.
  - simpl in H. destruct excl; [discriminate|].
    destruct n; inversion H; reflexivity.
  - destruct n as [c|es]; simpl in H; [discriminate|].
    simpl. destruct (assoc s es) as [ch|] eqn:Ea.
    + destruct (writeFile_at full q str excl ch) as [ch'|e] eqn:Em;
        inversion H; subst n'.
      simpl. rewrite assoc_update_same, Ea. eauto.
    + destruct q; [|discriminate]. inversion H; subst n'.
      simpl. rewrite (assoc_app_new s s _ es Ea), String.eqb_refl.
      reflexivity.
Qed.

(** After [writeFile], every other path leads to the kind of thing it led
    to. *)
Lemma writeFile_at_kind full str excl q : forall n n' p,
  writeFile_at full q str excl n = Ok n' ->
  p <> q ->
  kind p n' = kind p n.
Proof.
  unfold kind.
  induction q as [|s q IH]; intros n n' p H Hpq.
  - simpl in H. destruct excl; [discriminate|].
    destruct n; inversion H; subst.
    destruct p; [congruence|reflexivity].
  - destruct n as [c|es]; simpl in H; [discriminate|].
    destruct p as [|t p].
    + simpl. destruct (assoc s es) as [ch|].
      * destruct (writeFile_at full q str excl ch); inversion H; reflexivity.
      * destruct q; inversion H; reflexivity.
    + simpl. destruct (assoc s es) as [ch|] eqn:Ea.
      * destruct (writeFile_at full q str excl ch) as [ch'|e] eqn:Em;
          inversion H; subst n'.
        destruct (String.eqb s t) eqn:E.
        -- apply String.eqb_eq in E. subst t.
           rewrite assoc_update_same, Ea. apply (IH _ _ p Em). congruence.
        -- rewrite assoc_update_other by exact E. reflexivity.
      * destruct q; [|discriminate]. inversion H; subst n'.
        rewrite (assoc_app_new s t _ es Ea).
        destruct (String.eqb s t) eqn:E; [|reflexivity].
        apply String.eqb_eq in E. subst t. rewrite Ea.
        destruct p; [congruence|reflexivity].
Qed.

(** [mkdirp] of a directory that exists changes nothing. *)
Lemma mkdirp_at_exists full q : forall n es,
  lookup q n = Some (Dir es) -> isDirectory n = true ->
  mkdirp_at full q n = Ok n.
Proof.
  induction q as [|s q IH]; intros n es H Hd.
  - destruct n; simpl in *; [discriminate|reflexivity].
  - destruct n as [c|es0]; simpl in *; [discriminate|].
    destruct (assoc s es0) as [ch|] eqn:Ea; [|discriminate].
    assert (Hch : isDirectory ch = true).
    { destruct ch; auto. destruct q; simpl in H; discriminate. }
    rewrite (IH _ _ H Hch). rewrite update_same by exact Ea. reflexivity.
Qed.

(** [writeFile] with flag ['wx'] on a path that exists fails with
    [EEXIST]. *)
Lemma writeFile_at_exists full str q : forall n m,
  lookup q n = Some m ->
  writeFile_at full q str true n = Err (FsError EEXIST full).
Proof.
  induction q as [|s q IH]; intros n m H.
  - reflexivity.
  - destruct n as [c|es]; simpl in *; [discriminate|].
    destruct (assoc s es) as [ch|]; [|discriminate].
    rewrite (IH _ _ H). reflexivity.
Qed.

(** What exists below a directory is in a directory. *)
Lemma lookup_dirname q : forall n m,
  lookup q n = Some m -> isDirectory n = true ->
  exists es, lookup (dirname q) n = Some (Dir es).
Proof.
  unfold dirname.
  induction q as [|s q IH]; intros n m H Hd.
  - destruct n; [discriminate|]. simpl. eauto.
  - destruct n as [c|es]; [discriminate|].
    destruct q as [|t q].
    + simpl. eauto.
    + change (removelast (s :: t :: q)) with (s :: removelast (t :: q)).
      simpl in H. simpl lookup at 1.
      destruct (assoc s es) as [ch|]; [|discriminate].
      apply (IH ch m H).
      destruct ch; auto. simpl in H. discriminate.
Qed.

(** Induction on a tree: a property of the entries of a directory gives it
    for the directory. *)
Lemma node_tree_ind (P : node -> Prop) :
  (forall c, P (File c)) ->
  (forall es, Forall (fun e => P (snd e)) es -> P (Dir es)) ->
  forall n, P n.
Proof.
  intros HF HD.
  fix IH 1. intros [c|es].
  - apply HF.
  - apply HD. induction es as [|[k v] es IHes]; constructor.
    + apply IH.
    + exact IHes.
Qed.

(** ** The walk *)

(** Every file the walk emits is below the root, and every directory on the
    way to it, the root included, passed the filter. *)
Lemma walk_sound n : forall entry p,
  In p (walk entry n) ->
  exists rel, p = entry ++ rel /\
    forall pre x post, rel = pre ++ x :: post -> filterDir (entry ++ pre) = true.
Proof.
  induction n as [c|es IH] using node_tree_ind; intros entry p Hin.
  - simpl in Hin. destruct Hin as [<-|[]]. exists []. split.
    + symmetry. apply app_nil_r.
    + intros [|? ?] x post H; discriminate.
  - simpl in Hin. destruct (filterDir entry) eqn:Ef; [|contradiction].
    apply in_flat_map in Hin. destruct Hin as [e [He Hin]].
    rewrite Forall_forall in IH.
    destruct (IH e He _ _ Hin) as [rel [-> Hrel]].
    exists (fst e :: rel). split.
    + rewrite <- app_assoc. reflexivity.
    + intros [|y pre] x post H.
      * rewrite app_nil_r. exact Ef.
      * inversion H. subst. specialize (Hrel pre x post eq_refl).
        rewrite <- app_assoc in Hrel. exact Hrel.
Qed.

(** A file is emitted when every directory on the way to it passes the
    filter. *)
Lemma walk_complete rel : forall n entry c,
  lookup rel n = Some (File c) ->
  (forall pre x post, rel = pre ++ x :: post -> filterDir (entry ++ pre) = true) ->
  In (entry ++ rel) (walk entry n).
Proof.
  induction rel as [|s rel IH]; intros n entry c Hl Hf.
  - simpl in Hl. inversion Hl. subst n. rewrite app_nil_r. simpl. auto.
  - destruct n as [c0|es]; simpl in Hl; [discriminate|].
    destruct (assoc s es) as [ch|] eqn:Ea; [|discriminate].
    pose proof (Hf [] s rel eq_refl) as Hroot. rewrite app_nil_r in Hroot.
    cbn [walk]. rewrite Hroot.
    apply in_flat_map. exists (s, ch). split.
    + apply assoc_In. exact Ea.
    + simpl. replace (entry ++ s :: rel) with ((entry ++ [s]) ++ rel)
        by (rewrite <- app_assoc; reflexivity).
      apply (IH ch (entry ++ [s]) c Hl).
      intros pre x post H. rewrite <- app_assoc. simpl.
      apply (Hf (s :: pre) x post). rewrite H. reflexivity.
Qed.

Lemma unpruned_filter rel : forall entry,
  unpruned entry rel = true ->
  forall pre x post, rel = pre ++ x :: post -> filterDir (entry ++ pre) = true.
Proof.
  induction rel as [|s rel IH]; intros entry H pre x post E.
  - destruct pre; discriminate.
  - simpl in H. apply andb_prop in H. destruct H as [H0 H].
    destruct pre as [|y pre]; inversion E; subst.
    + rewrite app_nil_r. exact H0.
    + specialize (IH _ H pre x post eq_refl).
      rewrite <- app_assoc in IH. exact IH.
Qed.

(** ** One file of the queue *)

Section Jobs.

Variable render : jsstring -> Data -> result jsstring.
Variables source dest : path.
Variable data : Data.

(** The chain of [job], step by step, for a file below the source. *)
Lemma job_under overwrite rel fs :
  job render source dest data overwrite (source ++ rel) fs =
  let text := rbind (readFile (source ++ rel) fs) (render_or_copy render data) in
  match mkdirp (dirname (dest ++ rel)) fs with
  | Err e => (fs, Err match text with Err e1 => e1 | Ok _ => e end)
  | Ok fs1 =>
      match text with
      | Err e => (fs1, Err e)
      | Ok str =>
          match writeFile (dest ++ rel) str (negb overwrite) fs1 with
          | Ok fs2 => (fs2, Ok (Some (dest ++ rel)))
          | Err (FsError EEXIST q) => (fs1, Ok None)
          | Err e => (fs1, Err e)
          end
      end
  end.
Proof.
  unfold job, bind, both, catch, readFileM, mkdirpM, writeFileM, ret, throw.
  rewrite destFilepath_under. cbv zeta.
  destruct (readFile (source ++ rel) fs) as [c|e]; simpl.
  - destruct (render_or_copy render data c) as [str|e]; simpl.
    + destruct (mkdirp (dirname (dest ++ rel)) fs) as [fs1|e]; simpl; auto.
      destruct (writeFile (dest ++ rel) str (negb overwrite) fs1)
        as [fs2|[[]| | | |]]; reflexivity.
    + destruct (mkdirp (dirname (dest ++ rel)) fs); reflexivity.
  - destruct (mkdirp (dirname (dest ++ rel)) fs); reflexivity.
Qed.

(** The disk a job leaves: the one it found, after [mkdirp] if it
    succeeded, after [writeFile] if that succeeded too. *)
Lemma job_steps overwrite rel fs fs' r :
  job render source dest data overwrite (source ++ rel) fs = (fs', r) ->
  exists fs1,
    (fs1 = fs \/ mkdirp (dirname (dest ++ rel)) fs = Ok fs1) /\
    ((fs' = fs1 /\ r <> Ok (Some (dest ++ rel))) \/
     (r = Ok (Some (dest ++ rel)) /\
      exists str, writeFile (dest ++ rel) str (negb overwrite) fs1 = Ok fs')).
Proof.
  rewrite job_under. cbv zeta.
  destruct (mkdirp (dirname (dest ++ rel)) fs) as [fs1|e] eqn:Em.
  - destruct (rbind _ _) as [str|e].
    + destruct (writeFile (dest ++ rel) str (negb overwrite) fs1)
        as [fs2|e] eqn:Ew.
      * intros H. inversion H. subst. exists fs1. split; auto.
        right. split; eauto.
      * intros H. exists fs1. split; auto. left.
        destruct e as [[]| | | |]; inversion H; subst; split; auto;
          discriminate.
    + intros H. inversion H. subst. exists fs'. split; auto.
      left. split; auto. discriminate.
  - intros H. inversion H. subst. exists fs'. split; auto.
    left. split; auto. discriminate.
Qed.

(** A job changes nothing outside the destination of its file. *)
Lemma job_frame overwrite rel fs fs' r p :
  job render source dest data overwrite (source ++ rel) fs = (fs', r) ->
  is_prefix p (dest ++ rel) = false ->
  lookup p fs' = lookup p fs.
Proof.
  intros H Hp. apply job_steps in H.
  destruct H as [fs1 [H1 H2]].
  assert (E1 : lookup p fs1 = lookup p fs).
  { destruct H1 as [->|H1]; auto.
    apply (mkdirp_at_frame _ _ _ _ _ H1).
    destruct (is_prefix p (dirname (dest ++ rel))) eqn:E; auto.
    apply is_prefix_removelast in E. congruence. }
  destruct H2 as [[-> _]|[_ [str Hw]]]; auto.
  rewrite <- E1. apply (writeFile_at_frame _ _ _ _ _ _ _ Hw Hp).
Qed.

(** A job leaves what exists of the kind it was, but for the file it
    writes. *)
Lemma job_kind overwrite rel fs fs' r p k :
  job render source dest data overwrite (source ++ rel) fs = (fs', r) ->
  kind p fs = Some k ->
  kind p fs' = Some k \/ (p = dest ++ rel /\ r = Ok (Some (dest ++ rel))).
Proof.
  intros H Hk. apply job_steps in H.
  destruct H as [fs1 [H1 H2]].
  assert (E1 : kind p fs1 = Some k).
  { destruct H1 as [->|H1]; auto.
    rewrite (mkdirp_at_kind _ _ _ _ p H1), Hk. reflexivity. }
  destruct H2 as [[-> _]|[-> [str Hw]]]; auto.
  destruct (list_eq_dec string_dec p (dest ++ rel)) as [->|Hne]; auto.
  left. rewrite (writeFile_at_kind _ _ _ _ _ _ p Hw Hne). exact E1.
Qed.

(** A job makes no file but the one it writes. *)
Lemma job_new_file overwrite rel fs fs' r p c :
  job render source dest data overwrite (source ++ rel) fs = (fs', r) ->
  kind p fs' = Some (Some c) ->
  kind p fs = Some (Some c) \/ (p = dest ++ rel /\ r = Ok (Some (dest ++ rel))).
Proof.
  intros H Hk. apply job_steps in H.
  destruct H as [fs1 [H1 H2]].
  assert (E1 : kind p fs1 = Some (Some c) -> kind p fs = Some (Some c)).
  { destruct H1 as [->|H1]; auto.
    rewrite (mkdirp_at_kind _ _ _ _ p H1).
    destruct (kind p fs); auto.
    destruct (is_prefix p (dirname (dest ++ rel))); discriminate. }
  destruct H2 as [[-> _]|[-> [str Hw]]]; auto.
  destruct (list_eq_dec string_dec p (dest ++ rel)) as [->|Hne]; auto.
  left. apply E1. rewrite <- (writeFile_at_kind _ _ _ _ _ _ p Hw Hne).
  exact Hk.
Qed.

End Jobs.

(** [writeFile] never replaces a directory. *)
Lemma writeFile_at_not_dir full str excl q : forall n n',
  writeFile_at full q str excl n = Ok n' -> kind q n <> Some None.
Proof.
  unfold kind.
  induction q as [|s q IH]; intros n n' H.
  - simpl in *. destruct excl; [discriminate|].
    destruct n; [intro; discriminate|discriminate].
  - destruct n as [c|es]; simpl in *; [discriminate|].
    destruct (assoc s es) as [ch|]; [|intro; discriminate].
    destruct (writeFile_at full q str excl ch) as [ch'|] eqn:E; [|discriminate].
    eapply IH. exact E.
Qed.

(** [writeFile] fails with [EEXIST] on a path that exists only. *)
Lemma writeFile_at_EEXIST full str excl q : forall n x,
  writeFile_at full q str excl n = Err (FsError EEXIST x) ->
  exists m, lookup q n = Some m.
Proof.
  induction q as [|s q IH]; intros n x H.
  - simpl. eauto.
  - destruct n as [c|es]; simpl in *; [discriminate|].
    destruct (assoc s es) as [ch|].
    + destruct (writeFile_at full q str excl ch) as [ch'|e] eqn:E;
        [discriminate|].
      inversion H. subst e. eapply IH. exact E.
    + destruct q; discriminate.
Qed.

Lemma mkdirp_at_root_dir full q n n' :
  mkdirp_at full q n = Ok n' -> isDirectory n = true /\ isDirectory n' = true.
Proof.
  destruct q as [|s q]; destruct n as [c|es]; simpl; try discriminate.
  - intros H. inversion H. auto.
  - destruct (assoc s es) as [ch|].
    + destruct (mkdirp_at full q ch); intros H; inversion H; auto.
    + intros H; inversion H; auto.
Qed.

Lemma mkdirp_at_made full q : forall n n',
  mkdirp_at full q n = Ok n' -> kind q n' = Some None.
Proof.
  intros n n' H. rewrite (mkdirp_at_kind _ _ _ _ q H), is_prefix_refl.
  destruct (kind q n) as [[c|]|] eqn:E; auto.
  exfalso. revert n n' H E. unfold kind.
  induction q as [|s q IH]; intros n n' H E.
  - destruct n; simpl in *; discriminate.
  - destruct n as [c0|es]; simpl in *; [discriminate|].
    destruct (assoc s es) as [ch|]; [|discriminate].
    destruct (mkdirp_at full q ch) as [ch'|] eqn:Em; [|discriminate].
    eapply IH; eauto.
Qed.

Lemma through_file_found p : forall n m,
  lookup p n = Some m -> through_file p n = false.
Proof.
  induction p as [|s p IH]; intros n m H; [reflexivity|].
  destruct n as [c|es]; [discriminate|]. simpl in *.
  destruct (assoc s es) as [ch|]; [eauto|discriminate].
Qed.

Lemma kind_root_dir n : isDirectory n = true <-> kind [] n = Some None.
Proof. unfold kind. destruct n; simpl; split; congruence. Qed.

Lemma readFile_under source rel fs fs' :
  lookup source fs = lookup source fs' ->
  readFile (source ++ rel) fs = readFile (source ++ rel) fs'.
Proof. unfold readFile. rewrite !lookup_app. intros ->. reflexivity. Qed.

(** ** The whole queue *)

Lemma all_cons_inv {S A} (m : M S A) ms s s2 r :
  all (m :: ms) s = (s2, r) ->
  exists s1 r1 r2, m s = (s1, r1) /\ all ms s1 = (s2, r2) /\
    r = match r1, r2 with
        | Ok a, Ok l => Ok (a :: l)
        | Err e, _ => Err e
        | Ok _, Err e => Err e
        end.
Proof.
  cbn [all]. destruct (m s) as [s1 r1] eqn:E1.
  destruct (all ms s1) as [s2' r2] eqn:E2.
  intros H. inversion H. subst. exists s1, r1, r2. repeat split. exact E2.
Qed.

Lemma all_cons_ok {S A} (m : M S A) ms s s2 l :
  all (m :: ms) s = (s2, Ok l) ->
  exists s1 a l', m s = (s1, Ok a) /\ all ms s1 = (s2, Ok l') /\ l = a :: l'.
Proof.
  intros H. apply all_cons_inv in H.
  destruct H as [s1 [r1 [r2 [H1 [H2 H3]]]]].
  destruct r1 as [a|e]; [|discriminate].
  destruct r2 as [l'|e]; [|discriminate].
  inversion H3. exists s1, a, l'. repeat split; assumption.
Qed.

Lemma under_source (source : path) queue :
  (forall p, In p queue -> exists rel, p = source ++ rel) ->
  exists rels, queue = map (app source) rels.
Proof.
  induction queue as [|p queue IH]; intros H.
  - exists []. reflexivity.
  - destruct (H p (or_introl eq_refl)) as [rel ->].
    destruct IH as [rels ->]. { intros q Hq. apply H. right. exact Hq. }
    exists (rel :: rels). reflexivity.
Qed.

(** Flag ['w'] never fails with [EEXIST]. *)
Lemma writeFile_at_w full str q : forall n x,
  writeFile_at full q str false n <> Err (FsError EEXIST x).
Proof.
  induction q as [|s q IH]; intros n x H.
  - simpl in H. destruct n; discriminate.
  - destruct n as [c|es]; simpl in H; [discriminate|].
    destruct (assoc s es) as [ch|].
    + destruct (writeFile_at full q str false ch) as [ch'|e] eqn:E;
        [discriminate|].
      inversion H. subst e. exact (IH _ _ E).
    + destruct q; discriminate.
Qed.

Lemma kind_exists p n : (exists m, lookup p n = Some m) <-> (exists k, kind p n = Some k).
Proof.
  unfold kind. split.
  - intros [m ->]. destruct m; eauto.
  - intros [k H]. destruct (lookup p n); [eauto|discriminate].
Qed.

Lemma kind_file p n c : kind p n = Some (Some c) <-> lookup p n = Some (File c).
Proof.
  unfold kind. destruct (lookup p n) as [[|]|]; split; congruence.
Qed.

Section Queue.

Variable render : jsstring -> Data -> result jsstring.
Variables source dest : path.
Variable data : Data.

Local Abbreviation J ow := (job render source dest data ow).
Local Abbreviation text fs rel :=
  (rbind (readFile (source ++ rel) fs) (render_or_copy render data)).
Local Abbreviation jobs ow rels := (map (J ow) (map (app source) rels)).

(** A job that succeeds: the text was read and rendered, the directory
    made, and the file written, or left as it was when it exists and the
    flag is ['wx']. *)
Lemma job_ok overwrite rel fs fs' o :
  J overwrite (source ++ rel) fs = (fs', Ok o) ->
  exists str fs1,
    text fs rel = Ok str /\
    mkdirp (dirname (dest ++ rel)) fs = Ok fs1 /\
    ((o = Some (dest ++ rel) /\
      writeFile (dest ++ rel) str (negb overwrite) fs1 = Ok fs') \/
     (o = None /\ fs' = fs1 /\ overwrite = false /\
      exists m, lookup (dest ++ rel) fs1 = Some m)).
Proof.
  rewrite job_under. cbv zeta.
  destruct (mkdirp (dirname (dest ++ rel)) fs) as [fs1|e] eqn:Em;
    [|discriminate].
  destruct (text fs rel) as [str|e]; [|discriminate].
  destruct (writeFile (dest ++ rel) str (negb overwrite) fs1)
    as [fs2|e] eqn:Ew.
  - intros H. inversion H. subst. exists str, fs1. auto.
  - destruct e as [[] q| | | |]; try discriminate.
    intros H. inversion H. subst. exists str, fs'. repeat split; auto.
    right. repeat split.
    + destruct overwrite; auto. exfalso.
      exact (writeFile_at_w _ _ _ _ _ Ew).
    + exact (writeFile_at_EEXIST _ _ _ _ _ _ Ew).
Qed.

Lemma job_ok_exists overwrite rel fs fs' o :
  J overwrite (source ++ rel) fs = (fs', Ok o) ->
  exists k, kind (dest ++ rel) fs' = Some k.
Proof.
  intros H. apply job_ok in H.
  destruct H as [str [fs1 [_ [_ [[_ Hw]|[_ [-> [_ Hm]]]]]]]].
  - exists (Some (utf8_encode str)). apply kind_file.
    exact (writeFile_at_written _ _ _ _ _ _ Hw).
  - apply kind_exists. exact Hm.
Qed.

Lemma job_ok_written rel fs fs' o :
  J true (source ++ rel) fs = (fs', Ok o) ->
  exists str, text fs rel = Ok str /\
    kind (dest ++ rel) fs' = Some (Some (utf8_encode str)) /\
    o = Some (dest ++ rel).
Proof.
  intros H. apply job_ok in H.
  destruct H as [str [fs1 [Ht [_ [[-> Hw]|[_ [_ [Hf _]]]]]]]];
    [|discriminate].
  exists str. repeat split; auto. apply kind_file.
  exact (writeFile_at_written _ _ _ _ _ _ Hw).
Qed.

Lemma job_dir_stays overwrite rel fs fs' r p :
  J overwrite (source ++ rel) fs = (fs', r) ->
  kind p fs = Some None -> kind p fs' = Some None.
Proof.
  intros H Hk. apply job_steps in H. destruct H as [fs1 [H1 H2]].
  assert (E1 : kind p fs1 = Some None).
  { destruct H1 as [->|H1]; auto.
    rewrite (mkdirp_at_kind _ _ _ _ p H1), Hk. reflexivity. }
  destruct H2 as [[-> _]|[_ [str Hw]]]; auto.
  destruct (list_eq_dec string_dec p (dest ++ rel)) as [->|Hne].
  - exfalso. exact (writeFile_at_not_dir _ _ _ _ _ _ Hw E1).
  - rewrite (writeFile_at_kind _ _ _ _ _ _ p Hw Hne). exact E1.
Qed.

Lemma job_exists_stays overwrite rel fs fs' r p k :
  J overwrite (source ++ rel) fs = (fs', r) ->
  kind p fs = Some k -> exists k', kind p fs' = Some k'.
Proof.
  intros H Hk. destruct (job_kind _ _ _ _ _ _ _ _ _ _ _ H Hk) as [E|[-> ->]].
  - eauto.
  - apply job_ok_exists in H. exact H.
Qed.

Lemma all_frame overwrite p : forall rels fs fs' r,
  all (jobs overwrite rels) fs = (fs', r) ->
  (forall rel, In rel rels -> is_prefix p (dest ++ rel) = false) ->
  lookup p fs' = lookup p fs.
Proof.
  induction rels as [|rel rels IH]; intros fs fs' r H Hp.
  - inversion H. reflexivity.
  - apply all_cons_inv in H. destruct H as [s1 [r1 [r2 [H1 [H2 _]]]]].
    rewrite (IH _ _ _ H2) by (intros; apply Hp; right; assumption).
    apply (job_frame _ _ _ _ _ _ _ _ _ _ H1). apply Hp. left. reflexivity.
Qed.

Lemma all_dir_stays overwrite p : forall rels fs fs' r,
  all (jobs overwrite rels) fs = (fs', r) ->
  kind p fs = Some None -> kind p fs' = Some None.
Proof.
  induction rels as [|rel rels IH]; intros fs fs' r H Hk.
  - inversion H. subst. exact Hk.
  - apply all_cons_inv in H. destruct H as [s1 [r1 [r2 [H1 [H2 _]]]]].
    apply (IH _ _ _ H2). apply (job_dir_stays _ _ _ _ _ _ H1 Hk).
Qed.

Lemma all_exists_stays overwrite p : forall rels fs fs' r k,
  all (jobs overwrite rels) fs = (fs', r) ->
  kind p fs = Some k -> exists k', kind p fs' = Some k'.
Proof.
  induction rels as [|rel rels IH]; intros fs fs' r k H Hk.
  - inversion H. subst. eauto.
  - apply all_cons_inv in H. destruct H as [s1 [r1 [r2 [H1 [H2 _]]]]].
    destruct (job_exists_stays _ _ _ _ _ _ _ H1 Hk) as [k' Hk'].
    apply (IH _ _ _ _ H2 Hk').
Qed.

(** The queue makes no file but at the destinations of its files. *)
Lemma all_new_file overwrite p c : forall rels fs fs' r,
  all (jobs overwrite rels) fs = (fs', r) ->
  kind p fs' = Some (Some c) ->
  kind p fs = Some (Some c) \/ exists rel, In rel rels /\ p = dest ++ rel.
Proof.
  induction rels as [|rel rels IH]; intros fs fs' r H Hk.
  - inversion H. subst. auto.
  - apply all_cons_inv in H. destruct H as [s1 [r1 [r2 [H1 [H2 _]]]]].
    destruct (IH _ _ _ H2 Hk) as [Hk1|[rel' [Hin ->]]].
    + destruct (job_new_file _ _ _ _ _ _ _ _ _ _ _ H1 Hk1) as [E|[-> _]];
        auto.
      right. exists rel. split; auto. left. reflexivity.
    + right. exists rel'. split; auto. right. exact Hin.
Qed.

(** The paths the queue resolves to are destinations of its files. *)
Lemma all_written overwrite p : forall rels fs fs' written,
  all (jobs overwrite rels) fs = (fs', Ok written) ->
  In p (compact written) ->
  exists rel, In rel rels /\ p = dest ++ rel.
Proof.
  induction rels as [|rel rels IH]; intros fs fs' written H Hin.
  - inversion H. subst. contradiction.
  - apply all_cons_ok in H. destruct H as [s1 [o [l' [H1 [H2 ->]]]]].
    assert (Hrest : In p (compact l') ->
                    exists rel0, In rel0 (rel :: rels) /\ p = dest ++ rel0).
    { intros Hl. destruct (IH _ _ _ H2 Hl) as [rel' [Hr ->]].
      exists rel'. split; auto. right. exact Hr. }
    destruct o as [y|]; simpl in Hin; auto.
    destruct Hin as [<-|Hin]; auto.
    apply job_ok in H1.
    destruct H1 as [_ [_ [_ [_ [[Ho _]|[Ho _]]]]]]; inversion Ho.
    exists rel. split; auto. left. reflexivity.
Qed.

End Queue.

(** ** Strings *)

Lemma length_append (a b : string) :
  String.length (a ++ b) = String.length a + String.length b.
Proof. induction a; simpl; auto. Qed.

Lemma substring_all (t : string) : substring 0 (String.length t) t = t.
Proof. induction t; simpl; congruence. Qed.

Lemma substring_append (a t : string) :
  substring (String.length a) (String.length t) (a ++ t) = t.
Proof. induction a; simpl; auto. apply substring_all. Qed.

Lemma endsWith_append (t a : string) : endsWith t (a ++ t) = true.
Proof.
  unfold endsWith. rewrite length_append.
  replace (String.length t <=? String.length a + String.length t)%nat with true
    by (symmetry; apply Nat.leb_le; lia).
  replace (String.length a + String.length t - String.length t)
    with (String.length a) by lia.
  rewrite substring_append. apply String.eqb_refl.
Qed.

Lemma append_assoc (a b c : string) : ((a ++ b) ++ c = a ++ (b ++ c))%string.
Proof. induction a; simpl; congruence. Qed.

Lemma path_string_app p q :
  path_string (p ++ q) = (path_string p ++ path_string q)%string.
Proof.
  induction p as [|s p IH]; simpl; auto.
  rewrite IH, append_assoc. reflexivity.
Qed.

(** The filter refuses a directory named [.git], wherever it is. *)
Lemma filterDir_git p : filterDir (p ++ [".git"]) = false.
Proof.
  unfold filterDir. rewrite path_string_app.
  change (path_string [".git"]) with ("/" ++ ".git")%string.
  rewrite <- append_assoc, endsWith_append. reflexivity.
Qed.

(** No file below a directory named [.git] is emitted. *)
Lemma walk_no_git source n pre post :
  post <> [] -> ~ In (source ++ pre ++ ".git" :: post) (walk source n).
Proof.
  intros Hpost Hin. apply walk_sound in Hin.
  destruct Hin as [rel [E Hrel]]. apply app_inv_head in E. subst rel.
  destruct post as [|y post]; [congruence|].
  specialize (Hrel (pre ++ [".git"]) y post).
  rewrite <- app_assoc in Hrel. specialize (Hrel eq_refl).
  rewrite app_assoc, filterDir_git in Hrel. discriminate.
Qed.

(** ** [generate] *)

Section Generate.

Variable isBinaryPath : path -> bool.
Variable render : jsstring -> Data -> result jsstring.
Variables source dest : path.
Variable data : Data.

Local Abbreviation jobs ow rels :=
  (map (job render source dest data ow) (map (app source) rels)).

(** The queue, as paths relative to the source. *)
Lemma queue_rels n :
  exists rels,
    filter (fun p => negb (isBinaryPath p)) (walk source n)
    = map (app source) rels /\
    forall rel, In rel rels <->
      In (source ++ rel) (walk source n) /\
      isBinaryPath (source ++ rel) = false.
Proof.
  destruct (under_source source
              (filter (fun p => negb (isBinaryPath p)) (walk source n)))
    as [rels E].
  - intros p Hp. apply filter_In in Hp. destruct Hp as [Hp _].
    apply walk_sound in Hp. destruct Hp as [rel [-> _]]. eauto.
  - exists rels. split; auto. intros rel.
    rewrite <- negb_true_iff.
    rewrite <- (filter_In (fun p => negb (isBinaryPath p))). rewrite E.
    rewrite in_map_iff. split.
    + intros H. exists rel. auto.
    + intros [rel' [H Hin]]. apply app_inv_head in H. subst. exact Hin.
Qed.

(** The steps of [generate]. *)
Lemma generate_steps opts fs fs' r :
  generate isBinaryPath render source dest data opts fs = (fs', r) ->
  (exists e, mkdirp dest fs = Err e /\ fs' = fs /\ r = Err e) \/
  exists fs1, mkdirp dest fs = Ok fs1 /\
    ((lookup source fs1 = None /\ fs' = fs1 /\
      r = Err (FsError (missing source fs1) source)) \/
     exists n rels r2,
       lookup source fs1 = Some n /\
       (forall rel, In rel rels <->
          In (source ++ rel) (walk source n) /\
          isBinaryPath (source ++ rel) = false) /\
       all (jobs (default true (o_overwrite opts)) rels) fs1 = (fs', r2) /\
       r = match r2 with
           | Ok written => Ok (compact written)
           | Err e => Err e
           end).
Proof.
  unfold generate, bind, mkdirpM, Walker, ret.
  destruct (mkdirp dest fs) as [fs1|e] eqn:Em.
  - intros H. right. exists fs1. split; auto.
    destruct (lookup source fs1) as [n|] eqn:El.
    + right. destruct (queue_rels n) as [rels [E Hrels]].
      rewrite E in H.
      destruct (all (jobs (default true (o_overwrite opts)) rels) fs1)
        as [fs2 r2] eqn:Ea.
      exists n, rels, r2.
      destruct r2; inversion H; subst; auto.
    + left. inversion H. auto.
  - intros H. inversion H. left. eauto.
Qed.

End Generate.

Section Outcome.

Variable render : jsstring -> Data -> result jsstring.
Variables source dest : path.
Variable data : Data.

Local Abbreviation J ow := (job render source dest data ow).
Local Abbreviation text fs rel :=
  (rbind (readFile (source ++ rel) fs) (render_or_copy render data)).
Local Abbreviation jobs ow rels := (map (J ow) (map (app source) rels)).

(** When the queue succeeds and writes nothing into the source, the text of
    each of its files could be read and rendered, and the destination of
    each exists at the end. *)
Lemma all_done overwrite : forall rels fs fs' written,
  all (jobs overwrite rels) fs = (fs', Ok written) ->
  (forall rel, In rel rels -> is_prefix source (dest ++ rel) = false) ->
  forall rel, In rel rels ->
    (exists str, text fs rel = Ok str) /\
    (exists k, kind (dest ++ rel) fs' = Some k).
Proof.
  induction rels as [|rel0 rels IH]; intros fs fs' written H Hp rel Hin.
  - contradiction.
  - apply all_cons_ok in H. destruct H as [s1 [o [l' [H1 [H2 ->]]]]].
    destruct Hin as [->|Hin].
    + split.
      * apply job_ok in H1. destruct H1 as [str [_ [Ht _]]]. eauto.
      * apply job_ok_exists in H1. destruct H1 as [k Hk].
        eapply all_exists_stays; [exact H2|exact Hk].
    + assert (Hp' : forall r, In r rels -> is_prefix source (dest ++ r) = false)
        by (intros; apply Hp; right; assumption).
      destruct (IH _ _ _ H2 Hp' rel Hin) as [Ht Hk]. split; auto.
      rewrite (readFile_under source rel fs s1); auto.
      symmetry. apply (job_frame _ _ _ _ _ _ _ _ _ _ H1).
      apply Hp. left. reflexivity.
Qed.

(** With flag ['wx'], a queue whose destinations all exist writes nothing
    and resolves to no path. *)
Lemma all_skip : forall rels fs,
  isDirectory fs = true ->
  (forall rel, In rel rels ->
     (exists str, text fs rel = Ok str) /\
     (exists k, kind (dest ++ rel) fs = Some k)) ->
  all (jobs false rels) fs = (fs, Ok (map (fun _ => None) rels)).
Proof.
  induction rels as [|rel rels IH]; intros fs Hd H.
  - reflexivity.
  - cbn [map all]. rewrite job_under. cbv zeta.
    destruct (H rel (or_introl eq_refl)) as [[str Ht] Hk].
    apply kind_exists in Hk. destruct Hk as [m Hm].
    destruct (lookup_dirname _ _ _ Hm Hd) as [es Hes].
    unfold mkdirp. rewrite (mkdirp_at_exists _ _ _ _ Hes Hd).
    rewrite Ht. unfold writeFile. simpl negb.
    rewrite (writeFile_at_exists _ _ _ _ _ Hm).
    rewrite IH; auto. intros r Hr. apply H. right. exact Hr.
Qed.

(** A file written stays as it is to the end of a queue whose later files
    with the same destination have the same text. *)
Lemma all_keeps overwrite d str : forall rels fs fs' written,
  all (jobs overwrite rels) fs = (fs', Ok written) ->
  (forall rel, In rel rels -> is_prefix source (dest ++ rel) = false) ->
  kind d fs = Some (Some (utf8_encode str)) ->
  (forall rel, In rel rels -> dest ++ rel = d -> text fs rel = Ok str) ->
  kind d fs' = Some (Some (utf8_encode str)).
Proof.
  induction rels as [|rel0 rels IH]; intros fs fs' written H Hp Hk Hsame.
  - inversion H. subst. exact Hk.
  - apply all_cons_ok in H. destruct H as [s1 [o [l' [H1 [H2 ->]]]]].
    assert (Hfr : lookup source s1 = lookup source fs).
    { apply (job_frame _ _ _ _ _ _ _ _ _ _ H1). apply Hp. left. reflexivity. }
    apply (IH _ _ _ H2).
    + intros; apply Hp; right; assumption.
    + destruct (job_kind _ _ _ _ _ _ _ _ _ _ _ H1 Hk) as [E|[E Ho]]; auto.
      inversion Ho. subst o.
      apply job_ok in H1.
      destruct H1 as [str' [fs1 [Ht [_ [[_ Hw]|[Hnone _]]]]]];
        [|discriminate].
      rewrite (Hsame rel0 (or_introl eq_refl) (eq_sym E)) in Ht.
      inversion Ht. subst str'. rewrite E. apply kind_file.
      exact (writeFile_at_written _ _ _ _ _ _ Hw).
    + intros rel Hin E.
      rewrite (readFile_under source rel s1 fs Hfr).
      apply Hsame; auto. right. exact Hin.
Qed.

Lemma text_ok_file fs rel str :
  text fs rel = Ok str -> exists c, lookup (source ++ rel) fs = Some (File c).
Proof.
  unfold readFile. destruct (lookup (source ++ rel) fs) as [[c|]|];
    try discriminate. eauto.
Qed.

(** A file of the queue whose destination does not exist is written, also
    with flag ['wx']. *)
Lemma all_writes_new overwrite : forall rels fs fs' written,
  all (jobs overwrite rels) fs = (fs', Ok written) ->
  (forall rel, In rel rels -> is_prefix source (dest ++ rel) = false) ->
  forall rel str, In rel rels ->
    text fs rel = Ok str ->
    kind (dest ++ rel) fs = None ->
    kind (dest ++ rel) fs' = Some (Some (utf8_encode str)) /\
    In (dest ++ rel) (compact written).
Proof.
  induction rels as [|rel0 rels IH];
    intros fs fs' written H Hp rel str Hin Ht Hk; [contradiction|].
  apply all_cons_ok in H. destruct H as [s1 [o [l' [H1 [H2 ->]]]]].
  assert (Hfr : lookup source s1 = lookup source fs).
  { apply (job_frame _ _ _ _ _ _ _ _ _ _ H1). apply Hp. left. reflexivity. }
  assert (Hp' : forall r, In r rels -> is_prefix source (dest ++ r) = false)
    by (intros; apply Hp; right; assumption).
  assert (Hd : dest ++ rel <> []).
  { intros E. rewrite E in Hk. unfold kind in Hk. simpl in Hk.
    destruct fs; discriminate. }
  destruct (list_eq_dec string_dec rel0 rel) as [->|Hne].
  - pose proof H1 as Hj. apply job_ok in Hj.
    destruct Hj as [str' [fs1 [Ht' [Hm [[-> Hw]|[_ [-> [_ [m Hm']]]]]]]]].
    + rewrite Ht in Ht'. inversion Ht'. subst str'. split.
      * apply (all_keeps _ _ _ _ _ _ _ H2 Hp').
        -- apply kind_file. exact (writeFile_at_written _ _ _ _ _ _ Hw).
        -- intros rel' _ E. apply app_inv_head in E. subst rel'.
           rewrite (readFile_under source rel s1 fs Hfr). exact Ht.
      * simpl. auto.
    + exfalso.
      pose proof (mkdirp_at_kind _ _ _ _ (dest ++ rel) Hm) as E.
      rewrite Hk, (is_prefix_dirname _ Hd) in E.
      unfold kind in E. rewrite Hm' in E. destruct m; discriminate.
  - destruct Hin as [E|Hin]; [congruence|].
    assert (Hk1 : kind (dest ++ rel) s1 = None).
    { pose proof H1 as Hj. apply job_ok in Hj.
      destruct Hj as [str0 [fs1 [Ht0 [Hm Hw]]]].
      assert (Hk0 : kind (dest ++ rel) fs1 = None).
      { rewrite (mkdirp_at_kind _ _ _ _ (dest ++ rel) Hm), Hk.
        destruct (is_prefix (dest ++ rel) (dirname (dest ++ rel0))) eqn:Ep;
          auto.
        exfalso. apply is_prefix_removelast in Ep.
        apply is_prefix_spec in Ep. destruct Ep as [r Er].
        rewrite <- app_assoc in Er. apply app_inv_head in Er. subst rel0.
        destruct r as [|x y]; [rewrite app_nil_r in Hne; congruence|].
        apply text_ok_file in Ht. destruct Ht as [c Hc].
        apply text_ok_file in Ht0. destruct Ht0 as [c0 Hc0].
        rewrite app_assoc, lookup_app, Hc in Hc0. discriminate. }
      destruct Hw as [[_ Hw]|[_ [-> _]]]; auto.
      rewrite (writeFile_at_kind _ _ _ _ _ _ (dest ++ rel) Hw); auto.
      intros E. apply app_inv_head in E. congruence. }
    destruct (IH _ _ _ H2 Hp' rel str Hin) as [Hk' Hw]; auto.
    + rewrite (readFile_under source rel s1 fs Hfr). exact Ht.
    + split; auto. destruct o; simpl; auto.
Qed.

(** With flag ['w'], a queue that succeeds and writes nothing into the
    source leaves at the destination of each file its text, and resolves to
    the destination. *)
Lemma all_writes : forall rels fs fs' written,
  all (jobs true rels) fs = (fs', Ok written) ->
  (forall rel, In rel rels -> is_prefix source (dest ++ rel) = false) ->
  forall rel, In rel rels ->
    exists str, text fs rel = Ok str /\
      kind (dest ++ rel) fs' = Some (Some (utf8_encode str)) /\
      In (dest ++ rel) (compact written).
Proof.
  induction rels as [|rel0 rels IH]; intros fs fs' written H Hp rel Hin.
  - contradiction.
  - apply all_cons_ok in H. destruct H as [s1 [o [l' [H1 [H2 ->]]]]].
    assert (Hfr : lookup source s1 = lookup source fs).
    { apply (job_frame _ _ _ _ _ _ _ _ _ _ H1). apply Hp. left. reflexivity. }
    assert (Hp' : forall r, In r rels -> is_prefix source (dest ++ r) = false)
      by (intros; apply Hp; right; assumption).
    destruct Hin as [->|Hin].
    + apply job_ok_written in H1. destruct H1 as [str [Ht [Hk ->]]].
      exists str. split; auto. split.
      * apply (all_keeps _ _ _ _ _ _ _ H2 Hp' Hk).
        intros rel' _ E. apply app_inv_head in E. subst rel'.
        rewrite (readFile_under source rel s1 fs Hfr). exact Ht.
      * simpl. auto.
    + destruct (IH _ _ _ H2 Hp' rel Hin) as [str [Ht [Hk Hw]]].
      exists str. split.
      * rewrite <- (readFile_under source rel s1 fs Hfr). exact Ht.
      * split; auto. destruct o; simpl; auto.
Qed.

End Outcome.

Lemma kind_dir p n : kind p n = Some None <-> exists es, lookup p n = Some (Dir es).
Proof.
  unfold kind. destruct (lookup p n) as [[|]|]; split;
    try congruence; try (intros [es H]; congruence); eauto.
Qed.

Lemma compact_none {A B} (l : list B) :
  compact (map (fun _ => @None A) l) = [].
Proof. induction l; simpl; auto. Qed.

Section GenerateOutcome.

Variable isBinaryPath : path -> bool.
Variable render : jsstring -> Data -> result jsstring.

(** Whatever becomes of the files, the destination is a directory once
    [mkdirp] has made it. *)
Lemma generate_keeps_dest source dest data opts fs fs' r fs1 :
  generate isBinaryPath render source dest data opts fs = (fs', r) ->
  mkdirp dest fs = Ok fs1 ->
  kind dest fs' = Some None /\ isDirectory fs' = true.
Proof.
  intros H Hm. apply generate_steps in H.
  destruct H as [[e [He _]]|[fs1' [Hm' H]]]; [congruence|].
  rewrite Hm in Hm'. inversion Hm'. subst fs1'.
  pose proof (mkdirp_at_made _ _ _ _ Hm) as Hd.
  pose proof (proj2 (mkdirp_at_root_dir _ _ _ _ Hm)) as Hroot.
  destruct H as [[_ [-> _]]|[n [rels [r2 [_ [_ [Ha _]]]]]]]; auto.
  split.
  - eapply all_dir_stays; eauto.
  - apply kind_root_dir. apply kind_root_dir in Hroot.
    eapply all_dir_stays; eauto.
Qed.

(** [generate] makes no file but at the destination of a file of its
    queue. *)
Lemma generate_new_file source dest data opts fs fs' r p c :
  generate isBinaryPath render source dest data opts fs = (fs', r) ->
  lookup p fs' = Some (File c) ->
  lookup p fs = Some (File c) \/
  exists n rel, p = dest ++ rel /\ In (source ++ rel) (walk source n) /\
    isBinaryPath (source ++ rel) = false.
Proof.
  intros H Hl. apply kind_file in Hl. rewrite <- kind_file.
  apply generate_steps in H.
  destruct H as [[e [_ [-> _]]]|[fs1 [Hm H]]]; auto.
  assert (Hback : kind p fs1 = Some (Some c) -> kind p fs = Some (Some c)).
  { rewrite (mkdirp_at_kind _ _ _ _ p Hm).
    destruct (kind p fs); auto. destruct (is_prefix p dest); discriminate. }
  destruct H as [[_ [-> _]]|[n [rels [r2 [_ [Hrels [Ha _]]]]]]]; auto.
  destruct (all_new_file _ _ _ _ _ _ _ _ _ _ _ Ha Hl) as [E|[rel [Hin ->]]];
    auto.
  right. exists n, rel. apply Hrels in Hin. tauto.
Qed.

(** The paths [generate] resolves to are destinations of files of its
    queue. *)
Lemma generate_written source dest data opts fs fs' written p :
  generate isBinaryPath render source dest data opts fs = (fs', Ok written) ->
  In p written ->
  exists n rel, p = dest ++ rel /\ In (source ++ rel) (walk source n) /\
    isBinaryPath (source ++ rel) = false.
Proof.
  intros H Hin. apply generate_steps in H.
  destruct H as [[e [_ [_ H]]]|[fs1 [Hm H]]]; [discriminate|].
  destruct H as [[_ [_ H]]|[n [rels [r2 [_ [Hrels [Ha Hr]]]]]]];
    [discriminate|].
  destruct r2 as [l|e]; inversion Hr. subst written.
  destruct (all_written _ _ _ _ _ _ _ _ _ _ Ha Hin) as [rel [Hrel ->]].
  exists n, rel. apply Hrels in Hrel. tauto.
Qed.

(** [generate] leaves at the destination of a file that is queued its text,
    rendered or not, when [overwrite] is true or the destination is new,
    the source and the destination being apart. *)
Lemma generate_writes_text source dest data opts fs fs' written rel c :
  generate isBinaryPath render source dest data opts fs = (fs', Ok written) ->
  default true (o_overwrite opts) = true \/
  (lookup (dest ++ rel) fs = None /\ rel <> []) ->
  apart source dest = true ->
  lookup (source ++ rel) fs = Some (File c) ->
  isBinaryPath (source ++ rel) = false ->
  unpruned source rel = true ->
  exists str, render_or_copy render data (utf8_decode c) = Ok str /\
    lookup (dest ++ rel) fs' = Some (File (utf8_encode str)) /\
    In (dest ++ rel) written.
Proof.
  intros H How Hap Hl Hb Hf. apply generate_steps in H.
  destruct H as [[e [_ [_ H]]]|[fs1 [Hm H]]]; [discriminate|].
  assert (Hsrc : lookup source fs1 = lookup source fs).
  { apply (mkdirp_at_frame _ _ _ _ _ Hm).
    rewrite <- (app_nil_r dest). apply apart_under. exact Hap. }
  destruct H as [[_ [_ H]]|[n [rels [r2 [Hn [Hrels [Ha Hr]]]]]]];
    [discriminate|].
  destruct r2 as [l|e]; inversion Hr. subst written.
  assert (Hin : In rel rels).
  { apply Hrels. split; auto.
    rewrite lookup_app, <- Hsrc, Hn in Hl.
    eapply walk_complete; eauto. apply unpruned_filter. exact Hf. }
  assert (Hfr : forall r, In r rels -> is_prefix source (dest ++ r) = false)
    by (intros; apply apart_under; exact Hap).
  assert (Htext : forall str,
            rbind (readFile (source ++ rel) fs1) (render_or_copy render data)
            = Ok str ->
            render_or_copy render data (utf8_decode c) = Ok str).
  { intros str Ht.
    rewrite (readFile_under source rel fs1 fs Hsrc) in Ht.
    unfold readFile in Ht. rewrite Hl in Ht. exact Ht. }
  destruct How as [How|[Hnew Hrel]].
  - rewrite How in Ha.
    destruct (all_writes _ _ _ _ _ _ _ _ Ha Hfr rel Hin) as [str [Ht [Hk Hw]]].
    exists str. rewrite <- kind_file. auto.
  - destruct (all_done _ _ _ _ _ _ _ _ _ Ha Hfr rel Hin) as [[str Ht] _].
    assert (Hk : kind (dest ++ rel) fs1 = None).
    { rewrite (mkdirp_at_kind _ _ _ _ (dest ++ rel) Hm). unfold kind at 1.
      rewrite Hnew.
      destruct (is_prefix (dest ++ rel) dest) eqn:E; auto.
      apply is_prefix_app_self in E. contradiction. }
    destruct (all_writes_new _ _ _ _ _ _ _ _ _ Ha Hfr rel str Hin Ht Hk)
      as [Hk' Hw].
    exists str. rewrite <- kind_file. auto.
Qed.

End GenerateOutcome.

(** ** UTF-8 *)

Ltac Zify.zify_post_hook ::= Z.to_euclidean_division_equations.

Lemma between_bounds lo hi c :
  between lo hi c = true -> (lo <= N_of_ascii c <= hi)%N.
Proof.
  unfold between. intros H. apply andb_prop in H. destruct H as [H1 H2].
  apply N.leb_le in H1, H2. lia.
Qed.

Lemma second_bounds b0 c :
  between (second_min b0) (second_max b0) c = true ->
  (128 <= N_of_ascii c <= 191 /\
   (b0 = 224 -> 160 <= N_of_ascii c) /\ (b0 = 237 -> N_of_ascii c <= 159) /\
   (b0 = 240 -> 144 <= N_of_ascii c) /\ (b0 = 244 -> N_of_ascii c <= 143))%N.
Proof.
  intros H. apply between_bounds in H. unfold second_min, second_max in H.
  destruct (N.eqb_spec b0 224), (N.eqb_spec b0 240), (N.eqb_spec b0 237),
    (N.eqb_spec b0 244); lia.
Qed.

Lemma byte_of_ascii c n : n = N_of_ascii c -> ascii_of_N n = c.
Proof. intros ->. apply ascii_N_embedding. Qed.

Lemma utf8_bytes_1 c0 rest :
  (N_of_ascii c0 < 128)%N ->
  utf8_bytes (N_of_ascii c0) rest = String c0 rest.
Proof.
  intros H. unfold utf8_bytes.
  destruct (N.ltb_spec (N_of_ascii c0) 128); [|lia].
  rewrite ascii_N_embedding. reflexivity.
Qed.

Lemma utf8_bytes_2 c0 c1 rest :
  between 194 223 c0 = true -> between 128 191 c1 = true ->
  utf8_bytes ((N_of_ascii c0 - 192) * 64 + low6 c1) rest
  = String c0 (String c1 rest).
Proof.
  intros H0 H1. apply between_bounds in H0, H1. unfold utf8_bytes, low6.
  set (cp := ((N_of_ascii c0 - 192) * 64 + (N_of_ascii c1 - 128))%N).
  destruct (N.ltb_spec cp 128); [unfold cp in *; lia|].
  destruct (N.ltb_spec cp 2048); [|unfold cp in *; lia].
  f_equal; [|f_equal]; apply byte_of_ascii; unfold cp; lia.
Qed.

Lemma utf8_bytes_3 c0 c1 c2 rest :
  between 224 239 c0 = true ->
  between (second_min (N_of_ascii c0)) (second_max (N_of_ascii c0)) c1 = true ->
  between 128 191 c2 = true ->
  let cp := ((N_of_ascii c0 - 224) * 4096 + low6 c1 * 64 + low6 c2)%N in
  utf8_bytes cp rest = String c0 (String c1 (String c2 rest)) /\
  high_surrogate cp = false /\ low_surrogate cp = false.
Proof.
  intros H0 H1 H2 cp. apply between_bounds in H0, H2.
  apply second_bounds in H1. unfold low6 in cp.
  assert (Hcp : (2048 <= cp < 55296 \/ 57344 <= cp < 65536)%N).
  { unfold cp.
    destruct (N.eq_dec (N_of_ascii c0) 224), (N.eq_dec (N_of_ascii c0) 237);
      lia. }
  split; [|split].
  - unfold utf8_bytes.
    destruct (N.ltb_spec cp 128); [lia|].
    destruct (N.ltb_spec cp 2048); [lia|].
    destruct (N.ltb_spec cp 65536); [|lia].
    f_equal; [|f_equal; [|f_equal]]; apply byte_of_ascii; unfold cp; lia.
  - unfold high_surrogate. apply andb_false_iff.
    destruct Hcp; [left; apply N.leb_gt|right; apply N.leb_gt]; lia.
  - unfold low_surrogate. apply andb_false_iff.
    destruct Hcp; [left; apply N.leb_gt|right; apply N.leb_gt]; lia.
Qed.

Lemma utf8_bytes_4 c0 c1 c2 c3 rest :
  between 240 244 c0 = true ->
  between (second_min (N_of_ascii c0)) (second_max (N_of_ascii c0)) c1 = true ->
  between 128 191 c2 = true ->
  between 128 191 c3 = true ->
  let cp := ((N_of_ascii c0 - 240) * 262144 + low6 c1 * 4096
             + low6 c2 * 64 + low6 c3)%N in
  utf8_bytes cp rest = String c0 (String c1 (String c2 (String c3 rest))) /\
  (65536 <= cp < 1114112)%N.
Proof.
  intros H0 H1 H2 H3 cp. apply between_bounds in H0, H2, H3.
  apply second_bounds in H1. unfold low6 in cp.
  assert (Hcp : (65536 <= cp < 1114112)%N).
  { unfold cp.
    destruct (N.eq_dec (N_of_ascii c0) 240), (N.eq_dec (N_of_ascii c0) 244);
      lia. }
  split; auto. unfold utf8_bytes.
  destruct (N.ltb_spec cp 128); [lia|].
  destruct (N.ltb_spec cp 2048); [lia|].
  destruct (N.ltb_spec cp 65536); [lia|].
  f_equal; [|f_equal; [|f_equal; [|f_equal]]]; apply byte_of_ascii;
    unfold cp; lia.
Qed.

(** A code unit that is no surrogate is encoded alone. *)
Lemma utf8_encode_unit u str :
  high_surrogate u = false -> low_surrogate u = false ->
  utf8_encode (u :: str) = utf8_bytes u (utf8_encode str).
Proof. intros H1 H2. simpl. rewrite H1, H2. reflexivity. Qed.

(** The two code units of a code point above U+FFFF are encoded as it. *)
Lemma utf8_encode_units cp str :
  (65536 <= cp < 1114112)%N ->
  utf8_encode (units cp ++ str) = utf8_bytes cp (utf8_encode str).
Proof.
  intros H. unfold units. destruct (N.ltb_spec cp 65536); [lia|].
  cbn [app utf8_encode].
  replace (high_surrogate (55296 + (cp - 65536) / 1024)) with true.
  - replace (low_surrogate (56320 + (cp - 65536) mod 1024)) with true.
    + f_equal. lia.
    + symmetry. unfold low_surrogate. apply andb_true_intro.
      split; apply N.leb_le; lia.
  - symmetry. unfold high_surrogate. apply andb_true_intro.
    split; apply N.leb_le; lia.
Qed.

Lemma ascii_not_surrogate u :
  (u < 2048)%N -> high_surrogate u = false /\ low_surrogate u = false.
Proof.
  intros H. unfold high_surrogate, low_surrogate. split; apply andb_false_iff;
    left; apply N.leb_gt; lia.
Qed.

Lemma utf8_roundtrip_upto n : forall s,
  String.length s <= n -> well_formed s = true ->
  utf8_encode (utf8_decode s) = s.
Proof.
  induction n as [|n IH]; intros s Hlen Hwf.
  - destruct s; [reflexivity|simpl in Hlen; lia].
  - destruct s as [|c0 s0]; [reflexivity|].
    cbn [String.length] in Hlen. cbn [utf8_decode well_formed] in *.
    destruct (N.ltb_spec (N_of_ascii c0) 128) as [Hb|Hb].
    { destruct (ascii_not_surrogate (N_of_ascii c0)) as [Hh Hl]; [lia|].
      rewrite utf8_encode_unit by assumption.
      rewrite IH by (auto; lia). apply utf8_bytes_1. exact Hb. }
    destruct (between 194 223 c0) eqn:E2.
    { destruct s0 as [|c1 s1]; [discriminate|].
      apply andb_prop in Hwf. destruct Hwf as [H1 Hwf]. rewrite H1.
      cbn [String.length] in Hlen.
      pose proof (between_bounds _ _ _ E2). pose proof (between_bounds _ _ _ H1).
      destruct (ascii_not_surrogate ((N_of_ascii c0 - 192) * 64 + low6 c1))
        as [Hh Hl]; [unfold low6; lia|].
      rewrite utf8_encode_unit by assumption.
      rewrite IH by (auto; lia). apply utf8_bytes_2; assumption. }
    destruct (between 224 239 c0) eqn:E3.
    { destruct s0 as [|c1 [|c2 s2]]; try discriminate.
      apply andb_prop in Hwf. destruct Hwf as [Hwf Hrest].
      apply andb_prop in Hwf. destruct Hwf as [H1 H2]. rewrite H1, H2.
      cbn [String.length] in Hlen.
      destruct (utf8_bytes_3 c0 c1 c2 s2 E3 H1 H2) as [Hbytes [Hh Hl]].
      rewrite utf8_encode_unit by assumption.
      rewrite IH by (auto; lia). exact Hbytes. }
    destruct (between 240 244 c0) eqn:E4; [|discriminate].
    destruct s0 as [|c1 [|c2 [|c3 s3]]]; try discriminate.
    apply andb_prop in Hwf. destruct Hwf as [Hwf Hrest].
    apply andb_prop in Hwf. destruct Hwf as [Hwf H3].
    apply andb_prop in Hwf. destruct Hwf as [H1 H2]. rewrite H1, H2, H3.
    cbn [String.length] in Hlen.
    destruct (utf8_bytes_4 c0 c1 c2 c3 s3 E4 H1 H2 H3) as [Hbytes Hcp].
    rewrite utf8_encode_units by exact Hcp.
    rewrite IH by (auto; lia). exact Hbytes.
Qed.

(** What is well-formed UTF-8 is read and written back as it is. *)
Lemma utf8_roundtrip s : well_formed s = true -> utf8_encode (utf8_decode s) = s.
Proof. apply (utf8_roundtrip_upto (String.length s)). lia. Qed.

(** ** The template marker *)

Lemma is_brace_open u : is_brace u = false -> (u =? 123)%N = false.
Proof. unfold is_brace. intros H. apply orb_false_elim in H. tauto. Qed.

Lemma has_marker_skip u s :
  (u =? 123)%N = false -> has_marker (u :: s) = has_marker s.
Proof. intros H. destruct s; simpl; auto. rewrite H. reflexivity. Qed.

Lemma has_marker_later u s :
  has_marker s = true -> has_marker (u :: s) = true.
Proof.
  intros H. destruct s; [discriminate|].
  cbn [has_marker] in *. rewrite H. apply orb_true_r.
Qed.

Lemma has_marker_after pre s :
  has_marker s = true -> has_marker (pre ++ s) = true.
Proof.
  intros H. induction pre as [|u pre IH]; simpl; auto.
  apply has_marker_later. exact IH.
Qed.

Lemma no_brace_no_marker s : no_brace s = true -> has_marker s = false.
Proof.
  induction s as [|u s IH]; intros H; auto.
  simpl in H. apply andb_prop in H. destruct H as [Hu Hs].
  apply negb_true_iff in Hu.
  rewrite has_marker_skip by (apply is_brace_open; exact Hu). auto.
Qed.

(** What follows an opening pair matches when it is a run of one character
    at least, none a brace, before a closing pair. *)
Lemma marker_body_sound s : forall seen,
  marker_body seen s = true ->
  exists body post,
    s = body ++ js "}}" ++ post /\ no_brace body = true /\
    (seen = false -> body <> []).
Proof.
  induction s as [|u s IH]; intros seen H; [discriminate|].
  simpl in H. destruct (is_brace u) eqn:Eb.
  - apply andb_prop in H. destruct H as [Hs H].
    apply andb_prop in H. destruct H as [Hu H].
    destruct s as [|v post]; [discriminate|].
    apply N.eqb_eq in Hu, H. subst.
    exists [], post. repeat split. intros; discriminate.
  - destruct (IH _ H) as [body [post [-> [Hn _]]]].
    exists (u :: body), post. repeat split.
    + simpl. rewrite Eb, Hn. reflexivity.
    + intros _; discriminate.
Qed.

Lemma marker_body_complete body : forall seen post,
  no_brace body = true ->
  (seen = true \/ body <> []) ->
  marker_body seen (body ++ js "}}" ++ post) = true.
Proof.
  induction body as [|u body IH]; intros seen post Hn Hs.
  - destruct Hs as [->|Hs]; [reflexivity|congruence].
  - simpl in Hn. apply andb_prop in Hn. destruct Hn as [Hu Hn].
    apply negb_true_iff in Hu. cbn [app marker_body]. rewrite Hu.
    apply IH; auto.
Qed.

(** The test of [generate], as the regular expression reads: an opening
    pair, one character at least and none a brace, a closing pair. *)
Lemma has_marker_spec s :
  has_marker s = true <->
  exists pre body post,
    s = pre ++ js "{{" ++ body ++ js "}}" ++ post /\
    body <> [] /\ no_brace body = true.
Proof.
  split.
  - induction s as [|u s IH]; intros H; [discriminate|].
    destruct s as [|v s]; [discriminate|].
    cbn [has_marker] in H. apply orb_prop in H. destruct H as [H|H].
    + apply andb_prop in H. destruct H as [Huv Hb].
      apply andb_prop in Huv. destruct Huv as [Hu Hv].
      apply N.eqb_eq in Hu, Hv. subst.
      destruct (marker_body_sound _ _ Hb) as [body [post [-> [Hn Hne]]]].
      exists [], body, post. repeat split; auto.
    + destruct (IH H) as [pre [body [post [E [Hne Hn]]]]].
      exists (u :: pre), body, post. rewrite E. repeat split; auto.
  - intros [pre [body [post [-> [Hne Hn]]]]].
    apply has_marker_after.
    change (has_marker (123%N :: 123%N :: body ++ js "}}" ++ post) = true).
    cbn [has_marker]. rewrite marker_body_complete; auto.
Qed.

Lemma empty_expression_no_marker a b :
  no_brace a = true -> no_brace b = true ->
  has_marker (a ++ js "{{}}" ++ b) = false.
Proof.
  intros Ha Hb. induction a as [|u a IH].
  - change (has_marker (123%N :: 123%N :: 125%N :: 125%N :: b) = false).
    cbn [has_marker marker_body is_brace].
    simpl. destruct b as [|v b]; auto.
    simpl. apply (no_brace_no_marker (v :: b)) in Hb. exact Hb.
  - simpl in Ha. apply andb_prop in Ha. destruct Ha as [Hu Ha].
    apply negb_true_iff in Hu. cbn [app].
    rewrite has_marker_skip by (apply is_brace_open; exact Hu). auto.
Qed.

(** ** [_.kebabCase] *)

Lemma every_append f (a b : string) :
  every f (a ++ b) = every f a && every f b.
Proof.
  induction a as [|c a IH]; simpl; auto. rewrite IH, andb_assoc. reflexivity.
Qed.

Section Consumed.

Context {R : Type}.

Local Abbreviation consumed s k x :=
  (exists w rest p,
     s = (w ++ rest)%string /\ every alnum w = true /\ k p rest = Some x).

Lemma text_consumed t : forall prev s (k : option ascii -> string -> option R) x,
  every alnum t = true ->
  run_text t prev s k = Some x -> consumed s k x.
Proof.
  induction t as [|a t IH]; intros prev s k x Ht H; simpl in H.
  - exists EmptyString, s, prev. auto.
  - destruct s as [|c s]; [discriminate|].
    destruct (Ascii.eqb a c) eqn:E; [|discriminate].
    apply Ascii.eqb_eq in E. subst c.
    simpl in Ht. apply andb_prop in Ht. destruct Ht as [Ha Ht].
    destruct (IH _ _ _ _ Ht H) as [w [rest [p [-> [Hw Hk]]]]].
    exists (String a w), rest, p. simpl. rewrite Ha, Hw. auto.
Qed.

Lemma star_consumed f : forall s prev (k : option ascii -> string -> option R) x,
  (forall c, plain c = true -> f c = true -> alnum c = true) ->
  every plain s = true ->
  run_star f prev s k = Some x -> consumed s k x.
Proof.
  induction s as [|c s IH]; intros prev k x Hf Hs H; simpl in H.
  - exists EmptyString, EmptyString, prev. auto.
  - simpl in Hs. apply andb_prop in Hs. destruct Hs as [Hc Hs].
    destruct (f c) eqn:Efc.
    + destruct (run_star f (Some c) s k) as [y|] eqn:E.
      * inversion H. subst y.
        destruct (IH _ _ _ Hf Hs E) as [w [rest [p [-> [Hw Hk]]]]].
        exists (String c w), rest, p. simpl. rewrite (Hf c Hc Efc), Hw. auto.
      * exists EmptyString, (String c s), prev. auto.
    + exists EmptyString, (String c s), prev. auto.
Qed.

End Consumed.

Lemma run_consumed r : forall R prev s (k : option ascii -> string -> option R) x,
  takes_alnum r ->
  every plain s = true ->
  run r prev s k = Some x ->
  exists w rest p,
    s = (w ++ rest)%string /\ every alnum w = true /\ k p rest = Some x.
Proof.
  induction r as [f|t|a IHa b IHb|a IHa b IHb|a IHa|f|f|a IHa|a IHa| |];
    intros R prev s k x Hr Hs H; simpl in H, Hr.
  - destruct s as [|c s]; [discriminate|].
    simpl in Hs. apply andb_prop in Hs. destruct Hs as [Hc Hs].
    destruct (f c) eqn:E; [|discriminate].
    exists (String c EmptyString), s, (Some c). simpl.
    rewrite (Hr c Hc E). auto.
  - eapply text_consumed; eauto.
  - destruct Hr as [Ha Hb].
    destruct (IHa _ _ _ _ _ Ha Hs H) as [w1 [rest1 [p1 [-> [Hw1 Hk1]]]]].
    rewrite every_append in Hs. apply andb_prop in Hs.
    destruct Hs as [_ Hs1].
    destruct (IHb _ _ _ _ _ Hb Hs1 Hk1) as [w2 [rest [p [-> [Hw2 Hk]]]]].
    exists (w1 ++ w2)%string, rest, p. rewrite append_assoc, every_append.
    rewrite Hw1, Hw2. auto.
  - destruct Hr as [Ha Hb].
    destruct (run a prev s k) as [y|] eqn:E.
    + inversion H. subst y. eauto.
    + eauto.
  - destruct (run a prev s k) as [y|] eqn:E.
    + inversion H. subst y. eauto.
    + exists EmptyString, s, prev. auto.
  - destruct s as [|c s]; [discriminate|].
    simpl in Hs. apply andb_prop in Hs. destruct Hs as [Hc Hs].
    destruct (f c) eqn:E; [|discriminate].
    destruct (star_consumed f _ _ _ _ Hr Hs H) as [w [rest [p [-> [Hw Hk]]]]].
    exists (String c w), rest, p. simpl. rewrite (Hr c Hc E), Hw. auto.
  - eapply star_consumed; eauto.
  - destruct (run a prev s (fun _ _ => Some tt)); [|discriminate].
    exists EmptyString, s, prev. auto.
  - destruct (run a prev s (fun _ _ => Some tt)); [discriminate|].
    exists EmptyString, s, prev. auto.
  - destruct (xorb _ _); [|discriminate].
    exists EmptyString, s, prev. auto.
  - destruct s; [|discriminate].
    exists EmptyString, EmptyString, prev. auto.
Qed.

Lemma substring_prefix (w rest : string) :
  substring 0 (String.length w) (w ++ rest) = w.
Proof.
  induction w as [|c w IH]; simpl.
  - destruct rest; reflexivity.
  - rewrite IH. reflexivity.
Qed.

(** Every match is made of letters and digits. *)
Lemma matches_alnum r : takes_alnum r -> forall n prev s,
  every plain s = true ->
  Forall (fun w => every alnum w = true) (matches n r prev s).
Proof.
  intros Hr. induction n as [|n IH]; intros prev s Hs; [constructor|].
  destruct s as [|c s']; [constructor|].
  assert (Hs' : every plain s' = true).
  { simpl in Hs. apply andb_prop in Hs. tauto. }
  cbn [matches].
  destruct (run r prev (String c s') (fun p rest => Some (p, rest)))
    as [[p rest]|] eqn:E; auto.
  destruct (run_consumed _ _ _ _ _ _ Hr Hs E) as [w [rest' [p' [Es [Hw Hk]]]]].
  inversion Hk. subst p' rest'. rewrite Es.
  rewrite length_append.
  replace (String.length w + String.length rest - String.length rest)
    with (String.length w) by lia.
  destruct (String.length w) eqn:El.
  - apply IH. exact Hs'.
  - rewrite <- El, substring_prefix. constructor; auto.
    apply IH. rewrite Es, every_append in Hs. apply andb_prop in Hs. tauto.
Qed.

(** The bound on the positions is never met: a larger one changes
    nothing. *)
Lemma run_suffix r R prev s (k : option ascii -> string -> option R) x :
  run r prev s k = Some x ->
  exists w rest p, s = (w ++ rest)%string /\ k p rest = Some x.
Proof.
  revert R prev s k x.
  induction r as [f|t|a IHa b IHb|a IHa b IHb|a IHa|f|f|a IHa|a IHa| |];
    intros R prev s k x H; simpl in H.
  - destruct s as [|c s]; [discriminate|].
    destruct (f c); [|discriminate].
    exists (String c EmptyString), s, (Some c). auto.
  - revert prev s H. induction t as [|a t IH]; intros prev s H; simpl in H.
    + exists EmptyString, s, prev. auto.
    + destruct s as [|c s]; [discriminate|].
      destruct (Ascii.eqb a c); [|discriminate].
      destruct (IH _ _ H) as [w [rest [p [-> Hk]]]].
      exists (String c w), rest, p. auto.
  - destruct (IHa _ _ _ _ _ H) as [w1 [rest1 [p1 [-> Hk1]]]].
    destruct (IHb _ _ _ _ _ Hk1) as [w2 [rest [p [-> Hk]]]].
    exists (w1 ++ w2)%string, rest, p. rewrite append_assoc. auto.
  - destruct (run a prev s k) as [y|] eqn:E.
    + inversion H. subst y. eauto.
    + eauto.
  - destruct (run a prev s k) as [y|] eqn:E.
    + inversion H. subst y. eauto.
    + exists EmptyString, s, prev. auto.
  - destruct s as [|c s]; [discriminate|].
    destruct (f c); [|discriminate].
    assert (Hstar : forall s prev, run_star f prev s k = Some x ->
              exists w rest p, s = (w ++ rest)%string /\ k p rest = Some x).
    { clear. induction s as [|c s IH]; intros prev H; simpl in H.
      - exists EmptyString, EmptyString, prev. auto.
      - destruct (f c).
        + destruct (run_star f (Some c) s k) as [y|] eqn:E.
          * inversion H. subst y.
            destruct (IH _ E) as [w [rest [p [-> Hk]]]].
            exists (String c w), rest, p. auto.
          * exists EmptyString, (String c s), prev. auto.
        + exists EmptyString, (String c s), prev. auto. }
    destruct (Hstar _ _ H) as [w [rest [p [-> Hk]]]].
    exists (String c w), rest, p. auto.
  - revert prev H. induction s as [|c s IH]; intros prev H; simpl in H.
    + exists EmptyString, EmptyString, prev. auto.
    + destruct (f c).
      * destruct (run_star f (Some c) s k) as [y|] eqn:E.
        -- inversion H. subst y.
           destruct (IH _ E) as [w [rest [p [-> Hk]]]].
           exists (String c w), rest, p. auto.
        -- exists EmptyString, (String c s), prev. auto.
      * exists EmptyString, (String c s), prev. auto.
  - destruct (run a prev s (fun _ _ => Some tt)); [|discriminate].
    exists EmptyString, s, prev. auto.
  - destruct (run a prev s (fun _ _ => Some tt)); [discriminate|].
    exists EmptyString, s, prev. auto.
  - destruct (xorb _ _); [|discriminate].
    exists EmptyString, s, prev. auto.
  - destruct s; [|discriminate].
    exists EmptyString, EmptyString, prev. auto.
Qed.

Lemma matches_enough r : forall n m prev s,
  String.length s <= n -> String.length s <= m ->
  matches n r prev s = matches m r prev s.
Proof.
  induction n as [|n IH]; intros m prev s Hn Hm.
  - destruct s; [|simpl in Hn; lia]. destruct m; reflexivity.
  - destruct m as [|m]; [destruct s; [reflexivity|simpl in Hm; lia]|].
    destruct s as [|c s']; [reflexivity|]. cbn [matches].
    destruct (run r prev (String c s') (fun p rest => Some (p, rest)))
      as [[p rest]|] eqn:E.
    + destruct (run_suffix _ _ _ _ _ _ E) as [w [rest' [p' [Es Hk]]]].
      inversion Hk. subst p' rest'.
      assert (Hlen : String.length (String c s')
                     = String.length w + String.length rest)
        by (rewrite Es; apply length_append).
      destruct (String.length (String c s') - String.length rest) eqn:El.
      * cbn [String.length] in Hn, Hm. apply IH; lia.
      * f_equal. cbn [String.length] in Hn, Hm, Hlen, El. apply IH; lia.
    + cbn [String.length] in Hn, Hm. apply IH; lia.
Qed.

Lemma plain_remove_apos s :
  ascii_text s = true -> every plain (remove_apos s) = true.
Proof.
  induction s as [|c s IH]; simpl; auto. intros H.
  apply andb_prop in H. destruct H as [Hc Hs].
  destruct (rsApos c) eqn:E; simpl; auto.
  unfold plain at 1. rewrite Hc, E. simpl. auto.
Qed.

Lemma ascii_is_classified c :
  (nat_of_ascii c <? 128)%nat = true -> rsMisc c = false.
Proof.
  destruct c as [[|] [|] [|] [|] [|] [|] [|] [|]]; vm_compute; congruence.
Qed.

Lemma ascii_word_alnum c :
  (nat_of_ascii c <? 128)%nat = true -> rsBreak c = false -> alnum c = true.
Proof.
  destruct c as [[|] [|] [|] [|] [|] [|] [|] [|]]; vm_compute; congruence.
Qed.

Lemma takes_alnum_contr :
  takes_alnum rsOptContrLower /\ takes_alnum rsOptContrUpper.
Proof.
  assert (Ha : forall c, plain c = true -> rsApos c = true -> alnum c = true).
  { intros c Hp Hc. unfold plain in Hp. rewrite Hc in Hp.
    rewrite andb_false_r in Hp. discriminate. }
  split; simpl; repeat split; auto.
Qed.

Lemma takes_alnum_ord : takes_alnum rsOrdUpper /\ takes_alnum rsOrdLower.
Proof.
  assert (Hd : forall c, plain c = true -> rsDigit c = true -> alnum c = true).
  { intros c _ Hc. unfold alnum. rewrite Hc. apply orb_true_r. }
  split; simpl; repeat split; auto.
Qed.

Lemma takes_alnum_unicode : takes_alnum reUnicodeWord.
Proof.
  assert (Hu : forall c, plain c = true -> rsUpper c = true -> alnum c = true).
  { intros c _ Hc. unfold alnum. rewrite Hc. reflexivity. }
  assert (Hl : forall c, plain c = true -> rsLower c = true -> alnum c = true).
  { intros c _ Hc. unfold alnum. rewrite Hc, orb_true_r. reflexivity. }
  assert (Hd : forall c, plain c = true -> rsDigit c = true -> alnum c = true).
  { intros c _ Hc. unfold alnum. rewrite Hc. apply orb_true_r. }
  assert (Hm : forall c, plain c = true -> rsMisc c = true -> alnum c = true).
  { intros c Hp Hc. unfold plain in Hp. apply andb_prop in Hp.
    rewrite (ascii_is_classified c (proj1 Hp)) in Hc. discriminate. }
  assert (Hml : forall c, plain c = true -> rsMiscLower c = true ->
            alnum c = true).
  { intros c Hp Hc. unfold rsMiscLower in Hc. apply orb_prop in Hc.
    destruct Hc; auto. }
  assert (Hmu : forall c, plain c = true -> rsMiscUpper c = true ->
            alnum c = true).
  { intros c Hp Hc. unfold rsMiscUpper in Hc. apply orb_prop in Hc.
    destruct Hc; auto. }
  destruct takes_alnum_contr as [Hcl Hcu].
  destruct takes_alnum_ord as [Hou Hol].
  unfold reUnicodeWord. cbn [takes_alnum].
  repeat first [exact Hcl | exact Hcu | exact Hou | exact Hol | exact I
               | exact Hu | exact Hl | exact Hd | exact Hml | exact Hmu
               | split].
Qed.

Lemma takes_alnum_ascii : takes_alnum reAsciiWord.
Proof.
  simpl. intros c Hp Hc. unfold plain in Hp. apply andb_prop in Hp.
  apply negb_true_iff in Hc. apply ascii_word_alnum; tauto.
Qed.

Lemma words_alnum s :
  every plain s = true -> Forall (fun w => every alnum w = true) (words s).
Proof.
  intros Hs. unfold words, match_all.
  destruct (regexp_test reHasUnicodeWord None s).
  - apply matches_alnum; auto. apply takes_alnum_unicode.
  - apply matches_alnum; auto. apply takes_alnum_ascii.
Qed.

Lemma is_slug_append (a b : string) :
  is_slug (a ++ b) = is_slug a && is_slug b.
Proof.
  induction a as [|c a IH]; simpl; auto. rewrite IH, andb_assoc. reflexivity.
Qed.

Lemma lower_slug_char c :
  alnum c = true ->
  slug_char (if rsUpper c then ascii_of_nat (nat_of_ascii c + 32) else c)
  = true.
Proof.
  destruct c as [[|] [|] [|] [|] [|] [|] [|] [|]]; vm_compute; congruence.
Qed.

Lemma toLowerCase_slug w : every alnum w = true -> is_slug (toLowerCase w) = true.
Proof.
  induction w as [|c w IH]; simpl; auto. intros H.
  apply andb_prop in H. destruct H as [Hc Hw].
  rewrite (lower_slug_char c Hc), IH; auto.
Qed.

Lemma compound_slug ws : forall index result,
  Forall (fun w => every alnum w = true) ws ->
  is_slug result = true -> is_slug (compound index result ws) = true.
Proof.
  induction ws as [|w ws IH]; intros index result Hws Hr; simpl; auto.
  inversion Hws as [|? ? Hw Hws']. subst. apply IH; auto.
  rewrite !is_slug_append, Hr, (toLowerCase_slug w Hw).
  destruct (index =? 0)%nat; reflexivity.
Qed.

(** The kebab case of a text within ASCII is made of lower-case letters,
    digits and hyphens. *)
Lemma kebabCase_slug s :
  ascii_text s = true -> is_slug (lodash_kebabCase s) = true.
Proof.
  intros H. unfold lodash_kebabCase. apply compound_slug; auto.
  apply words_alnum. apply plain_remove_apos. exact H.
Qed.

(** * The claims about [generate] *)

Section GenerateClaims.

Variable isBinaryPath : path -> bool.
Variable render : jsstring -> Data -> result jsstring.

(** C3, as the code has it: when the source and the destination are apart,
    neither being the other or inside it, a second [generate] with
    [overwrite: false] over the same source and destination, after a first
    one that resolved, writes no file and resolves to the empty list; the
    disk, and so every file the first call wrote, is as the first call
    left it. *)
Theorem generate_twice source dest data opts1 opts2 fs fs1 written :
  apart source dest = true ->
  generate isBinaryPath render source dest data opts1 fs = (fs1, Ok written) ->
  o_overwrite opts2 = Some false ->
  generate isBinaryPath render source dest data opts2 fs1 = (fs1, Ok []).
Proof.
  intros Hap H1 How.
  pose proof H1 as Hsteps. apply generate_steps in Hsteps.
  destruct Hsteps as [[e [_ [_ H]]]|[f1 [Hm H]]]; [discriminate|].
  destruct (generate_keeps_dest _ _ _ _ _ _ _ _ _ _ H1 Hm) as [Hdest Hroot].
  destruct H as [[_ [_ H]]|[n [rels [r2 [Hn [Hrels [Ha Hr]]]]]]];
    [discriminate|].
  destruct r2 as [l|e]; inversion Hr. subst written. clear Hr.
  assert (Hfr : forall rel, In rel rels -> is_prefix source (dest ++ rel) = false)
    by (intros; apply apart_under; exact Hap).
  assert (Hsrc : lookup source fs1 = lookup source f1)
    by (eapply all_frame; eauto).
  apply kind_dir in Hdest. destruct Hdest as [es Hes].
  unfold generate, bind, mkdirpM, Walker, ret.
  unfold mkdirp. rewrite (mkdirp_at_exists _ _ _ _ Hes Hroot).
  rewrite Hsrc, Hn, How. cbn [default].
  destruct (queue_rels isBinaryPath source n) as [rels' [E Hrels']].
  rewrite E.
  rewrite (all_skip render source dest data rels' fs1 Hroot).
  - rewrite compact_none. reflexivity.
  - intros rel Hin. apply Hrels', Hrels in Hin.
    destruct (all_done _ _ _ _ _ _ _ _ _ Ha Hfr rel Hin) as [Ht Hk].
    split; auto.
    rewrite (readFile_under source rel fs1 f1 Hsrc). exact Ht.
Qed.

(** C4: a file of the source tree that is not binary and whose content is
    [Hello {{name}}] is given to the rendering engine with the data of the
    caller: with the data [{name: "World"}], for which the engine gives
    [Hello World], the file at the same place under the destination holds
    [Hello World]. *)
Theorem generate_renders_hello source dest opts fs fs' written rel :
  render (js "Hello {{name}}") [(js "name", js "World")]
  = Ok (js "Hello World") ->
  generate isBinaryPath render source dest [(js "name", js "World")] opts fs
  = (fs', Ok written) ->
  default true (o_overwrite opts) = true \/
  (lookup (dest ++ rel) fs = None /\ rel <> []) ->
  apart source dest = true ->
  lookup (source ++ rel) fs = Some (File "Hello {{name}}") ->
  isBinaryPath (source ++ rel) = false ->
  unpruned source rel = true ->
  render_or_copy render [(js "name", js "World")]
                 (utf8_decode "Hello {{name}}")
  = render (js "Hello {{name}}") [(js "name", js "World")] /\
  lookup (dest ++ rel) fs' = Some (File "Hello World") /\
  In (dest ++ rel) written.
Proof.
  intros Hr H How Hap Hl Hb Hf.
  destruct (generate_writes_text _ _ _ _ _ _ _ _ _ _ _ H How Hap Hl Hb Hf)
    as [str [Ht [Hd Hw]]].
  split; [reflexivity|].
  change (render_or_copy render [(js "name", js "World")]
                         (utf8_decode "Hello {{name}}"))
    with (render (js "Hello {{name}}") [(js "name", js "World")]) in Ht.
  rewrite Hr in Ht. inversion Ht. subst str. auto.
Qed.

(** C5, as the code has it: a file of the source tree that is not binary
    and whose text has no template marker is written under the destination
    as its text, decoded from UTF-8 and encoded again; byte for byte as it
    is when its content is well-formed UTF-8. *)
Theorem generate_copies_verbatim source dest data opts fs fs' written rel c :
  generate isBinaryPath render source dest data opts fs = (fs', Ok written) ->
  default true (o_overwrite opts) = true \/
  (lookup (dest ++ rel) fs = None /\ rel <> []) ->
  apart source dest = true ->
  lookup (source ++ rel) fs = Some (File c) ->
  isBinaryPath (source ++ rel) = false ->
  unpruned source rel = true ->
  has_marker (utf8_decode c) = false ->
  lookup (dest ++ rel) fs' = Some (File (utf8_encode (utf8_decode c))) /\
  (well_formed c = true -> lookup (dest ++ rel) fs' = Some (File c)) /\
  In (dest ++ rel) written.
Proof.
  intros H How Hap Hl Hb Hf Hm.
  destruct (generate_writes_text _ _ _ _ _ _ _ _ _ _ _ H How Hap Hl Hb Hf)
    as [str [Ht [Hd Hw]]].
  unfold render_or_copy in Ht. rewrite Hm in Ht. inversion Ht. subst str.
  split; [exact Hd|]. split; [|exact Hw].
  intros Hwf. rewrite (utf8_roundtrip c Hwf) in Hd. exact Hd.
Qed.

(** C6: no file below a directory named [.git], at any depth, is in the
    queue of the walker, in the paths [generate] resolves to, or made by
    [generate] under the destination: the walk does not read a directory
    the filter refuses. *)
Theorem git_directories_pruned source dest data opts fs pre post :
  post <> [] ->
  (forall fs1 queue,
     Walker isBinaryPath source fs = (fs1, Ok queue) ->
     ~ In (source ++ pre ++ ".git" :: post) queue) /\
  (forall fs' r,
     generate isBinaryPath render source dest data opts fs = (fs', r) ->
     (forall written, r = Ok written ->
        ~ In (dest ++ pre ++ ".git" :: post) written) /\
     (forall c,
        lookup (dest ++ pre ++ ".git" :: post) fs' = Some (File c) ->
        lookup (dest ++ pre ++ ".git" :: post) fs = Some (File c))).
Proof.
  intros Hpost. split.
  - unfold Walker. intros fs1 queue H.
    destruct (lookup source fs) as [n|]; inversion H. subst.
    intros Hin. apply filter_In in Hin. destruct Hin as [Hin _].
    exact (walk_no_git _ _ _ _ Hpost Hin).
  - intros fs' r H. split.
    + intros written -> Hin.
      destruct (generate_written _ _ _ _ _ _ _ _ _ _ H Hin)
        as [n [rel [E [Hw _]]]].
      apply app_inv_head in E. subst rel.
      exact (walk_no_git _ _ _ _ Hpost Hw).
    + intros c Hl.
      destruct (generate_new_file _ _ _ _ _ _ _ _ _ _ _ H Hl)
        as [E|[n [rel [E [Hw _]]]]]; auto.
      apply app_inv_head in E. subst rel.
      destruct (walk_no_git _ _ _ _ Hpost Hw).
Qed.

(** C7: a file the classifier calls binary is skipped, whatever its
    content: it is not in the queue, not in the paths [generate] resolves
    to, and [generate] makes no file for it under the destination; the skip
    is no error, a tree whose files are all binary gives the empty list. *)
Theorem binary_files_skipped source dest data opts fs rel :
  isBinaryPath (source ++ rel) = true ->
  (forall fs1 queue,
     Walker isBinaryPath source fs = (fs1, Ok queue) ->
     ~ In (source ++ rel) queue) /\
  (forall fs' r,
     generate isBinaryPath render source dest data opts fs = (fs', r) ->
     (forall written, r = Ok written -> ~ In (dest ++ rel) written) /\
     (forall c,
        lookup (dest ++ rel) fs' = Some (File c) ->
        lookup (dest ++ rel) fs = Some (File c))) /\
  (forall fs1 n,
     mkdirp dest fs = Ok fs1 ->
     lookup source fs1 = Some n ->
     (forall p, In p (walk source n) -> isBinaryPath p = true) ->
     generate isBinaryPath render source dest data opts fs = (fs1, Ok [])).
Proof.
  intros Hbin. split; [|split].
  - unfold Walker. intros fs1 queue H.
    destruct (lookup source fs) as [n|]; inversion H. subst.
    intros Hin. apply filter_In in Hin. destruct Hin as [_ Hin].
    rewrite Hbin in Hin. discriminate.
  - intros fs' r H. split.
    + intros written -> Hin.
      destruct (generate_written _ _ _ _ _ _ _ _ _ _ H Hin)
        as [n [rel' [E [_ Hb]]]].
      apply app_inv_head in E. subst rel'. congruence.
    + intros c Hl.
      destruct (generate_new_file _ _ _ _ _ _ _ _ _ _ _ H Hl)
        as [E|[n [rel' [E [_ Hb]]]]]; auto.
      apply app_inv_head in E. subst rel'. congruence.
  - intros fs1 n Hm Hn Hall.
    unfold generate, bind, mkdirpM, Walker, ret. rewrite Hm, Hn.
    replace (filter (fun p => negb (isBinaryPath p)) (walk source n))
      with (@nil path); [reflexivity|].
    symmetry. induction (walk source n) as [|p l IH]; auto.
    simpl. rewrite (Hall p (or_introl eq_refl)). simpl.
    apply IH. intros q Hq. apply Hall. right. exact Hq.
Qed.

(** C9: the test for a template asks for one character at least, that is
    no brace, between the opening and the closing pair; a text whose only
    braces are those of [{{}}] fails the test, is not given to the
    rendering engine, and is written as it is under the destination. *)
Theorem empty_expression_copied a b :
  no_brace a = true -> no_brace b = true ->
  (forall s,
     has_marker s = true <->
     exists pre body post,
       s = pre ++ js "{{" ++ body ++ js "}}" ++ post /\
       body <> [] /\ no_brace body = true) /\
  has_marker (a ++ js "{{}}" ++ b) = false /\
  (forall data,
     render_or_copy render data (a ++ js "{{}}" ++ b)
     = Ok (a ++ js "{{}}" ++ b)) /\
  (forall source dest data opts fs fs' written rel c,
     generate isBinaryPath render source dest data opts fs
     = (fs', Ok written) ->
     default true (o_overwrite opts) = true \/
     (lookup (dest ++ rel) fs = None /\ rel <> []) ->
     apart source dest = true ->
     lookup (source ++ rel) fs = Some (File c) ->
     utf8_decode c = a ++ js "{{}}" ++ b ->
     isBinaryPath (source ++ rel) = false ->
     unpruned source rel = true ->
     lookup (dest ++ rel) fs'
     = Some (File (utf8_encode (a ++ js "{{}}" ++ b))) /\
     (well_formed c = true -> lookup (dest ++ rel) fs' = Some (File c))).
Proof.
  intros Ha Hb.
  pose proof (empty_expression_no_marker a b Ha Hb) as Hno.
  split; [exact has_marker_spec|]. split; [exact Hno|]. split.
  - intros data. unfold render_or_copy. rewrite Hno. reflexivity.
  - intros source dest data opts fs fs' written rel c H How Hap Hl Hc Hbin Hf.
    destruct (generate_writes_text _ _ _ _ _ _ _ _ _ _ _ H How Hap Hl Hbin Hf)
      as [str [Ht [Hd _]]].
    unfold render_or_copy in Ht. rewrite Hc, Hno in Ht.
    assert (Hs : str = a ++ js "{{}}" ++ b) by congruence.
    rewrite Hs in Hd. split; [exact Hd|].
    intros Hwf. rewrite <- Hc, (utf8_roundtrip c Hwf) in Hd. exact Hd.
Qed.

(** C10: [generate] makes the destination, and what is above it, before it
    walks the source: when it resolves the destination is a directory, also
    when no file was written; and it is one already when the walk or a
    file fails. *)
Theorem generate_makes_dest source dest data opts fs fs' r :
  generate isBinaryPath render source dest data opts fs = (fs', r) ->
  (forall written, r = Ok written ->
     exists es, lookup dest fs' = Some (Dir es)) /\
  (forall fs1, mkdirp dest fs = Ok fs1 ->
     exists es, lookup dest fs' = Some (Dir es)).
Proof.
  intros H.
  assert (Hmk : forall fs1, mkdirp dest fs = Ok fs1 ->
                exists es, lookup dest fs' = Some (Dir es)).
  { intros fs1 Hm. apply kind_dir.
    exact (proj1 (generate_keeps_dest _ _ _ _ _ _ _ _ _ _ H Hm)). }
  split; auto.
  intros written ->. pose proof H as Hs. apply generate_steps in Hs.
  destruct Hs as [[e [_ [_ Hs]]]|[fs1 [Hm _]]]; [discriminate|].
  eauto.
Qed.

End GenerateClaims.

(** * The claims about [download] *)


Section DownloadClaims.

Variable xdgCachedir : path.
Variable kebabCase : string -> string.
Variable git_pull : path -> string -> string -> node -> node * option string.
Variable git_clone : string -> path -> node -> node * option string.

Local Abbreviation download' :=
  (download xdgCachedir kebabCase git_pull git_clone).
Local Abbreviation cacheRoot := (cachedir xdgCachedir []).

(** [download], step by step.  [fallback] is the handler of [.catch]. *)
Lemma download_run url opts w :
  let dest := default (destPath xdgCachedir kebabCase url) (o_dest opts) in
  let remote := default "origin" (o_remote opts) in
  let branch := default "master" (o_branch opts) in
  let fallback (fs : node) (done : list call) : world * result path :=
    if default false (o_offline opts)
    then ({| disk := fs; calls := done |}, Err (NoCacheOf url dest))
    else if through_file dest fs
    then ({| disk := fs; calls := done ++ [Rimraf dest] |},
          Err (FsError ENOTDIR dest))
    else
      let (fs', err) := git_clone url dest (rimraf dest fs) in
      ({| disk := fs'; calls := done ++ [Rimraf dest; Clone url dest] |},
       match err with
       | Some msg => Err (GitError msg)
       | None => Ok dest
       end) in
  download' url opts w =
  match mkdirp cacheRoot (disk w) with
  | Err _ => fallback (disk w) (calls w)
  | Ok fs1 =>
      match lookup dest fs1 with
      | Some (Dir _) =>
          let (fs2, err) := git_pull dest remote branch fs1 in
          match err with
          | None =>
              ({| disk := fs2; calls := calls w ++ [Pull dest remote branch] |},
               Ok dest)
          | Some _ => fallback fs2 (calls w ++ [Pull dest remote branch])
          end
      | _ => fallback fs1 (calls w)
      end
  end.
Proof.
  intros dest remote branch fallback.
  assert (Hfall : forall fs done,
    bind (if default false (o_offline opts)
          then throw (NoCacheOf url dest)
          else bind (rimrafM dest) (fun _ => cloneM git_clone url dest))
         (fun _ => ret dest)
         {| disk := fs; calls := done |} = fallback fs done).
  { intros fs done. unfold fallback.
    destruct (default false (o_offline opts)); [reflexivity|].
    unfold bind, rimrafM, cloneM, ret. cbn [disk calls].
    destruct (through_file dest fs); [reflexivity|]. cbn [disk calls].
    destruct (git_clone url dest (rimraf dest fs)) as [fs' err].
    rewrite <- app_assoc. destruct err; reflexivity. }
  unfold download. fold dest remote branch.
  unfold bind at 1. unfold catch. unfold bind at 1.
  unfold on_disk at 1. unfold mkdirpM.
  destruct (mkdirp cacheRoot (disk w)) as [fs1|e] eqn:Em.
  - unfold bind at 1. unfold on_disk, statM, stat. cbn [disk calls].
    destruct (lookup dest fs1) as [[c|es]|] eqn:El; cbn [isDirectory negb].
    + unfold throw at 1. apply (Hfall fs1 (calls w)).
    + unfold pullM. cbn [disk calls].
      destruct (git_pull dest remote branch fs1) as [fs2 [msg|]].
      * apply (Hfall fs2 (calls w ++ [Pull dest remote branch])).
      * reflexivity.
    + apply (Hfall fs1 (calls w)).
  - apply (Hfall (disk w) (calls w)).
Qed.

(** C1, as the code has it: when a file is where the working copy should
    be, the error [File exists at ...] is caught like every other one.
    With [offline] set, [download] rejects with [No cache of ...] and has
    called neither [rimraf] nor git, the disk being as it was but for the
    cache root; without it, the file is removed and the repository cloned
    in its place, and [download] resolves or rejects as [clone] does. *)
Theorem file_at_target_falls_back url opts w c :
  let dest := default (destPath xdgCachedir kebabCase url) (o_dest opts) in
  lookup dest (disk w) = Some (File c) ->
  exists fs1,
    (fs1 = disk w \/ mkdirp cacheRoot (disk w) = Ok fs1) /\
    download' url opts w =
    if default false (o_offline opts)
    then ({| disk := fs1; calls := calls w |}, Err (NoCacheOf url dest))
    else
      let (fs, err) := git_clone url dest (rimraf dest fs1) in
      ({| disk := fs; calls := calls w ++ [Rimraf dest; Clone url dest] |},
       match err with
       | Some msg => Err (GitError msg)
       | None => Ok dest
       end).
Proof.
  intros dest Hl. rewrite download_run. cbv zeta. fold dest.
  destruct (mkdirp cacheRoot (disk w)) as [fs1|e] eqn:Em.
  - exists fs1. split; auto.
    assert (Hk : lookup dest fs1 = Some (File c)).
    { apply kind_file. rewrite (mkdirp_at_kind _ _ _ _ dest Em).
      apply kind_file in Hl. rewrite Hl. reflexivity. }
    rewrite Hk, (through_file_found _ _ _ Hk). reflexivity.
  - exists (disk w). split; auto.
    rewrite (through_file_found _ _ _ Hl). reflexivity.
Qed.


(** C8: the path of a locator is the cache root, the directory of the
    templates and the kebab-case slug of the locator, whatever the root
    is, and the directory of the templates itself when the slug is empty;
    the slug of a locator within ASCII is made of lower-case letters,
    digits and hyphens only; that of [My Repo!] is [my-repo]. *)
Theorem destPath_is_slug_under_cache :
  (forall url, lodash_kebabCase url <> EmptyString ->
     destPath xdgCachedir lodash_kebabCase url
     = xdgCachedir ++ [".egad-templates"; lodash_kebabCase url]) /\
  (forall url, lodash_kebabCase url = EmptyString ->
     destPath xdgCachedir lodash_kebabCase url
     = xdgCachedir ++ [".egad-templates"]) /\
  (forall url root,
     lodash_kebabCase url <> EmptyString ->
     last (destPath root lodash_kebabCase url) EmptyString
     = lodash_kebabCase url) /\
  (forall url, ascii_text url = true ->
     is_slug (lodash_kebabCase url) = true) /\
  lodash_kebabCase "My Repo!" = "my-repo" /\
  destPath xdgCachedir lodash_kebabCase "My Repo!"
  = xdgCachedir ++ [".egad-templates"; "my-repo"] /\
  is_slug (last (destPath xdgCachedir lodash_kebabCase "My Repo!") EmptyString)
  = true.
Proof.
  assert (Hk : lodash_kebabCase "My Repo!" = "my-repo")
    by (vm_compute; reflexivity).
  assert (Hpath : forall root url, lodash_kebabCase url <> EmptyString ->
            destPath root lodash_kebabCase url
            = root ++ [".egad-templates"; lodash_kebabCase url]).
  { intros root url Hne. unfold destPath, cachedir, join_names. cbn [filter].
    destruct (String.eqb (lodash_kebabCase url) EmptyString) eqn:E.
    - apply String.eqb_eq in E. contradiction.
    - cbn [negb String.eqb]. rewrite <- app_assoc. reflexivity. }
  assert (Hne : lodash_kebabCase "My Repo!" <> EmptyString)
    by (rewrite Hk; discriminate).
  split; [exact (Hpath xdgCachedir)|]. split; [|split; [|split; [|split; [|split]]]].
  - intros url E. unfold destPath, cachedir, join_names. cbn [filter].
    rewrite E. cbn [String.eqb negb]. rewrite !app_nil_r. reflexivity.
  - intros url root H. rewrite (Hpath root url H).
    change [".egad-templates"; lodash_kebabCase url]
      with ([".egad-templates"] ++ [lodash_kebabCase url]).
    rewrite app_assoc. apply last_last.
  - exact kebabCase_slug.
  - exact Hk.
  - rewrite (Hpath _ _ Hne), Hk. reflexivity.
  - rewrite (Hpath _ _ Hne), Hk.
    change [".egad-templates"; "my-repo"]
      with ([".egad-templates"] ++ ["my-repo"]).
    rewrite app_assoc, last_last. reflexivity.
Qed.

End DownloadClaims.

(** * The claims on examples *)

(** C1, as the specification has it, fails: a file is where the working
    copy of [My Repo!] should be and [offline] is not set; [download] does
    not reject, it removes the file, clones, and resolves. *)
Lemma file_at_target_is_replaced :
  lookup ["cache"; ".egad-templates"; "my-repo"] conflict_disk
  = Some (File "not a repo") /\
  snd (download_my_repo false conflict_disk)
  = Ok ["cache"; ".egad-templates"; "my-repo"] /\
  snd (download_my_repo false conflict_disk)
  <> Err (FileExistsAt ["cache"; ".egad-templates"; "my-repo"]) /\
  calls (fst (download_my_repo false conflict_disk))
  = [Rimraf ["cache"; ".egad-templates"; "my-repo"];
     Clone "My Repo!" ["cache"; ".egad-templates"; "my-repo"]] /\
  lookup ["cache"; ".egad-templates"; "my-repo"]
         (disk (fst (download_my_repo false conflict_disk)))
  = Some (Dir []).
Proof. vm_compute. repeat split. discriminate. Qed.

Lemma file_at_target_falls_back_witness :
  lookup ["cache"; ".egad-templates"; "my-repo"] conflict_disk
  = Some (File "not a repo") /\
  exists fs1,
    (fs1 = conflict_disk \/
     mkdirp ["cache"; ".egad-templates"] conflict_disk = Ok fs1) /\
    download_my_repo true conflict_disk
    = ({| disk := fs1; calls := [] |},
       Err (NoCacheOf "My Repo!" ["cache"; ".egad-templates"; "my-repo"])).
Proof.
  split; [reflexivity|].
  pose proof (file_at_target_falls_back ["cache"] lodash_kebabCase failing_pull
           mkdir_clone "My Repo!" (offline_opts true)
           {| disk := conflict_disk; calls := [] |} "not a repo") as H.
  vm_compute in H. vm_compute. exact (H eq_refl).
Defined.



(** C3, as the specification has it, fails when the destination is inside
    the source: the second call walks what the first one wrote, and writes
    it again, one level down. *)
Lemma nested_destination_written_again :
  snd (generate_templates ["tpl"; "out"] templates_disk)
  = Ok [["tpl"; "out"; "hello.txt"]; ["tpl"; "out"; "plain.txt"];
        ["tpl"; "out"; "empty.txt"]; ["tpl"; "out"; "lib"; "LICENSE"]] /\
  snd (generate_templates ["tpl"; "out"]
         (fst (generate_templates ["tpl"; "out"] templates_disk)))
  = Ok [["tpl"; "out"; "out"; "hello.txt"]; ["tpl"; "out"; "out"; "plain.txt"];
        ["tpl"; "out"; "out"; "empty.txt"];
        ["tpl"; "out"; "out"; "lib"; "LICENSE"]] /\
  lookup ["tpl"; "out"; "out"; "hello.txt"]
         (fst (generate_templates ["tpl"; "out"] templates_disk))
  = None /\
  lookup ["tpl"; "out"; "out"; "hello.txt"]
         (fst (generate_templates ["tpl"; "out"]
                 (fst (generate_templates ["tpl"; "out"] templates_disk))))
  = Some (File "Hello World").
Proof. vm_compute. repeat split. Qed.

Lemma generate_twice_witness :
  apart ["tpl"] ["out"] = true /\
  generate_templates ["out"] templates_disk
  = (fst (generate_templates ["out"] templates_disk),
     Ok [["out"; "hello.txt"]; ["out"; "plain.txt"]; ["out"; "empty.txt"];
         ["out"; "lib"; "LICENSE"]]) /\
  o_overwrite (overwrite_opts false) = Some false /\
  generate_templates ["out"] (fst (generate_templates ["out"] templates_disk))
  = (fst (generate_templates ["out"] templates_disk), Ok []).
Proof.
  split; [reflexivity|]. split; [vm_compute; reflexivity|].
  split; [reflexivity|].
  pose proof (generate_twice png_isBinaryPath keys_render ["tpl"] ["out"]
           [(js "name", js "World")] (overwrite_opts false)
           (overwrite_opts false)
           templates_disk (fst (generate_templates ["out"] templates_disk))
           [["out"; "hello.txt"]; ["out"; "plain.txt"]; ["out"; "empty.txt"];
            ["out"; "lib"; "LICENSE"]]) as H.
  vm_compute in H. vm_compute. exact (H eq_refl eq_refl eq_refl).
Defined.

Lemma generate_renders_hello_witness :
  keys_render (js "Hello {{name}}") [(js "name", js "World")]
  = Ok (js "Hello World") /\
  lookup ["out"; "hello.txt"]
         (fst (generate_templates ["out"] templates_disk))
  = Some (File "Hello World").
Proof.
  split; [reflexivity|].
  pose proof (generate_renders_hello png_isBinaryPath keys_render ["tpl"] ["out"]
       (overwrite_opts false) templates_disk
       (fst (generate_templates ["out"] templates_disk))
       [["out"; "hello.txt"]; ["out"; "plain.txt"]; ["out"; "empty.txt"];
        ["out"; "lib"; "LICENSE"]]
       ["hello.txt"]) as H.
  assert (Hne : ["hello.txt"] <> @nil string) by discriminate.
  vm_compute in H. vm_compute.
  exact (proj1 (proj2 (H eq_refl eq_refl (or_intror (conj eq_refl Hne))
                         eq_refl eq_refl eq_refl eq_refl))).
Defined.

(** C5, as the specification has it, fails on a text that is not UTF-8:
    the byte E9 of [menu.txt] is read as U+FFFD, and written as the three
    bytes EF BF BD. *)
Lemma latin1_text_not_copied_verbatim :
  lookup ["tpl"; "menu.txt"] latin1_disk = Some (File cafe_latin1) /\
  png_isBinaryPath ["tpl"; "menu.txt"] = false /\
  has_marker (utf8_decode cafe_latin1) = false /\
  snd (generate png_isBinaryPath keys_render ["tpl"] ["out"] [] no_options
         latin1_disk)
  = Ok [["out"; "menu.txt"]] /\
  lookup ["out"; "menu.txt"]
         (fst (generate png_isBinaryPath keys_render ["tpl"] ["out"] []
                 no_options latin1_disk))
  = Some (File ("caf" ++ String (ascii_of_N 239) (String (ascii_of_N 191)
                           (String (ascii_of_N 189) EmptyString)))) /\
  lookup ["out"; "menu.txt"]
         (fst (generate png_isBinaryPath keys_render ["tpl"] ["out"] []
                 no_options latin1_disk))
  <> Some (File cafe_latin1).
Proof. vm_compute. repeat split. discriminate. Qed.

Lemma generate_copies_verbatim_witness :
  has_marker (utf8_decode "Apache-2.0") = false /\
  unpruned ["tpl"; "lib"] ["LICENSE"] = true /\
  well_formed "Apache-2.0" = true /\
  lookup ["out"; "lib"; "LICENSE"]
         (fst (generate png_isBinaryPath no_render ["tpl"; "lib"] ["out"; "lib"]
                 [] no_options templates_disk))
  = Some (File "Apache-2.0").
Proof.
  split; [reflexivity|]. split; [reflexivity|]. split; [reflexivity|].
  pose proof (generate_copies_verbatim png_isBinaryPath no_render ["tpl"; "lib"]
       ["out"; "lib"] [] no_options templates_disk
       (fst (generate png_isBinaryPath no_render ["tpl"; "lib"] ["out"; "lib"]
               [] no_options templates_disk))
       [["out"; "lib"; "LICENSE"]] ["LICENSE"] "Apache-2.0") as H.
  vm_compute in H. vm_compute.
  exact (proj1 (proj2 (H eq_refl (or_introl eq_refl) eq_refl eq_refl eq_refl
                         eq_refl eq_refl)) eq_refl).
Defined.

Lemma git_directories_pruned_witness :
  ["config"] <> [] /\
  lookup ["tpl"; ".git"; "config"] templates_disk = Some (File "[core]") /\
  forall fs1 queue,
    Walker png_isBinaryPath ["tpl"] templates_disk = (fs1, Ok queue) ->
    ~ In ["tpl"; ".git"; "config"] queue.
Proof.
  assert (Hne : ["config"] <> @nil string) by discriminate.
  split; [exact Hne|]. split; [reflexivity|].
  exact (proj1
    (git_directories_pruned png_isBinaryPath keys_render ["tpl"] ["out"] []
       no_options templates_disk [] ["config"] Hne)).
Defined.

Lemma binary_files_skipped_witness :
  png_isBinaryPath (["tpl"] ++ ["logo.png"]) = true /\
  has_marker (utf8_decode "{{name}}") = true /\
  forall fs' r,
    generate png_isBinaryPath keys_render ["tpl"] ["out"]
             [(js "name", js "World")] no_options templates_disk = (fs', r) ->
    (forall written, r = Ok written -> ~ In (["out"] ++ ["logo.png"]) written) /\
    (forall c,
       lookup (["out"] ++ ["logo.png"]) fs' = Some (File c) ->
       lookup (["out"] ++ ["logo.png"]) templates_disk = Some (File c)).
Proof.
  split; [reflexivity|]. split; [reflexivity|].
  assert (Hb : png_isBinaryPath (["tpl"] ++ ["logo.png"]) = true)
    by (vm_compute; reflexivity).
  exact (proj1 (proj2
    (binary_files_skipped png_isBinaryPath keys_render ["tpl"] ["out"]
       [(js "name", js "World")] no_options templates_disk ["logo.png"] Hb))).
Defined.

Lemma destPath_is_slug_under_cache_witness :
  lodash_kebabCase "My Repo!" = "my-repo" /\
  destPath ["cache"] lodash_kebabCase "My Repo!"
  = ["cache"] ++ [".egad-templates"; "my-repo"] /\
  is_slug (last (destPath ["cache"] lodash_kebabCase "My Repo!") EmptyString)
  = true /\
  is_slug (lodash_kebabCase "https://github.com/boneskull/egad.git") = true.
Proof.
  pose proof (destPath_is_slug_under_cache ["cache"]) as H.
  destruct H as [_ [_ [_ [Hs [Hk [Hp Hl]]]]]].
  split; [exact Hk|]. split; [exact Hp|]. split; [exact Hl|].
  apply Hs. vm_compute. reflexivity.
Defined.

Lemma empty_expression_copied_witness :
  no_brace (js "an ") = true /\ no_brace (js " expression") = true /\
  has_marker (js "an " ++ js "{{}}" ++ js " expression") = false /\
  (forall data,
     render_or_copy no_render data (js "an " ++ js "{{}}" ++ js " expression")
     = Ok (js "an " ++ js "{{}}" ++ js " expression")) /\
  lookup (["tpl"] ++ ["empty.txt"]) braces_disk
  = Some (File "an {{}} expression") /\
  generate png_isBinaryPath no_render ["tpl"] ["out"] [] no_options
           braces_disk
  = (Dir [("tpl", Dir [("empty.txt", File "an {{}} expression")]);
          ("out", Dir [("empty.txt", File "an {{}} expression")])],
     Ok [["out"; "empty.txt"]]) /\
  lookup (["out"] ++ ["empty.txt"])
         (Dir [("tpl", Dir [("empty.txt", File "an {{}} expression")]);
               ("out", Dir [("empty.txt", File "an {{}} expression")])])
  = Some (File "an {{}} expression").
Proof.
  assert (Ha : no_brace (js "an ") = true) by (vm_compute; reflexivity).
  assert (Hb : no_brace (js " expression") = true)
    by (vm_compute; reflexivity).
  assert (Hl : lookup (["tpl"] ++ ["empty.txt"]) braces_disk
               = Some (File "an {{}} expression")) by reflexivity.
  assert (Hg : generate png_isBinaryPath no_render ["tpl"] ["out"] []
                 no_options braces_disk
               = (Dir [("tpl", Dir [("empty.txt", File "an {{}} expression")]);
                       ("out", Dir [("empty.txt", File "an {{}} expression")])],
                  Ok [["out"; "empty.txt"]])) by (vm_compute; reflexivity).
  assert (Hc : utf8_decode "an {{}} expression"
               = js "an " ++ js "{{}}" ++ js " expression")
    by (vm_compute; reflexivity).
  assert (Hbin : png_isBinaryPath (["tpl"] ++ ["empty.txt"]) = false)
    by (vm_compute; reflexivity).
  assert (Hf : unpruned ["tpl"] ["empty.txt"] = true)
    by (vm_compute; reflexivity).
  assert (Hwf : well_formed "an {{}} expression" = true)
    by (vm_compute; reflexivity).
  assert (Hap : apart ["tpl"] ["out"] = true) by reflexivity.
  split; [exact Ha|]. split; [exact Hb|].
  pose proof (empty_expression_copied png_isBinaryPath no_render
                (js "an ") (js " expression") Ha Hb) as H.
  destruct H as [_ [Hno [Hr Hcopy]]].
  split; [exact Hno|]. split; [exact Hr|]. split; [exact Hl|].
  split; [exact Hg|].
  exact (proj2 (Hcopy ["tpl"] ["out"] [] no_options braces_disk _ _
                  ["empty.txt"] "an {{}} expression" Hg (or_introl eq_refl)
                  Hap Hl Hc Hbin Hf) Hwf).
Defined.

Lemma generate_makes_dest_witness :
  generate png_isBinaryPath keys_render ["tpl"] ["site"; "out"] [] no_options
           empty_source_disk
  = (Dir [("tpl", Dir []); ("site", Dir [("out", Dir [])])], Ok []) /\
  exists es,
    lookup ["site"; "out"]
           (Dir [("tpl", Dir []); ("site", Dir [("out", Dir [])])])
    = Some (Dir es).
Proof.
  assert (Hg : generate png_isBinaryPath keys_render ["tpl"] ["site"; "out"]
                 [] no_options empty_source_disk
               = (Dir [("tpl", Dir []); ("site", Dir [("out", Dir [])])],
                  Ok [])) by (vm_compute; reflexivity).
  split; [exact Hg|].
  exact (proj1
    (generate_makes_dest png_isBinaryPath keys_render ["tpl"] ["site"; "out"]
       [] no_options empty_source_disk _ _ Hg) [] eq_refl).
Defined.

(** * More of [generate] *)

(** ** The queue, file by file *)

(** Flag ['wx'] writes where nothing is only. *)
Lemma writeFile_at_excl_new full str q n n' :
  writeFile_at full q str true n = Ok n' -> lookup q n = None.
Proof.
  intros H. destruct (lookup q n) as [m|] eqn:E; auto.
  rewrite (writeFile_at_exists full str q n m E) in H. discriminate.
Qed.

(** Flag ['w'] on a directory fails with [EISDIR]. *)
Lemma writeFile_at_dir full str q : forall n es,
  lookup q n = Some (Dir es) ->
  writeFile_at full q str false n = Err (FsError EISDIR full).
Proof.
  induction q as [|s q IH]; intros n es H.
  - simpl in H. inversion H. reflexivity.
  - destruct n as [c|es0]; simpl in *; [discriminate|].
    destruct (assoc s es0) as [ch|]; [|discriminate].
    rewrite (IH _ _ H). reflexivity.
Qed.

(** Flag ['w'] with the content a file has leaves the disk as it is. *)
Lemma writeFile_at_same full str q : forall n,
  lookup q n = Some (File str) ->
  writeFile_at full q str false n = Ok n.
Proof.
  induction q as [|s q IH]; intros n H.
  - simpl in H. inversion H. reflexivity.
  - destruct n as [c|es]; simpl in *; [discriminate|].
    destruct (assoc s es) as [ch|] eqn:Ea; [|discriminate].
    rewrite (IH _ H), (update_same _ _ _ Ea). reflexivity.
Qed.

Lemma compact_some {A B} (f : B -> A) (l : list B) :
  compact (map (fun b => Some (f b)) l) = map f l.
Proof. induction l; simpl; congruence. Qed.

Section MoreQueue.

Variable render : jsstring -> Data -> result jsstring.
Variables source dest : path.
Variable data : Data.

Local Abbreviation J ow := (job render source dest data ow).
Local Abbreviation text fs rel :=
  (rbind (readFile (source ++ rel) fs) (render_or_copy render data)).
Local Abbreviation jobs ow rels := (map (J ow) (map (app source) rels)).

(** With flag ['wx'] a job leaves all that exists as it is. *)
Lemma job_excl_keeps rel fs fs' r p k :
  J false (source ++ rel) fs = (fs', r) ->
  kind p fs = Some k -> kind p fs' = Some k.
Proof.
  intros H Hk. apply job_steps in H. destruct H as [fs1 [H1 H2]].
  assert (E1 : kind p fs1 = Some k).
  { destruct H1 as [->|H1]; auto.
    rewrite (mkdirp_at_kind _ _ _ _ p H1), Hk. reflexivity. }
  destruct H2 as [[-> _]|[_ [str Hw]]]; auto.
  rewrite (writeFile_at_kind _ _ _ _ _ _ p Hw); auto.
  intros ->. apply writeFile_at_excl_new in Hw.
  unfold kind in E1. rewrite Hw in E1. discriminate.
Qed.

Lemma all_excl_keeps p k : forall rels fs fs' r,
  all (jobs false rels) fs = (fs', r) ->
  kind p fs = Some k -> kind p fs' = Some k.
Proof.
  induction rels as [|rel rels IH]; intros fs fs' r H Hk.
  - inversion H. subst. exact Hk.
  - apply all_cons_inv in H. destruct H as [s1 [r1 [r2 [H1 [H2 _]]]]].
    apply (IH _ _ _ H2). apply (job_excl_keeps _ _ _ _ _ _ H1 Hk).
Qed.

(** With flag ['wx'] the paths the queue resolves to did not exist. *)
Lemma all_excl_written p : forall rels fs fs' written,
  all (jobs false rels) fs = (fs', Ok written) ->
  In p (compact written) -> kind p fs = None.
Proof.
  induction rels as [|rel rels IH]; intros fs fs' written H Hin.
  - inversion H. subst. contradiction.
  - apply all_cons_ok in H. destruct H as [s1 [o [l' [H1 [H2 ->]]]]].
    destruct (kind p fs) as [k|] eqn:Hk; auto. exfalso.
    pose proof (job_excl_keeps _ _ _ _ _ _ H1 Hk) as Hk1.
    assert (Hrest : ~ In p (compact l')).
    { intros Hl. rewrite (IH _ _ _ H2 Hl) in Hk1. discriminate. }
    destruct o as [y|]; simpl in Hin; auto.
    destruct Hin as [<-|Hin]; auto.
    apply job_ok in H1.
    destruct H1 as [str [fs1 [_ [Hm [[Ho Hw]|[Ho _]]]]]]; inversion Ho.
    subst y. apply writeFile_at_excl_new in Hw.
    pose proof (mkdirp_at_kind _ _ _ _ (dest ++ rel) Hm) as E.
    rewrite Hk in E. unfold kind in E. rewrite Hw in E. discriminate.
Qed.

(** A job leaves a file a file and a directory a directory. *)
Lemma job_keeps_class overwrite rel fs fs' r p k :
  J overwrite (source ++ rel) fs = (fs', r) ->
  kind p fs = Some k ->
  exists k', kind p fs' = Some k' /\ (k = None <-> k' = None).
Proof.
  intros H Hk. destruct k as [c|].
  - destruct (job_kind _ _ _ _ _ _ _ _ _ _ _ H Hk) as [E|[-> ->]].
    + exists (Some c). split; auto. tauto.
    + apply job_ok in H.
      destruct H as [str [fs1 [_ [_ [[_ Hw]|[Ho _]]]]]]; [|discriminate].
      exists (Some (utf8_encode str)). split.
      * apply kind_file. exact (writeFile_at_written _ _ _ _ _ _ Hw).
      * split; discriminate.
  - exists None. split; [|tauto]. exact (job_dir_stays _ _ _ _ _ _ _ _ _ _ H Hk).
Qed.

Lemma all_keeps_class overwrite p : forall rels fs fs' r k,
  all (jobs overwrite rels) fs = (fs', r) ->
  kind p fs = Some k ->
  exists k', kind p fs' = Some k' /\ (k = None <-> k' = None).
Proof.
  induction rels as [|rel rels IH]; intros fs fs' r k H Hk.
  - inversion H. subst. exists k. split; auto. tauto.
  - apply all_cons_inv in H. destruct H as [s1 [r1 [r2 [H1 [H2 _]]]]].
    destruct (job_keeps_class _ _ _ _ _ _ _ H1 Hk) as [k1 [Hk1 E1]].
    destruct (IH _ _ _ _ H2 Hk1) as [k2 [Hk2 E2]].
    exists k2. split; auto. tauto.
Qed.

(** What is not the destination of a file of the queue is left of the kind
    it was. *)
Lemma all_kind_other overwrite p k : forall rels fs fs' r,
  all (jobs overwrite rels) fs = (fs', r) ->
  (forall rel, In rel rels -> p <> dest ++ rel) ->
  kind p fs = Some k -> kind p fs' = Some k.
Proof.
  induction rels as [|rel rels IH]; intros fs fs' r H Hne Hk.
  - inversion H. subst. exact Hk.
  - apply all_cons_inv in H. destruct H as [s1 [r1 [r2 [H1 [H2 _]]]]].
    apply (IH _ _ _ H2).
    + intros; apply Hne; right; assumption.
    + destruct (job_kind _ _ _ _ _ _ _ _ _ _ _ H1 Hk) as [E|[E _]]; auto.
      destruct (Hne rel (or_introl eq_refl) E).
Qed.

(** With flag ['w'] the queue resolves to the destinations of all its
    files, in order. *)
Lemma all_written_all : forall rels fs fs' written,
  all (jobs true rels) fs = (fs', Ok written) ->
  compact written = map (app dest) rels.
Proof.
  induction rels as [|rel rels IH]; intros fs fs' written H.
  - inversion H. reflexivity.
  - apply all_cons_ok in H. destruct H as [s1 [o [l' [H1 [H2 ->]]]]].
    apply job_ok_written in H1. destruct H1 as [str [_ [_ ->]]].
    simpl. rewrite (IH _ _ _ H2). reflexivity.
Qed.

(** With flag ['w'], on a disk where the destination of each file of the
    queue holds its text already, the queue writes the same again: the disk
    is as it was. *)
Lemma all_rewrite : forall rels fs,
  isDirectory fs = true ->
  (forall rel, In rel rels ->
     exists str, text fs rel = Ok str /\
       kind (dest ++ rel) fs = Some (Some (utf8_encode str))) ->
  all (jobs true rels) fs
  = (fs, Ok (map (fun rel => Some (dest ++ rel)) rels)).
Proof.
  induction rels as [|rel rels IH]; intros fs Hd H.
  - reflexivity.
  - cbn [map all]. rewrite job_under. cbv zeta.
    destruct (H rel (or_introl eq_refl)) as [str [Ht Hk]].
    apply kind_file in Hk.
    destruct (lookup_dirname _ _ _ Hk Hd) as [es Hes].
    unfold mkdirp. rewrite (mkdirp_at_exists _ _ _ _ Hes Hd).
    rewrite Ht. unfold writeFile. simpl negb.
    rewrite (writeFile_at_same _ _ _ _ Hk).
    rewrite IH; auto. intros r Hr. apply H. right. exact Hr.
Qed.

(** A file whose text cannot be read or rendered is not written. *)
Lemma all_failed_text overwrite rel e x : forall rels fs fs' r,
  all (jobs overwrite rels) fs = (fs', r) ->
  (forall rel0, In rel0 rels -> is_prefix source (dest ++ rel0) = false) ->
  text fs rel = Err e ->
  kind (dest ++ rel) fs' = Some (Some x) ->
  kind (dest ++ rel) fs = Some (Some x).
Proof.
  induction rels as [|rel0 rels IH]; intros fs fs' r H Hp Ht Hk.
  - inversion H. subst. exact Hk.
  - apply all_cons_inv in H. destruct H as [s1 [r1 [r2 [H1 [H2 _]]]]].
    assert (Hfr : lookup source s1 = lookup source fs).
    { apply (job_frame _ _ _ _ _ _ _ _ _ _ H1). apply Hp. left. reflexivity. }
    assert (Hk1 : kind (dest ++ rel) s1 = Some (Some x)).
    { apply (IH _ _ _ H2); auto.
      - intros; apply Hp; right; assumption.
      - rewrite (readFile_under source rel s1 fs Hfr). exact Ht. }
    destruct (job_new_file _ _ _ _ _ _ _ _ _ _ _ H1 Hk1) as [E|[E Hr]]; auto.
    apply app_inv_head in E. subst rel0. subst r1.
    apply job_ok in H1. destruct H1 as [str [_ [Ht' _]]].
    rewrite Ht in Ht'. discriminate.
Qed.

End MoreQueue.

(** ** [generate] as a whole *)

Lemma lookup_mkchain_app p : forall r,
  lookup p (mkchain (p ++ r)) = Some (mkchain r).
Proof.
  induction p as [|s p IH]; intros r; simpl.
  - reflexivity.
  - rewrite String.eqb_refl. apply IH.
Qed.

(** [mkdirp] makes what is not there as a chain of empty directories. *)
Lemma mkdirp_at_new full p : forall r n n',
  mkdirp_at full (p ++ r) n = Ok n' ->
  lookup p n = None ->
  lookup p n' = Some (mkchain r).
Proof.
  induction p as [|s p IH]; intros r n n' H Hl.
  - discriminate.
  - destruct n as [c|es]; simpl in H; [discriminate|].
    simpl in Hl. simpl.
    destruct (assoc s es) as [ch|] eqn:Ea.
    + destruct (mkdirp_at full (p ++ r) ch) as [ch'|e] eqn:Em;
        inversion H; subst n'.
      simpl. rewrite assoc_update_same, Ea. eauto.
    + inversion H; subst n'. simpl.
      rewrite (assoc_app_new s s _ es Ea), String.eqb_refl.
      apply lookup_mkchain_app.
Qed.

(** The walk of directories that hold no file emits nothing. *)
Lemma walk_mkchain r : forall entry, walk entry (mkchain r) = [].
Proof.
  induction r as [|s r IH]; intros entry; simpl;
    destruct (filterDir entry); auto.
  simpl. rewrite IH. reflexivity.
Qed.

Lemma substring_split (b : string) : forall k,
  k <= String.length b ->
  b = (substring 0 k b ++ substring k (String.length b - k) b)%string.
Proof.
  induction b as [|c b IH]; intros k Hk.
  - destruct k; reflexivity.
  - destruct k as [|k].
    + simpl. rewrite substring_all. reflexivity.
    + simpl in *. f_equal. apply IH. lia.
Qed.

(** A string ends as its end does. *)
Lemma endsWith_after (t a b : string) :
  endsWith t b = true -> endsWith t (a ++ b) = true.
Proof.
  unfold endsWith. intros H.
  destruct (String.length t <=? String.length b)%nat eqn:El; [|discriminate].
  apply Nat.leb_le in El. apply String.eqb_eq in H.
  rewrite (substring_split b (String.length b - String.length t)) by lia.
  replace (String.length b - (String.length b - String.length t))
    with (String.length t) by lia.
  rewrite H, <- append_assoc. apply endsWith_append.
Qed.

(** The filter refuses a directory whose name ends in [.git]. *)
Lemma filterDir_git_suffix p name :
  endsWith ".git" name = true -> filterDir (p ++ [name]) = false.
Proof.
  intros H. unfold filterDir. rewrite path_string_app.
  cbn [path_string].
  replace (name ++ EmptyString)%string with name
    by (clear H; induction name; simpl; congruence).
  rewrite endsWith_after; [reflexivity|].
  exact (endsWith_after ".git" "/" name H).
Qed.

Lemma through_file_mkchain q : forall r, through_file q (mkchain r) = false.
Proof.
  induction q as [|t q IH]; intros r; [reflexivity|].
  destruct r as [|s r]; [reflexivity|]. simpl.
  destruct (String.eqb s t); auto.
Qed.

(** [mkdirp] makes directories only: a path that led through a file still
    does, and no other. *)
Lemma mkdirp_at_through_file full p : forall n n' q,
  mkdirp_at full p n = Ok n' -> through_file q n' = through_file q n.
Proof.
  induction p as [|s p IH]; intros n n' q H.
  - destruct n; simpl in H; inversion H; reflexivity.
  - destruct n as [c|es]; [discriminate|]. simpl in H.
    destruct (assoc s es) as [ch|] eqn:Ea.
    + destruct (mkdirp_at full p ch) as [ch'|e] eqn:Em; inversion H. subst.
      destruct q as [|t q]; [reflexivity|]. simpl.
      destruct (String.eqb s t) eqn:Est.
      * apply String.eqb_eq in Est. subst t.
        rewrite assoc_update_same, Ea. apply (IH _ _ _ Em).
      * rewrite (assoc_update_other _ _ _ _ Est). reflexivity.
    + inversion H. subst.
      destruct q as [|t q]; [reflexivity|]. simpl.
      rewrite (assoc_app_new _ t _ _ Ea).
      destruct (String.eqb s t) eqn:Est.
      * apply String.eqb_eq in Est. subst t. rewrite Ea.
        apply through_file_mkchain.
      * reflexivity.
Qed.

(** A path leads through a file when a file is at a part of it that is
    not the whole. *)
Lemma through_file_spec p : forall n,
  through_file p n = true <->
  exists up rest c, p = up ++ rest /\ rest <> [] /\ lookup up n = Some (File c).
Proof.
  induction p as [|s p IH]; intros n.
  - split; [discriminate|].
    intros [up [rest [c [E [Hne _]]]]]. symmetry in E.
    apply app_eq_nil in E. tauto.
  - destruct n as [c|es]; simpl.
    + split; auto. intros _. exists [], (s :: p), c.
      repeat split. discriminate.
    + destruct (assoc s es) as [ch|] eqn:Ea.
      * rewrite IH. split.
        -- intros [up [rest [c [-> [Hne Hl]]]]].
           exists (s :: up), rest, c. simpl. rewrite Ea. auto.
        -- intros [up [rest [c [E [Hne Hl]]]]].
           destruct up as [|t up].
           ++ simpl in Hl. discriminate.
           ++ simpl in E. inversion E. subst t p.
              simpl in Hl. rewrite Ea in Hl. exists up, rest, c. auto.
      * split; [discriminate|].
        intros [up [rest [c [E [Hne Hl]]]]].
        destruct up as [|t up]; [discriminate|].
        simpl in E. inversion E. subst t.
        simpl in Hl. rewrite Ea in Hl. discriminate.
Qed.

Section MoreGenerate.

Variable isBinaryPath : path -> bool.
Variable render : jsstring -> Data -> result jsstring.

Local Abbreviation queue_of source n :=
  (filter (fun p => negb (isBinaryPath p)) (walk source n)).

(** [generate], step by step. *)
Lemma generate_run source dest data opts fs :
  generate isBinaryPath render source dest data opts fs =
  match mkdirp dest fs with
  | Err e => (fs, Err e)
  | Ok fs1 =>
      match lookup source fs1 with
      | None => (fs1, Err (FsError (missing source fs1) source))
      | Some n =>
          let (fs2, r) :=
            all (map (job render source dest data
                          (default true (o_overwrite opts)))
                     (queue_of source n)) fs1 in
          (fs2, match r with
                | Ok written => Ok (compact written)
                | Err e => Err e
                end)
      end
  end.
Proof.
  unfold generate, bind, mkdirpM, Walker, ret.
  destruct (mkdirp dest fs) as [fs1|e]; auto.
  destruct (lookup source fs1) as [n|]; auto.
  destruct (all _ fs1) as [fs2 [w|e]]; reflexivity.
Qed.

Lemma map_destFilepath source dest rels :
  map (fun p => join dest (relative source p)) (map (app source) rels)
  = map (app dest) rels.
Proof.
  induction rels as [|rel rels IH]; simpl; auto.
  rewrite destFilepath_under, IH. reflexivity.
Qed.

(** X1: with [overwrite] true, the default, [generate] resolves to the
    destinations of the files of the queue, each once and none left out;
    the order of the list is that in which the walker came upon the files,
    which is not told here. *)
Theorem generate_returns_queue source dest data opts fs fs' written :
  generate isBinaryPath render source dest data opts fs = (fs', Ok written) ->
  default true (o_overwrite opts) = true ->
  exists fs1 n,
    mkdirp dest fs = Ok fs1 /\ lookup source fs1 = Some n /\
    Permutation written
      (map (fun p => join dest (relative source p)) (queue_of source n)).
Proof.
  rewrite generate_run. intros H How. rewrite How in H.
  destruct (mkdirp dest fs) as [fs1|e]; [|discriminate].
  destruct (lookup source fs1) as [n|] eqn:Hn; [|discriminate].
  exists fs1, n. split; [reflexivity|]. split; [exact Hn|].
  destruct (queue_rels isBinaryPath source n) as [rels [E _]].
  rewrite E in *.
  destruct (all _ fs1) as [fs2 [w|e]] eqn:Ha; inversion H. subst.
  rewrite (all_written_all _ _ _ _ _ _ _ _ Ha), map_destFilepath.
  apply Permutation_refl.
Qed.

(** X2: with [overwrite] false, [generate] neither changes nor replaces a
    file that is there, whether it resolves or rejects, and no path it
    resolves to was there before. *)
Theorem generate_spares_existing source dest data opts fs fs' r :
  o_overwrite opts = Some false ->
  generate isBinaryPath render source dest data opts fs = (fs', r) ->
  (forall p c, lookup p fs = Some (File c) -> lookup p fs' = Some (File c)) /\
  (forall written p, r = Ok written -> In p written -> lookup p fs = None).
Proof.
  intros How. rewrite generate_run, How. cbn [default]. intros H.
  destruct (mkdirp dest fs) as [fs1|e] eqn:Em.
  - assert (Hmk : forall p k, kind p fs = Some k -> kind p fs1 = Some k).
    { intros p k Hk. rewrite (mkdirp_at_kind _ _ _ _ p Em), Hk. reflexivity. }
    destruct (lookup source fs1) as [n|].
    + destruct (queue_rels isBinaryPath source n) as [rels [E _]].
      rewrite E in H.
      destruct (all _ fs1) as [fs2 r2] eqn:Ha. inversion H. subst. split.
      * intros p c Hl. apply kind_file. apply kind_file in Hl.
        eapply all_excl_keeps; eauto.
      * intros written p Hr Hin. destruct r2 as [w|e]; inversion Hr. subst.
        pose proof (all_excl_written _ _ _ _ _ _ _ _ _ Ha Hin) as Hk.
        destruct (kind p fs) as [k|] eqn:Hk0.
        -- rewrite (Hmk _ _ Hk0) in Hk. discriminate.
        -- unfold kind in Hk0. destruct (lookup p fs) as [[|]|]; auto;
             discriminate.
    + inversion H. subst. split.
      * intros p c Hl. apply kind_file. apply kind_file in Hl. auto.
      * intros written p Hr. discriminate.
  - inversion H. subst. split; auto. intros written p Hr. discriminate.
Qed.

(** X3: [generate] removes nothing: whatever its options and whether it
    resolves or rejects, a directory that is there stays a directory and a
    file stays a file. *)
Theorem generate_never_removes source dest data opts fs fs' r :
  generate isBinaryPath render source dest data opts fs = (fs', r) ->
  (forall p es, lookup p fs = Some (Dir es) ->
     exists es', lookup p fs' = Some (Dir es')) /\
  (forall p c, lookup p fs = Some (File c) ->
     exists c', lookup p fs' = Some (File c')).
Proof.
  rewrite generate_run. intros H.
  assert (Hall : forall p k, kind p fs = Some k ->
            exists k', kind p fs' = Some k' /\ (k = None <-> k' = None)).
  { intros p k Hk.
    destruct (mkdirp dest fs) as [fs1|e] eqn:Em.
    - assert (Hk1 : kind p fs1 = Some k)
        by (rewrite (mkdirp_at_kind _ _ _ _ p Em), Hk; reflexivity).
      destruct (lookup source fs1) as [n|].
      + destruct (queue_rels isBinaryPath source n) as [rels [E _]].
        rewrite E in H.
        destruct (all _ fs1) as [fs2 r2] eqn:Ha. inversion H. subst.
        eapply all_keeps_class; eauto.
      + inversion H. subst. exists k. split; auto. tauto.
    - inversion H. subst. exists k. split; auto. tauto. }
  split.
  - intros p es Hl. apply kind_dir.
    destruct (Hall p None) as [k' [Hk' E]].
    + apply kind_dir. eauto.
    + rewrite Hk'. f_equal. apply E. reflexivity.
  - intros p c Hl. apply kind_file in Hl.
    destruct (Hall p (Some c) Hl) as [[c'|] [Hk' E]].
    + exists c'. apply kind_file. exact Hk'.
    + destruct E as [_ E]. discriminate (E eq_refl).
Qed.

(** X4: [generate] writes under the destination only: a file that is not
    under it is after the call what it was before, and so is all that is
    neither under the destination nor above it; the source tree is left as
    it was when the two are apart. *)
Theorem generate_confined source dest data opts fs fs' r :
  generate isBinaryPath render source dest data opts fs = (fs', r) ->
  (forall p c, is_prefix dest p = false ->
     (lookup p fs' = Some (File c) <-> lookup p fs = Some (File c))) /\
  (forall p, is_prefix dest p = false -> is_prefix p dest = false ->
     lookup p fs' = lookup p fs) /\
  (apart source dest = true -> lookup source fs' = lookup source fs).
Proof.
  intros H.
  assert (Hframe : forall p, is_prefix dest p = false ->
            is_prefix p dest = false -> lookup p fs' = lookup p fs).
  { intros p Hd Hp. rewrite generate_run in H.
    destruct (mkdirp dest fs) as [fs1|e] eqn:Em.
    - rewrite <- (mkdirp_at_frame _ _ _ _ p Em Hp).
      destruct (lookup source fs1) as [n|].
      + destruct (queue_rels isBinaryPath source n) as [rels [E _]].
        rewrite E in H.
        destruct (all _ fs1) as [fs2 r2] eqn:Ha. inversion H. subst.
        eapply all_frame; eauto.
        intros rel _. destruct (is_prefix p (dest ++ rel)) eqn:E'; auto.
        apply is_prefix_of_app in E'. destruct E'; congruence.
      + inversion H. reflexivity.
    - inversion H. reflexivity. }
  split; [|split]; auto.
  - intros p c Hd. split.
    + intros Hl.
      destruct (generate_new_file _ _ _ _ _ _ _ _ _ _ _ H Hl)
        as [E|[n [rel [E _]]]]; auto.
      subst p. rewrite is_prefix_app in Hd. discriminate.
    + intros Hl. apply kind_file. apply kind_file in Hl.
      rewrite generate_run in H.
      destruct (mkdirp dest fs) as [fs1|e] eqn:Em.
      * assert (Hk1 : kind p fs1 = Some (Some c))
          by (rewrite (mkdirp_at_kind _ _ _ _ p Em), Hl; reflexivity).
        destruct (lookup source fs1) as [n|].
        -- destruct (queue_rels isBinaryPath source n) as [rels [E _]].
           rewrite E in H.
           destruct (all _ fs1) as [fs2 r2] eqn:Ha. inversion H. subst.
           eapply all_kind_other; eauto.
           intros rel _ ->. rewrite is_prefix_app in Hd. discriminate.
        -- inversion H. subst. exact Hk1.
      * inversion H. subst. exact Hl.
  - intros Hap. unfold apart in Hap. apply andb_prop in Hap.
    destruct Hap as [H1 H2]. apply negb_true_iff in H1, H2. auto.
Qed.

(** X5: with [overwrite] true, a second [generate] over a source and a
    destination that are apart, after a first one that resolved, resolves
    to the same paths, whatever their order, and leaves the disk as the
    first left it: each file is written again with the same content. *)
Theorem generate_again_same source dest data opts1 opts2 fs fs1 written :
  apart source dest = true ->
  generate isBinaryPath render source dest data opts1 fs = (fs1, Ok written) ->
  default true (o_overwrite opts1) = true ->
  default true (o_overwrite opts2) = true ->
  exists again,
    generate isBinaryPath render source dest data opts2 fs1
    = (fs1, Ok again) /\
    Permutation again written.
Proof.
  intros Hap H1 How1 How2. exists written. split; [|apply Permutation_refl].
  pose proof H1 as Hrun. rewrite generate_run, How1 in Hrun.
  destruct (mkdirp dest fs) as [f1|e] eqn:Hm; [|discriminate].
  destruct (generate_keeps_dest _ _ _ _ _ _ _ _ _ _ H1 Hm) as [Hdest Hroot].
  destruct (lookup source f1) as [n|] eqn:Hn; [|discriminate].
  destruct (queue_rels isBinaryPath source n) as [rels [E _]].
  rewrite E in Hrun.
  destruct (all _ f1) as [f2 [w|e]] eqn:Ha; inversion Hrun. subst. clear Hrun.
  assert (Hfr : forall rel, In rel rels -> is_prefix source (dest ++ rel) = false)
    by (intros; apply apart_under; exact Hap).
  assert (Hsrc : lookup source fs1 = lookup source f1)
    by (eapply all_frame; eauto).
  apply kind_dir in Hdest. destruct Hdest as [es Hes].
  rewrite generate_run, How2.
  unfold mkdirp. rewrite (mkdirp_at_exists _ _ _ _ Hes Hroot).
  rewrite Hsrc, Hn, E.
  rewrite (all_rewrite render source dest data rels fs1 Hroot).
  - rewrite (all_written_all _ _ _ _ _ _ _ _ Ha).
    rewrite (compact_some (app dest)). reflexivity.
  - intros rel Hin.
    destruct (all_writes _ _ _ _ _ _ _ _ Ha Hfr rel Hin) as [str [Ht [Hk _]]].
    exists str. split; auto.
    rewrite (readFile_under source rel fs1 f1 Hsrc). exact Ht.
Qed.

(** X6: when the source does not exist, [generate] has made the
    destination all the same; it rejects with the error of [lstat],
    [ENOTDIR] when a file is on the way of the source and [ENOENT] when a
    name is missing, unless the destination is under the source: the
    source is then made with the destination, holds no file, and
    [generate] resolves to the empty list. *)
Theorem generate_missing_source source dest data opts fs fs1 :
  lookup source fs = None ->
  mkdirp dest fs = Ok fs1 ->
  generate isBinaryPath render source dest data opts fs
  = (fs1, if is_prefix source dest then Ok []
          else Err (FsError (missing source fs) source)) /\
  ((exists up rest c,
      source = up ++ rest /\ rest <> [] /\ lookup up fs = Some (File c)) ->
   missing source fs = ENOTDIR) /\
  ((forall up rest c,
      source = up ++ rest -> lookup up fs <> Some (File c)) ->
   missing source fs = ENOENT).
Proof.
  intros Hl Hm. split; [|split].
  - rewrite generate_run, Hm.
    destruct (is_prefix source dest) eqn:Ep.
    + apply is_prefix_spec in Ep. destruct Ep as [rest ->].
      unfold mkdirp in Hm.
      rewrite (mkdirp_at_new _ _ _ _ _ Hm Hl), walk_mkchain. reflexivity.
    + rewrite (mkdirp_at_frame _ _ _ _ _ Hm Ep), Hl.
      unfold missing. unfold mkdirp in Hm.
      rewrite (mkdirp_at_through_file _ _ _ _ source Hm). reflexivity.
  - intros H. unfold missing. apply through_file_spec in H. rewrite H.
    reflexivity.
  - intros H. unfold missing.
    destruct (through_file source fs) eqn:E; [|reflexivity].
    apply through_file_spec in E. destruct E as [up [rest [c [E [_ Hf]]]]].
    destruct (H up rest c E Hf).
Qed.

(** X7: when the source is a file that is not binary, its destination is
    the destination directory itself: with [overwrite] true the write
    fails and [generate] rejects with [EISDIR]; with [overwrite] false the
    write fails with [EEXIST], which is passed over, and [generate]
    resolves to the empty list.  No file is written. *)
Theorem generate_source_is_file source dest data opts fs fs1 c str :
  lookup source fs = Some (File c) ->
  isBinaryPath source = false ->
  mkdirp dest fs = Ok fs1 ->
  render_or_copy render data (utf8_decode c) = Ok str ->
  generate isBinaryPath render source dest data opts fs
  = (fs1, if default true (o_overwrite opts)
          then Err (FsError EISDIR dest) else Ok []).
Proof.
  intros Hl Hb Hm Ht. rewrite generate_run, Hm.
  assert (Hl1 : lookup source fs1 = Some (File c)).
  { apply kind_file. rewrite (mkdirp_at_kind _ _ _ _ source Hm).
    apply kind_file in Hl. rewrite Hl. reflexivity. }
  rewrite Hl1. cbn [walk filter]. rewrite Hb. cbn [negb map all].
  pose proof (job_under render source dest data
                (default true (o_overwrite opts)) [] fs1) as Hj.
  rewrite !app_nil_r in Hj. rewrite Hj. cbv zeta.
  pose proof (mkdirp_at_made _ _ _ _ Hm) as Hd. apply kind_dir in Hd.
  destruct Hd as [es Hes].
  pose proof (proj2 (mkdirp_at_root_dir _ _ _ _ Hm)) as Hroot.
  destruct (lookup_dirname _ _ _ Hes Hroot) as [es' Hes'].
  unfold mkdirp. rewrite (mkdirp_at_exists _ _ _ _ Hes' Hroot).
  unfold readFile. rewrite Hl1. cbn [rbind]. rewrite Ht.
  unfold writeFile. destruct (default true (o_overwrite opts)); cbn [negb].
  - rewrite (writeFile_at_dir _ _ _ _ _ Hes). reflexivity.
  - rewrite (writeFile_at_exists _ _ _ _ _ Hes). reflexivity.
Qed.

(** X8: the filter of the walk looks at the end of the path of a
    directory, not at its name: a directory below the source whose name
    only ends in [.git], as [repo.git], is not read either.  No file below
    it is in the queue of the walker, in the paths [generate] resolves to,
    or made by [generate] under the destination. *)
Theorem git_suffix_pruned source dest data opts fs name pre post :
  endsWith ".git" name = true ->
  post <> [] ->
  (forall fs1 queue,
     Walker isBinaryPath source fs = (fs1, Ok queue) ->
     ~ In (source ++ pre ++ name :: post) queue) /\
  (forall fs' r,
     generate isBinaryPath render source dest data opts fs = (fs', r) ->
     (forall written, r = Ok written ->
        ~ In (dest ++ pre ++ name :: post) written) /\
     (forall c,
        lookup (dest ++ pre ++ name :: post) fs' = Some (File c) ->
        lookup (dest ++ pre ++ name :: post) fs = Some (File c))).
Proof.
  intros Hname Hpost.
  assert (Hwalk : forall n, ~ In (source ++ pre ++ name :: post) (walk source n)).
  { intros n Hin. apply walk_sound in Hin. destruct Hin as [rel [E Hrel]].
    apply app_inv_head in E. subst rel.
    destruct post as [|y post]; [congruence|].
    specialize (Hrel (pre ++ [name]) y post).
    rewrite <- app_assoc in Hrel. specialize (Hrel eq_refl).
    rewrite app_assoc, filterDir_git_suffix in Hrel; auto. discriminate. }
  split.
  - intros fs1 queue. unfold Walker.
    destruct (lookup source fs) as [n|]; intros H; inversion H. subst.
    intros Hin. apply filter_In in Hin. destruct Hin as [Hin _].
    exact (Hwalk _ Hin).
  - intros fs' r H. split.
    + intros written -> Hin.
      destruct (generate_written _ _ _ _ _ _ _ _ _ _ H Hin)
        as [n [rel [E [Hw _]]]].
      apply app_inv_head in E. subst rel. exact (Hwalk _ Hw).
    + intros c Hl.
      destruct (generate_new_file _ _ _ _ _ _ _ _ _ _ _ H Hl)
        as [E|[n [rel [E [Hw _]]]]]; auto.
      apply app_inv_head in E. subst rel. destruct (Hwalk _ Hw).
Qed.

(** X9: when the text of a file of the queue cannot be rendered,
    [generate] rejects, and has written nothing for that file: what is at
    its destination was there before. *)
Theorem generate_render_failure source dest data opts fs fs' r rel c e :
  generate isBinaryPath render source dest data opts fs = (fs', r) ->
  apart source dest = true ->
  lookup (source ++ rel) fs = Some (File c) ->
  isBinaryPath (source ++ rel) = false ->
  unpruned source rel = true ->
  render_or_copy render data (utf8_decode c) = Err e ->
  (exists e', r = Err e') /\
  (forall x, lookup (dest ++ rel) fs' = Some (File x) ->
     lookup (dest ++ rel) fs = Some (File x)).
Proof.
  intros H Hap Hl Hb Hf Ht. apply generate_steps in H.
  destruct H as [[e0 [_ [-> ->]]]|[fs1 [Hm H]]]; [split; eauto|].
  assert (Hsrc : lookup source fs1 = lookup source fs).
  { apply (mkdirp_at_frame _ _ _ _ _ Hm).
    rewrite <- (app_nil_r dest). apply apart_under. exact Hap. }
  assert (Hback : forall x, kind (dest ++ rel) fs1 = Some (Some x) ->
            lookup (dest ++ rel) fs = Some (File x)).
  { intros x Hk. apply kind_file.
    rewrite (mkdirp_at_kind _ _ _ _ (dest ++ rel) Hm) in Hk.
    destruct (kind (dest ++ rel) fs); auto.
    destruct (is_prefix (dest ++ rel) dest); discriminate. }
  destruct H as [[_ [-> ->]]|[n [rels [r2 [Hn [Hrels [Ha ->]]]]]]].
  { split; eauto. intros x Hx. apply Hback. apply kind_file. exact Hx. }
  assert (Hin : In rel rels).
  { apply Hrels. split; auto.
    rewrite lookup_app, <- Hsrc, Hn in Hl.
    eapply walk_complete; eauto. apply unpruned_filter. exact Hf. }
  assert (Hfr : forall r, In r rels -> is_prefix source (dest ++ r) = false)
    by (intros; apply apart_under; exact Hap).
  assert (Htext : rbind (readFile (source ++ rel) fs1)
                        (render_or_copy render data) = Err e).
  { rewrite (readFile_under source rel fs1 fs Hsrc).
    unfold readFile. rewrite Hl. exact Ht. }
  split.
  - destruct r2 as [w|e2]; eauto.
    destruct (all_done _ _ _ _ _ _ _ _ _ Ha Hfr rel Hin) as [[str Hs] _].
    rewrite Htext in Hs. discriminate.
  - intros x Hx. apply Hback. apply kind_file in Hx.
    eapply all_failed_text; eauto.
Qed.

End MoreGenerate.

(** ** Copies and UTF-8 *)

Lemma utf8_encode_replacement str :
  utf8_encode (replacement :: str)
  = String (ascii_of_N 239) (String (ascii_of_N 191)
      (String (ascii_of_N 189) (utf8_encode str))).
Proof. reflexivity. Qed.

(** What is read and written back as it is was well-formed UTF-8. *)
Lemma utf8_exact_upto n : forall s,
  String.length s <= n ->
  utf8_encode (utf8_decode s) = s -> well_formed s = true.
Proof.
  induction n as [|n IH]; intros s Hlen H.
  - destruct s; [reflexivity|simpl in Hlen; lia].
  - destruct s as [|c0 s0]; [reflexivity|].
    cbn [String.length] in Hlen. cbn [utf8_decode well_formed] in *.
    destruct (N.ltb_spec (N_of_ascii c0) 128) as [Hb|Hb].
    { destruct (ascii_not_surrogate (N_of_ascii c0)) as [Hh Hl]; [lia|].
      rewrite utf8_encode_unit, utf8_bytes_1 in H by assumption.
      injection H as H. apply IH; auto. lia. }
    destruct (between 194 223 c0) eqn:E2.
    { destruct s0 as [|c1 s1]; [discriminate|].
      cbn [String.length] in Hlen.
      destruct (between 128 191 c1) eqn:E1.
      - pose proof (between_bounds _ _ _ E2).
        pose proof (between_bounds _ _ _ E1).
        destruct (ascii_not_surrogate ((N_of_ascii c0 - 192) * 64 + low6 c1))
          as [Hh Hl]; [unfold low6; lia|].
        rewrite utf8_encode_unit, utf8_bytes_2 in H by assumption.
        injection H as H. apply IH; auto. lia.
      - rewrite utf8_encode_replacement in H. injection H as H0 _. subst c0.
        discriminate. }
    destruct (between 224 239 c0) eqn:E3.
    { destruct s0 as [|c1 s1]; [discriminate|].
      destruct (between (second_min (N_of_ascii c0))
                        (second_max (N_of_ascii c0)) c1) eqn:E1.
      - destruct s1 as [|c2 s2]; [discriminate|].
        cbn [String.length] in Hlen.
        destruct (between 128 191 c2) eqn:E4.
        + destruct (utf8_bytes_3 c0 c1 c2 (utf8_encode (utf8_decode s2))
                      E3 E1 E4) as [Hbytes [Hh Hl]].
          rewrite utf8_encode_unit, Hbytes in H by assumption.
          injection H as H. cbn [andb]. apply IH; auto. lia.
        + rewrite utf8_encode_replacement in H. injection H as _ _ H2 _.
          subst c2. discriminate.
      - rewrite utf8_encode_replacement in H. injection H as H0 H1 _.
        subst c0 c1. discriminate. }
    destruct (between 240 244 c0) eqn:E4.
    { destruct s0 as [|c1 s1]; [discriminate|].
      destruct (between (second_min (N_of_ascii c0))
                        (second_max (N_of_ascii c0)) c1) eqn:E1;
        [|rewrite utf8_encode_replacement in H; injection H as H0 _;
          subst c0; discriminate].
      destruct s1 as [|c2 s2]; [discriminate|].
      destruct (between 128 191 c2) eqn:E5;
        [|rewrite utf8_encode_replacement in H; injection H as H0 _;
          subst c0; discriminate].
      destruct s2 as [|c3 s3];
        [rewrite utf8_encode_replacement in H; injection H as H0 _;
         subst c0; discriminate|].
      destruct (between 128 191 c3) eqn:E6;
        [|rewrite utf8_encode_replacement in H; injection H as H0 _;
          subst c0; discriminate].
      cbn [String.length] in Hlen.
      destruct (utf8_bytes_4 c0 c1 c2 c3 (utf8_encode (utf8_decode s3))
                  E4 E1 E5 E6) as [Hbytes Hcp].
      rewrite utf8_encode_units, Hbytes in H by exact Hcp.
      injection H as H. cbn [andb]. apply IH; auto. lia. }
    rewrite utf8_encode_replacement in H. injection H as H0 _. subst c0.
    discriminate.
Qed.

(** Reading as UTF-8 and writing back gives the bytes read exactly when
    they are well-formed UTF-8. *)
Lemma utf8_exact_iff s :
  utf8_encode (utf8_decode s) = s <-> well_formed s = true.
Proof.
  split.
  - apply (utf8_exact_upto (String.length s)). lia.
  - apply utf8_roundtrip.
Qed.

Section CopyExact.

Variable isBinaryPath : path -> bool.
Variable render : jsstring -> Data -> result jsstring.

(** X10: the copy of a file that holds no template is the file byte for
    byte exactly when the file is well-formed UTF-8: any other content
    comes out changed. *)
Theorem generate_copy_exact_iff source dest data opts fs fs' written rel c :
  generate isBinaryPath render source dest data opts fs = (fs', Ok written) ->
  default true (o_overwrite opts) = true \/
  (lookup (dest ++ rel) fs = None /\ rel <> []) ->
  apart source dest = true ->
  lookup (source ++ rel) fs = Some (File c) ->
  isBinaryPath (source ++ rel) = false ->
  unpruned source rel = true ->
  has_marker (utf8_decode c) = false ->
  (lookup (dest ++ rel) fs' = Some (File c) <-> well_formed c = true).
Proof.
  intros H How Hap Hl Hb Hf Hm.
  destruct (generate_writes_text _ _ _ _ _ _ _ _ _ _ _ H How Hap Hl Hb Hf)
    as [str [Ht [Hd _]]].
  unfold render_or_copy in Ht. rewrite Hm in Ht.
  assert (Hs : str = utf8_decode c) by congruence. subst str.
  rewrite Hd, <- utf8_exact_iff. split; congruence.
Qed.

End CopyExact.

(** * More of [download] and of [scaffold] *)

(** After [rimraf] the path leads nowhere. *)
Lemma rimraf_removed p : forall n, p <> [] -> lookup p (rimraf p n) = None.
Proof.
  induction p as [|s p IH]; intros n Hp; [congruence|].
  destruct n as [c|es].
  - destruct p; reflexivity.
  - destruct p as [|t p].
    + simpl. induction es as [|[k v] es IHes]; simpl; auto.
      destruct (String.eqb k s) eqn:E; simpl; auto. rewrite E. exact IHes.
    + change (rimraf (s :: t :: p) (Dir es))
        with (match assoc s es with
              | Some c => Dir (update s (rimraf (t :: p) c) es)
              | None => Dir es
              end).
      destruct (assoc s es) as [ch|] eqn:Ea.
      * cbn [lookup]. rewrite assoc_update_same, Ea.
        apply IH. discriminate.
      * cbn [lookup]. rewrite Ea. reflexivity.
Qed.

Section MoreDownload.

Variable xdgCachedir : path.
Variable kebabCase : string -> string.
Variable git_pull : path -> string -> string -> node -> node * option string.
Variable git_clone : string -> path -> node -> node * option string.

Local Abbreviation download' :=
  (download xdgCachedir kebabCase git_pull git_clone).
Local Abbreviation cacheRoot := (cachedir xdgCachedir []).

(** X11: the path of a locator is the cache root, when its slug is empty,
    or a directory in it; two locators have the same path exactly when
    they have the same slug. *)
Theorem destPath_by_slug :
  (forall url, is_prefix cacheRoot (destPath xdgCachedir kebabCase url) = true) /\
  (forall url,
     destPath xdgCachedir kebabCase url = cacheRoot
     <-> kebabCase url = EmptyString) /\
  (forall url1 url2,
     destPath xdgCachedir kebabCase url1 = destPath xdgCachedir kebabCase url2
     <-> kebabCase url1 = kebabCase url2).
Proof.
  assert (Hroot : cacheRoot = xdgCachedir ++ [".egad-templates"]).
  { unfold cachedir, join_names. cbn [filter String.eqb negb].
    apply app_nil_r. }
  assert (Hpath : forall url,
            destPath xdgCachedir kebabCase url
            = cacheRoot ++ (if String.eqb (kebabCase url) EmptyString
                            then [] else [kebabCase url])).
  { intros url. rewrite Hroot. unfold destPath, cachedir, join_names.
    cbn [filter]. destruct (String.eqb (kebabCase url) EmptyString);
      reflexivity. }
  split; [|split].
  - intros url. rewrite Hpath. apply is_prefix_app.
  - intros url. rewrite Hpath.
    destruct (String.eqb_spec (kebabCase url) EmptyString) as [E|E].
    + rewrite app_nil_r. tauto.
    + split; [|contradiction]. intros H.
      rewrite <- (app_nil_r cacheRoot) in H at 2.
      apply app_inv_head in H. discriminate.
  - intros url1 url2. rewrite !Hpath. split.
    + intros H. apply app_inv_head in H.
      destruct (String.eqb_spec (kebabCase url1) EmptyString) as [E1|E1],
        (String.eqb_spec (kebabCase url2) EmptyString) as [E2|E2];
        try congruence; discriminate.
    + intros ->. reflexivity.
Qed.

(** X12: [offline] does not keep [download] from git: when the working
    copy is a directory, [pull] is called whatever [offline] is; when it
    reports no error [download] resolves to the path; when it fails and
    [offline] is set, [download] rejects with [No cache of ...] though the
    working copy is there, on the disk [pull] left. *)
Theorem download_pulls_working_copy url opts w fs1 es fs2 err :
  let dest := default (destPath xdgCachedir kebabCase url) (o_dest opts) in
  let remote := default "origin" (o_remote opts) in
  let branch := default "master" (o_branch opts) in
  mkdirp cacheRoot (disk w) = Ok fs1 ->
  lookup dest (disk w) = Some (Dir es) ->
  git_pull dest remote branch fs1 = (fs2, err) ->
  (err = None ->
   download' url opts w
   = ({| disk := fs2; calls := calls w ++ [Pull dest remote branch] |},
      Ok dest)) /\
  (err <> None -> default false (o_offline opts) = true ->
   download' url opts w
   = ({| disk := fs2; calls := calls w ++ [Pull dest remote branch] |},
      Err (NoCacheOf url dest))).
Proof.
  intros dest remote branch Hm Hl Hp.
  pose proof (download_run xdgCachedir kebabCase git_pull git_clone url opts w)
    as Hrun. cbv zeta in Hrun. fold dest remote branch in Hrun.
  rewrite Hm in Hrun.
  assert (Hd : exists es', lookup dest fs1 = Some (Dir es')).
  { apply kind_dir. rewrite (mkdirp_at_kind _ _ _ _ dest Hm).
    replace (kind dest (disk w)) with (Some (@None string)); auto.
    symmetry. apply kind_dir. eauto. }
  destruct Hd as [es' Hes']. rewrite Hes', Hp in Hrun.
  split.
  - intros ->. exact Hrun.
  - intros Hne Hoff. rewrite Hoff in Hrun.
    destruct err; [exact Hrun|congruence].
Qed.

(** X13: with [offline] set, [download] resolves exactly when the working
    copy is a directory and [pull] reports no error. *)
Theorem download_offline_resolves_iff url opts w :
  let dest := default (destPath xdgCachedir kebabCase url) (o_dest opts) in
  let remote := default "origin" (o_remote opts) in
  let branch := default "master" (o_branch opts) in
  default false (o_offline opts) = true ->
  ((exists w' p, download' url opts w = (w', Ok p)) <->
   (exists fs1 es fs2,
      mkdirp cacheRoot (disk w) = Ok fs1 /\
      lookup dest fs1 = Some (Dir es) /\
      git_pull dest remote branch fs1 = (fs2, None))).
Proof.
  intros dest remote branch Hoff.
  pose proof (download_run xdgCachedir kebabCase git_pull git_clone url opts w)
    as Hrun. cbv zeta in Hrun. fold dest remote branch in Hrun.
  rewrite Hoff in Hrun. rewrite Hrun. clear Hrun. split.
  - intros [w' [p H]].
    destruct (mkdirp cacheRoot (disk w)) as [fs1|e]; [|discriminate].
    destruct (lookup dest fs1) as [[c|es]|] eqn:El; try discriminate.
    destruct (git_pull dest remote branch fs1) as [fs2 [msg|]] eqn:Ep;
      [discriminate|].
    exists fs1, es, fs2. auto.
  - intros [fs1 [es [fs2 [Hm [Hl Hp]]]]]. rewrite Hm, Hl, Hp. eauto.
Qed.

(** X14: without [offline], [download] ends in one of three ways: [pull]
    reported no error, and it resolves; or the target is below a file,
    [rimraf] fails with [ENOTDIR], and [download] rejects with that error
    without calling [clone]; or the target was removed and [clone] called
    where nothing is, and it resolves or rejects as [clone] reports.  An
    error of [mkdirp], of [stat] or of [pull] is never what it rejects
    with. *)
Theorem download_online_outcome url opts w w' r :
  let dest := default (destPath xdgCachedir kebabCase url) (o_dest opts) in
  let remote := default "origin" (o_remote opts) in
  let branch := default "master" (o_branch opts) in
  default false (o_offline opts) = false ->
  dest <> [] ->
  download' url opts w = (w', r) ->
  (exists fs1,
     git_pull dest remote branch fs1 = (disk w', None) /\
     calls w' = calls w ++ [Pull dest remote branch] /\
     r = Ok dest) \/
  (exists done,
     (done = calls w \/ done = calls w ++ [Pull dest remote branch]) /\
     through_file dest (disk w') = true /\
     calls w' = done ++ [Rimraf dest] /\
     r = Err (FsError ENOTDIR dest)) \/
  (exists fs0 err done,
     (done = calls w \/ done = calls w ++ [Pull dest remote branch]) /\
     lookup dest fs0 = None /\
     git_clone url dest fs0 = (disk w', err) /\
     calls w' = done ++ [Rimraf dest; Clone url dest] /\
     r = match err with
         | Some msg => Err (GitError msg)
         | None => Ok dest
         end).
Proof.
  intros dest remote branch Hoff Hd.
  pose proof (download_run xdgCachedir kebabCase git_pull git_clone url opts w)
    as Hrun. cbv zeta in Hrun. fold dest remote branch in Hrun.
  rewrite Hoff in Hrun. rewrite Hrun. clear Hrun.
  assert (Hfall : forall fs done,
    (done = calls w \/ done = calls w ++ [Pull dest remote branch]) ->
    (if through_file dest fs
     then ({| disk := fs; calls := done ++ [Rimraf dest] |},
           Err (FsError ENOTDIR dest))
     else
       let (fs', err) := git_clone url dest (rimraf dest fs) in
       ({| disk := fs'; calls := done ++ [Rimraf dest; Clone url dest] |},
        match err with
        | Some msg => Err (GitError msg)
        | None => Ok dest
        end)) = (w', r) ->
    (exists done,
       (done = calls w \/ done = calls w ++ [Pull dest remote branch]) /\
       through_file dest (disk w') = true /\
       calls w' = done ++ [Rimraf dest] /\
       r = Err (FsError ENOTDIR dest)) \/
    (exists fs0 err done,
       (done = calls w \/ done = calls w ++ [Pull dest remote branch]) /\
       lookup dest fs0 = None /\
       git_clone url dest fs0 = (disk w', err) /\
       calls w' = done ++ [Rimraf dest; Clone url dest] /\
       r = match err with
           | Some msg => Err (GitError msg)
           | None => Ok dest
           end)).
  { intros fs done Hdone H.
    destruct (through_file dest fs) eqn:Et.
    - inversion H. subst. left. exists done. cbn [disk calls]. auto.
    - destruct (git_clone url dest (rimraf dest fs)) as [fs' err] eqn:Ec.
      inversion H. subst. right. exists (rimraf dest fs), err, done.
      split; [exact Hdone|].
      split; [apply rimraf_removed; exact Hd|]. auto. }
  destruct (mkdirp cacheRoot (disk w)) as [fs1|e];
    [|intros H; right; exact (Hfall _ _ (or_introl eq_refl) H)].
  destruct (lookup dest fs1) as [[c|es]|];
    try (intros H; right; exact (Hfall _ _ (or_introl eq_refl) H)).
  destruct (git_pull dest remote branch fs1) as [fs2 [msg|]] eqn:Ep;
    [intros H; right; exact (Hfall _ _ (or_intror eq_refl) H)|].
  intros H. inversion H. subst. left. exists fs1. auto.
Qed.

End MoreDownload.

Section MoreScaffold.

Variable xdgCachedir : path.
Variable cwd : path.
Variable kebabCase : string -> string.
Variable isBinaryPath : path -> bool.
Variable render : jsstring -> Data -> result jsstring.
Variable git_pull : path -> string -> string -> node -> node * option string.
Variable git_clone : string -> path -> node -> node * option string.

Local Abbreviation download' :=
  (download xdgCachedir kebabCase git_pull git_clone).
Local Abbreviation scaffold' :=
  (scaffold xdgCachedir cwd kebabCase isBinaryPath render git_pull git_clone).
Local Abbreviation cacheRoot := (cachedir xdgCachedir []).

(** X15: [scaffold] with [offline] set and no working copy rejects with
    [No cache of ...] before anything is generated: git is not called, and
    the disk is as it was but for the cache root. *)
Theorem scaffold_offline_without_cache url dest data opts w :
  let templateDir :=
    default (destPath xdgCachedir kebabCase url) (o_dest opts) in
  o_offline opts = Some true ->
  lookup templateDir (disk w) = None ->
  is_prefix templateDir cacheRoot = false ->
  exists fs1,
    (fs1 = disk w \/ mkdirp cacheRoot (disk w) = Ok fs1) /\
    scaffold' url dest data opts w
    = ({| disk := fs1; calls := calls w |}, Err (NoCacheOf url templateDir)).
Proof.
  intros templateDir Hoff Hl Hp.
  pose proof (download_run xdgCachedir kebabCase git_pull git_clone url opts w)
    as Hrun. cbv zeta in Hrun. fold templateDir in Hrun.
  rewrite Hoff in Hrun. cbn [default] in Hrun.
  unfold scaffold, bind. rewrite Hrun.
  destruct (mkdirp cacheRoot (disk w)) as [fs1|e] eqn:Em.
  - exists fs1. split; auto.
    assert (Hk : kind templateDir fs1 = None).
    { rewrite (mkdirp_at_kind _ _ _ _ templateDir Em). unfold kind at 1.
      rewrite Hl, Hp. reflexivity. }
    unfold kind in Hk. destruct (lookup templateDir fs1) as [[|]|];
      try discriminate. reflexivity.
  - exists (disk w). split; auto.
Qed.

(** X16: when [scaffold] resolves, [download] resolved to the working copy
    and [generate] ran from it, with the same options, into the
    destination, which is the current directory when none is given; every
    path [scaffold] resolves to is under the destination, and git is
    called by [download] only. *)
Theorem scaffold_resolves url dest data opts w w' written :
  scaffold' url dest data opts w = (w', Ok written) ->
  exists w1 templateDir,
    download' url opts w = (w1, Ok templateDir) /\
    generate isBinaryPath render templateDir (default cwd dest) data opts
             (disk w1) = (disk w', Ok written) /\
    calls w' = calls w1 /\
    forall p, In p written -> is_prefix (default cwd dest) p = true.
Proof.
  unfold scaffold, bind, on_disk. intros H.
  destruct (download' url opts w) as [w1 [templateDir|e]]; [|discriminate].
  destruct (generate isBinaryPath render templateDir (default cwd dest) data
              opts (disk w1)) as [fs2 r2] eqn:Hg.
  inversion H. subst. exists w1, templateDir. cbn [disk calls].
  repeat split; auto.
  intros p Hin.
  destruct (generate_written _ _ _ _ _ _ _ _ _ _ Hg Hin) as [n [rel [-> _]]].
  apply is_prefix_app.
Qed.

End MoreScaffold.

(** * Edges of [generate] *)

(** [mkdirp] through a file fails, with [EEXIST] at the file itself and
    [ENOTDIR] below it. *)
Lemma mkdirp_at_blocked full p : forall rest n c,
  lookup p n = Some (File c) ->
  mkdirp_at full (p ++ rest) n
  = Err (FsError (match rest with [] => EEXIST | _ => ENOTDIR end) full).
Proof.
  induction p as [|s p IH]; intros rest n c Hl.
  - simpl in Hl. inversion Hl. subst. destruct rest; reflexivity.
  - destruct n as [c0|es]; [discriminate|].
    cbn [lookup] in Hl. cbn [app mkdirp_at].
    destruct (assoc s es) as [ch|]; [|discriminate].
    rewrite (IH rest ch c Hl). reflexivity.
Qed.

Section MoreEdges.

Variable isBinaryPath : path -> bool.
Variable render : jsstring -> Data -> result jsstring.

(** X17: when a file is where the destination should be, or where a
    directory above it should be, [generate] rejects with the error of
    [mkdirp], [EEXIST] or [ENOTDIR]; the disk is as it was, and the source
    is not looked at. *)
Theorem generate_blocked_destination source up rest data opts fs c :
  lookup up fs = Some (File c) ->
  generate isBinaryPath render source (up ++ rest) data opts fs
  = (fs, Err (FsError (match rest with [] => EEXIST | _ => ENOTDIR end)
                      (up ++ rest))).
Proof.
  intros Hl. unfold generate, bind, mkdirpM, mkdirp.
  rewrite (mkdirp_at_blocked _ _ rest _ _ Hl). reflexivity.
Qed.

(** X18: a text is handed to the renderer exactly when it holds an opening
    pair of braces, then one character at least and none of them a brace,
    then a closing pair; any other text is the result as it is, and the
    renderer is not asked. *)
Theorem rendered_when_marked data str :
  ((exists pre body post,
      str = pre ++ js "{{" ++ body ++ js "}}" ++ post /\
      body <> [] /\ no_brace body = true) ->
   render_or_copy render data str = render str data) /\
  ((forall pre body post,
      str = pre ++ js "{{" ++ body ++ js "}}" ++ post ->
      no_brace body = true -> body = []) ->
   render_or_copy render data str = Ok str).
Proof.
  unfold render_or_copy. split.
  - intros H. apply has_marker_spec in H. rewrite H. reflexivity.
  - intros H. destruct (has_marker str) eqn:E; [|reflexivity].
    apply has_marker_spec in E.
    destruct E as [pre [body [post [Hs [Hne Hn]]]]].
    elim Hne. eapply H; eauto.
Qed.

End MoreEdges.

(** * More properties on examples *)

Lemma generate_returns_queue_witness :
  default true (o_overwrite no_options) = true /\
  exists fs1 n,
    mkdirp ["out"] templates_disk = Ok fs1 /\
    lookup ["tpl"] fs1 = Some n /\
    Permutation
      [["out"; "hello.txt"]; ["out"; "plain.txt"]; ["out"; "empty.txt"];
       ["out"; "lib"; "LICENSE"]]
      (map (fun p => join ["out"] (relative ["tpl"] p))
           (filter (fun p => negb (png_isBinaryPath p)) (walk ["tpl"] n))).
Proof.
  split; [reflexivity|].
  assert (Hg : generate png_isBinaryPath keys_render ["tpl"] ["out"]
                 [(js "name", js "World")] no_options templates_disk
               = (fst (generate png_isBinaryPath keys_render ["tpl"] ["out"]
                         [(js "name", js "World")] no_options templates_disk),
                  Ok [["out"; "hello.txt"]; ["out"; "plain.txt"];
                      ["out"; "empty.txt"]; ["out"; "lib"; "LICENSE"]]))
    by (vm_compute; reflexivity).
  exact (generate_returns_queue png_isBinaryPath keys_render _ _ _ _ _ _ _
           Hg eq_refl).
Defined.

Lemma generate_spares_existing_witness :
  o_overwrite (overwrite_opts false) = Some false /\
  lookup ["out"; "hello.txt"] started_disk = Some (File "mine") /\
  (forall p c,
     lookup p started_disk = Some (File c) ->
     lookup p (fst (generate_templates ["out"] started_disk))
     = Some (File c)) /\
  (forall written p,
     snd (generate_templates ["out"] started_disk) = Ok written ->
     In p written -> lookup p started_disk = None).
Proof.
  split; [reflexivity|]. split; [reflexivity|].
  exact (generate_spares_existing png_isBinaryPath keys_render ["tpl"] ["out"]
           [(js "name", js "World")] (overwrite_opts false) started_disk
           (fst (generate_templates ["out"] started_disk))
           (snd (generate_templates ["out"] started_disk))
           eq_refl (surjective_pairing _)).
Defined.

Lemma generate_never_removes_witness :
  (forall p es,
     lookup p started_disk = Some (Dir es) ->
     exists es',
       lookup p (fst (generate png_isBinaryPath keys_render ["tpl"] ["out"]
                        [(js "name", js "World")] no_options started_disk))
       = Some (Dir es')) /\
  (forall p c,
     lookup p started_disk = Some (File c) ->
     exists c',
       lookup p (fst (generate png_isBinaryPath keys_render ["tpl"] ["out"]
                        [(js "name", js "World")] no_options started_disk))
       = Some (File c')).
Proof.
  exact (generate_never_removes png_isBinaryPath keys_render ["tpl"] ["out"]
           [(js "name", js "World")] no_options started_disk _ _
           (surjective_pairing _)).
Defined.

Lemma generate_confined_witness :
  (forall p c,
     is_prefix ["out"] p = false ->
     (lookup p (fst (generate_templates ["out"] templates_disk))
      = Some (File c)
      <-> lookup p templates_disk = Some (File c))) /\
  (forall p,
     is_prefix ["out"] p = false -> is_prefix p ["out"] = false ->
     lookup p (fst (generate_templates ["out"] templates_disk))
     = lookup p templates_disk) /\
  (apart ["tpl"] ["out"] = true ->
   lookup ["tpl"] (fst (generate_templates ["out"] templates_disk))
   = lookup ["tpl"] templates_disk).
Proof.
  exact (generate_confined png_isBinaryPath keys_render ["tpl"] ["out"]
           [(js "name", js "World")] (overwrite_opts false) templates_disk
           _ _ (surjective_pairing (generate_templates ["out"] templates_disk))).
Defined.

Lemma generate_again_same_witness :
  apart ["tpl"] ["out"] = true /\
  default true (o_overwrite no_options) = true /\
  default true (o_overwrite (overwrite_opts true)) = true /\
  exists again,
    generate png_isBinaryPath keys_render ["tpl"] ["out"]
             [(js "name", js "World")] (overwrite_opts true)
             (fst (generate png_isBinaryPath keys_render ["tpl"] ["out"]
                     [(js "name", js "World")] no_options templates_disk))
    = (fst (generate png_isBinaryPath keys_render ["tpl"] ["out"]
              [(js "name", js "World")] no_options templates_disk),
       Ok again) /\
    Permutation again
      [["out"; "hello.txt"]; ["out"; "plain.txt"]; ["out"; "empty.txt"];
       ["out"; "lib"; "LICENSE"]].
Proof.
  split; [reflexivity|]. split; [reflexivity|]. split; [reflexivity|].
  assert (Hg : generate png_isBinaryPath keys_render ["tpl"] ["out"]
                 [(js "name", js "World")] no_options templates_disk
               = (fst (generate png_isBinaryPath keys_render ["tpl"] ["out"]
                         [(js "name", js "World")] no_options templates_disk),
                  Ok [["out"; "hello.txt"]; ["out"; "plain.txt"];
                      ["out"; "empty.txt"]; ["out"; "lib"; "LICENSE"]]))
    by (vm_compute; reflexivity).
  assert (Hap : apart ["tpl"] ["out"] = true) by reflexivity.
  exact (generate_again_same png_isBinaryPath keys_render ["tpl"] ["out"]
           [(js "name", js "World")] no_options (overwrite_opts true)
           templates_disk _ _ Hap Hg eq_refl eq_refl).
Defined.

Lemma generate_missing_source_witness :
  lookup ["notes.txt"; "sub"] notes_disk = None /\
  lookup ["notes.txt"] notes_disk = Some (File "plain") /\
  generate png_isBinaryPath keys_render ["notes.txt"; "sub"] ["out"] []
           no_options notes_disk
  = (Dir [("notes.txt", File "plain"); ("out", Dir [])],
     Err (FsError ENOTDIR ["notes.txt"; "sub"])) /\
  lookup ["nowhere"] notes_disk = None /\
  generate png_isBinaryPath keys_render ["nowhere"] ["out"] []
           no_options notes_disk
  = (Dir [("notes.txt", File "plain"); ("out", Dir [])],
     Err (FsError ENOENT ["nowhere"])).
Proof.
  assert (Hl : lookup ["notes.txt"; "sub"] notes_disk = None) by reflexivity.
  assert (Hl' : lookup ["nowhere"] notes_disk = None) by reflexivity.
  assert (Hm : mkdirp ["out"] notes_disk
               = Ok (Dir [("notes.txt", File "plain"); ("out", Dir [])]))
    by reflexivity.
  split; [exact Hl|]. split; [reflexivity|].
  split; [|split; [exact Hl'|]].
  - exact (proj1 (generate_missing_source png_isBinaryPath keys_render
                    ["notes.txt"; "sub"] ["out"] [] no_options notes_disk _
                    Hl Hm)).
  - exact (proj1 (generate_missing_source png_isBinaryPath keys_render
                    ["nowhere"] ["out"] [] no_options notes_disk _ Hl' Hm)).
Defined.

Lemma generate_source_is_file_witness :
  lookup ["notes.txt"] notes_disk = Some (File "plain") /\
  png_isBinaryPath ["notes.txt"] = false /\
  generate png_isBinaryPath keys_render ["notes.txt"] ["out"] [] no_options
           notes_disk
  = (Dir [("notes.txt", File "plain"); ("out", Dir [])],
     if default true (o_overwrite no_options)
     then Err (FsError EISDIR ["out"]) else Ok []).
Proof.
  assert (Hl : lookup ["notes.txt"] notes_disk = Some (File "plain"))
    by reflexivity.
  assert (Hb : png_isBinaryPath ["notes.txt"] = false)
    by (vm_compute; reflexivity).
  assert (Hm : mkdirp ["out"] notes_disk
               = Ok (Dir [("notes.txt", File "plain"); ("out", Dir [])]))
    by reflexivity.
  assert (Ht : render_or_copy keys_render [] (utf8_decode "plain")
               = Ok (js "plain")) by (vm_compute; reflexivity).
  split; [exact Hl|]. split; [exact Hb|].
  exact (generate_source_is_file png_isBinaryPath keys_render ["notes.txt"]
           ["out"] [] no_options notes_disk _ _ _ Hl Hb Hm Ht).
Defined.

Lemma git_suffix_pruned_witness :
  endsWith ".git" "repo.git" = true /\
  lookup (["tpl"] ++ [] ++ "repo.git" :: ["HEAD"]) bare_disk
  = Some (File "ref: refs/heads/master") /\
  png_isBinaryPath (["tpl"] ++ [] ++ "repo.git" :: ["HEAD"]) = false /\
  generate png_isBinaryPath keys_render ["tpl"] ["out"] [] no_options
           bare_disk
  = (fst (generate png_isBinaryPath keys_render ["tpl"] ["out"] []
            no_options bare_disk),
     Ok [["out"; "README"]]) /\
  ~ In (["out"] ++ [] ++ "repo.git" :: ["HEAD"]) [["out"; "README"]] /\
  (forall c,
     lookup (["out"] ++ [] ++ "repo.git" :: ["HEAD"])
            (fst (generate png_isBinaryPath keys_render ["tpl"] ["out"] []
                    no_options bare_disk))
     = Some (File c) ->
     lookup (["out"] ++ [] ++ "repo.git" :: ["HEAD"]) bare_disk
     = Some (File c)).
Proof.
  assert (Hname : endsWith ".git" "repo.git" = true)
    by (vm_compute; reflexivity).
  assert (Hpost : ["HEAD"] <> @nil string) by discriminate.
  assert (Hg : generate png_isBinaryPath keys_render ["tpl"] ["out"] []
                 no_options bare_disk
               = (fst (generate png_isBinaryPath keys_render ["tpl"] ["out"]
                         [] no_options bare_disk),
                  Ok [["out"; "README"]])) by (vm_compute; reflexivity).
  split; [exact Hname|]. split; [reflexivity|].
  split; [vm_compute; reflexivity|]. split; [exact Hg|].
  pose proof (proj2 (git_suffix_pruned png_isBinaryPath keys_render ["tpl"]
                       ["out"] [] no_options bare_disk "repo.git" []
                       ["HEAD"] Hname Hpost) _ _ Hg) as H.
  exact (conj (proj1 H _ eq_refl) (proj2 H)).
Defined.

Lemma generate_render_failure_witness :
  apart ["tpl"] ["out"] = true /\
  lookup (["tpl"] ++ ["hello.txt"]) templates_disk
  = Some (File "Hello {{name}}") /\
  render_or_copy no_render [] (utf8_decode "Hello {{name}}")
  = Err (RenderError "Parse error") /\
  (exists e',
     snd (generate png_isBinaryPath no_render ["tpl"] ["out"] [] no_options
            templates_disk) = Err e') /\
  (forall x,
     lookup (["out"] ++ ["hello.txt"])
            (fst (generate png_isBinaryPath no_render ["tpl"] ["out"] []
                    no_options templates_disk))
     = Some (File x) ->
     lookup (["out"] ++ ["hello.txt"]) templates_disk = Some (File x)).
Proof.
  assert (Hap : apart ["tpl"] ["out"] = true) by reflexivity.
  assert (Hl : lookup (["tpl"] ++ ["hello.txt"]) templates_disk
               = Some (File "Hello {{name}}")) by reflexivity.
  assert (Hb : png_isBinaryPath (["tpl"] ++ ["hello.txt"]) = false)
    by (vm_compute; reflexivity).
  assert (Hf : unpruned ["tpl"] ["hello.txt"] = true)
    by (vm_compute; reflexivity).
  assert (Ht : render_or_copy no_render [] (utf8_decode "Hello {{name}}")
               = Err (RenderError "Parse error"))
    by (vm_compute; reflexivity).
  split; [exact Hap|]. split; [exact Hl|]. split; [exact Ht|].
  exact (generate_render_failure png_isBinaryPath no_render ["tpl"] ["out"] []
           no_options templates_disk _ _ ["hello.txt"] _ _
           (surjective_pairing _) Hap Hl Hb Hf Ht).
Defined.

Lemma generate_copy_exact_iff_witness :
  apart ["tpl"] ["out"] = true /\
  lookup (["tpl"] ++ ["menu.txt"]) latin1_disk = Some (File cafe_latin1) /\
  has_marker (utf8_decode cafe_latin1) = false /\
  (lookup (["out"] ++ ["menu.txt"])
          (fst (generate png_isBinaryPath keys_render ["tpl"] ["out"] []
                  no_options latin1_disk))
   = Some (File cafe_latin1)
   <-> well_formed cafe_latin1 = true).
Proof.
  assert (Hg : generate png_isBinaryPath keys_render ["tpl"] ["out"] []
                 no_options latin1_disk
               = (fst (generate png_isBinaryPath keys_render ["tpl"] ["out"]
                         [] no_options latin1_disk),
                  Ok [["out"; "menu.txt"]])) by (vm_compute; reflexivity).
  assert (Hap : apart ["tpl"] ["out"] = true) by reflexivity.
  assert (Hl : lookup (["tpl"] ++ ["menu.txt"]) latin1_disk
               = Some (File cafe_latin1)) by reflexivity.
  assert (Hb : png_isBinaryPath (["tpl"] ++ ["menu.txt"]) = false)
    by (vm_compute; reflexivity).
  assert (Hf : unpruned ["tpl"] ["menu.txt"] = true)
    by (vm_compute; reflexivity).
  assert (Hm : has_marker (utf8_decode cafe_latin1) = false)
    by (vm_compute; reflexivity).
  split; [exact Hap|]. split; [exact Hl|]. split; [exact Hm|].
  exact (generate_copy_exact_iff png_isBinaryPath keys_render ["tpl"] ["out"]
           [] no_options latin1_disk _ _ ["menu.txt"] cafe_latin1
           Hg (or_introl eq_refl) Hap Hl Hb Hf Hm).
Defined.

Lemma download_pulls_working_copy_witness :
  lookup ["cache"; ".egad-templates"; "my-repo"] cached_disk
  = Some (Dir [(".git", Dir [("HEAD", File "ref: refs/heads/master")]);
               ("hello.txt", File "Hello {{name}}")]) /\
  download ["cache"] lodash_kebabCase noop_pull mkdir_clone "My Repo!"
           (offline_opts true) {| disk := cached_disk; calls := [] |}
  = ({| disk := cached_disk;
        calls := [Pull ["cache"; ".egad-templates"; "my-repo"]
                       "origin" "master"] |},
     Ok ["cache"; ".egad-templates"; "my-repo"]) /\
  download ["cache"] lodash_kebabCase failing_pull mkdir_clone "My Repo!"
           (offline_opts true) {| disk := cached_disk; calls := [] |}
  = ({| disk := cached_disk;
        calls := [Pull ["cache"; ".egad-templates"; "my-repo"]
                       "origin" "master"] |},
     Err (NoCacheOf "My Repo!" ["cache"; ".egad-templates"; "my-repo"])).
Proof.
  split; [reflexivity|].
  pose proof (download_pulls_working_copy ["cache"] lodash_kebabCase noop_pull
                mkdir_clone "My Repo!" (offline_opts true)
                {| disk := cached_disk; calls := [] |} cached_disk
                [(".git", Dir [("HEAD", File "ref: refs/heads/master")]);
                 ("hello.txt", File "Hello {{name}}")]
                cached_disk None) as H1.
  pose proof (download_pulls_working_copy ["cache"] lodash_kebabCase
                failing_pull mkdir_clone "My Repo!" (offline_opts true)
                {| disk := cached_disk; calls := [] |} cached_disk
                [(".git", Dir [("HEAD", File "ref: refs/heads/master")]);
                 ("hello.txt", File "Hello {{name}}")]
                cached_disk (Some "Could not read from remote repository"))
    as H2.
  assert (Hne : Some "Could not read from remote repository" <> @None string)
    by discriminate.
  vm_compute in H1. vm_compute in H2. vm_compute.
  exact (conj (proj1 (H1 eq_refl eq_refl eq_refl) eq_refl)
              (proj2 (H2 eq_refl eq_refl eq_refl) Hne eq_refl)).
Defined.

Lemma download_offline_resolves_iff_witness :
  default false (o_offline (offline_opts true)) = true /\
  ((exists w' p,
      download ["cache"] lodash_kebabCase noop_pull mkdir_clone "My Repo!"
               (offline_opts true) {| disk := cached_disk; calls := [] |}
      = (w', Ok p)) <->
   (exists fs1 es fs2,
      mkdirp ["cache"; ".egad-templates"] cached_disk = Ok fs1 /\
      lookup ["cache"; ".egad-templates"; "my-repo"] fs1 = Some (Dir es) /\
      noop_pull ["cache"; ".egad-templates"; "my-repo"] "origin" "master" fs1
      = (fs2, None))).
Proof.
  split; [reflexivity|].
  pose proof (download_offline_resolves_iff ["cache"] lodash_kebabCase
                noop_pull mkdir_clone "My Repo!" (offline_opts true)
                {| disk := cached_disk; calls := [] |}) as H.
  vm_compute in H. vm_compute. exact (H eq_refl).
Defined.

Lemma download_online_outcome_witness :
  default false (o_offline (offline_opts false)) = false /\
  download_my_repo false conflict_disk
  = ({| disk := Dir [("cache",
                      Dir [(".egad-templates", Dir [("my-repo", Dir [])])])];
        calls := [Rimraf ["cache"; ".egad-templates"; "my-repo"];
                  Clone "My Repo!" ["cache"; ".egad-templates"; "my-repo"]] |},
     Ok ["cache"; ".egad-templates"; "my-repo"]) /\
  download_my_repo false blocked_disk
  = ({| disk := blocked_disk;
        calls := [Rimraf ["cache"; ".egad-templates"; "my-repo"]] |},
     Err (FsError ENOTDIR ["cache"; ".egad-templates"; "my-repo"])) /\
  ((exists fs1,
      failing_pull ["cache"; ".egad-templates"; "my-repo"] "origin" "master"
                   fs1
      = (disk (fst (download_my_repo false blocked_disk)), None) /\
      calls (fst (download_my_repo false blocked_disk))
      = [] ++ [Pull ["cache"; ".egad-templates"; "my-repo"]
                    "origin" "master"] /\
      snd (download_my_repo false blocked_disk)
      = Ok ["cache"; ".egad-templates"; "my-repo"]) \/
   (exists done,
      (done = [] \/
       done = [] ++ [Pull ["cache"; ".egad-templates"; "my-repo"]
                          "origin" "master"]) /\
      through_file ["cache"; ".egad-templates"; "my-repo"]
                   (disk (fst (download_my_repo false blocked_disk))) = true /\
      calls (fst (download_my_repo false blocked_disk))
      = done ++ [Rimraf ["cache"; ".egad-templates"; "my-repo"]] /\
      snd (download_my_repo false blocked_disk)
      = Err (FsError ENOTDIR ["cache"; ".egad-templates"; "my-repo"])) \/
   (exists fs0 err done,
      (done = [] \/
       done = [] ++ [Pull ["cache"; ".egad-templates"; "my-repo"]
                          "origin" "master"]) /\
      lookup ["cache"; ".egad-templates"; "my-repo"] fs0 = None /\
      mkdir_clone "My Repo!" ["cache"; ".egad-templates"; "my-repo"] fs0
      = (disk (fst (download_my_repo false blocked_disk)), err) /\
      calls (fst (download_my_repo false blocked_disk))
      = done ++ [Rimraf ["cache"; ".egad-templates"; "my-repo"];
                 Clone "My Repo!" ["cache"; ".egad-templates"; "my-repo"]] /\
      snd (download_my_repo false blocked_disk)
      = match err with
        | Some msg => Err (GitError msg)
        | None => Ok ["cache"; ".egad-templates"; "my-repo"]
        end)).
Proof.
  split; [reflexivity|].
  split; [vm_compute; reflexivity|]. split; [vm_compute; reflexivity|].
  pose proof (download_online_outcome ["cache"] lodash_kebabCase failing_pull
                mkdir_clone "My Repo!" (offline_opts false)
                {| disk := blocked_disk; calls := [] |}
                (fst (download_my_repo false blocked_disk))
                (snd (download_my_repo false blocked_disk))) as H.
  assert (Hne : ["cache"; ".egad-templates"; "my-repo"] <> @nil string)
    by discriminate.
  vm_compute in H. vm_compute. exact (H eq_refl Hne eq_refl).
Defined.

Lemma scaffold_offline_without_cache_witness :
  o_offline (offline_opts true) = Some true /\
  lookup ["cache"; ".egad-templates"; "my-repo"] (Dir []) = None /\
  exists fs1,
    (fs1 = Dir [] \/ mkdirp ["cache"; ".egad-templates"] (Dir []) = Ok fs1) /\
    scaffold_my_repo (offline_opts true) (Dir [])
    = ({| disk := fs1; calls := [] |},
       Err (NoCacheOf "My Repo!" ["cache"; ".egad-templates"; "my-repo"])).
Proof.
  split; [reflexivity|]. split; [reflexivity|].
  pose proof (scaffold_offline_without_cache ["cache"] ["work"]
                lodash_kebabCase png_isBinaryPath keys_render noop_pull
                mkdir_clone "My Repo!" None [(js "name", js "World")]
                (offline_opts true) {| disk := Dir []; calls := [] |}) as H.
  vm_compute in H. vm_compute. exact (H eq_refl eq_refl eq_refl).
Defined.

Lemma scaffold_resolves_witness :
  scaffold_my_repo no_options cached_disk
  = (fst (scaffold_my_repo no_options cached_disk),
     Ok [["work"; "hello.txt"]]) /\
  exists w1 templateDir,
    download ["cache"] lodash_kebabCase noop_pull mkdir_clone "My Repo!"
             no_options {| disk := cached_disk; calls := [] |}
    = (w1, Ok templateDir) /\
    generate png_isBinaryPath keys_render templateDir (default ["work"] None)
             [(js "name", js "World")] no_options (disk w1)
    = (disk (fst (scaffold_my_repo no_options cached_disk)),
       Ok [["work"; "hello.txt"]]) /\
    calls (fst (scaffold_my_repo no_options cached_disk)) = calls w1 /\
    forall p,
      In p [["work"; "hello.txt"]] ->
      is_prefix (default ["work"] None) p = true.
Proof.
  assert (Hs : scaffold_my_repo no_options cached_disk
               = (fst (scaffold_my_repo no_options cached_disk),
                  Ok [["work"; "hello.txt"]])) by (vm_compute; reflexivity).
  split; [exact Hs|].
  exact (scaffold_resolves ["cache"] ["work"] lodash_kebabCase png_isBinaryPath
           keys_render noop_pull mkdir_clone "My Repo!" None
           [(js "name", js "World")] no_options
           {| disk := cached_disk; calls := [] |} _ _ Hs).
Defined.

Lemma generate_blocked_destination_witness :
  lookup ["cache"; ".egad-templates"; "my-repo"] conflict_disk
  = Some (File "not a repo") /\
  generate png_isBinaryPath keys_render ["tpl"]
           (["cache"; ".egad-templates"; "my-repo"] ++ ["out"]) []
           no_options conflict_disk
  = (conflict_disk,
     Err (FsError ENOTDIR
            (["cache"; ".egad-templates"; "my-repo"] ++ ["out"]))).
Proof.
  assert (Hl : lookup ["cache"; ".egad-templates"; "my-repo"] conflict_disk
               = Some (File "not a repo")) by reflexivity.
  split; [exact Hl|].
  exact (generate_blocked_destination png_isBinaryPath keys_render ["tpl"]
           ["cache"; ".egad-templates"; "my-repo"] ["out"] [] no_options
           conflict_disk "not a repo" Hl).
Defined.

Lemma rendered_when_marked_witness :
  render_or_copy no_render [] (js "Hello {{name}}")
  = no_render (js "Hello {{name}}") [] /\
  render_or_copy no_render [] (js "an {{}} expression")
  = Ok (js "an {{}} expression").
Proof.
  split.
  - apply (proj1 (rendered_when_marked no_render [] (js "Hello {{name}}"))).
    exists (js "Hello "), (js "name"), [].
    split; [reflexivity|]. split; [discriminate|reflexivity].
  - apply (proj2 (rendered_when_marked no_render []
                    (js "an {{}} expression"))).
    intros pre body post Hs Hn. destruct body as [|u body]; [reflexivity|].
    assert (Hm : has_marker (js "an {{}} expression") = true).
    { apply has_marker_spec. exists pre, (u :: body), post.
      split; [exact Hs|]. split; [discriminate|exact Hn]. }
    vm_compute in Hm. discriminate.
Defined.
